(** * bg-remove: the local asset store and the export pipeline

    A shallow embedding of [src/lib/database.ts] (the Dexie-backed image
    store), of the crop planner, pixel effects and JPEG quality search of
    [src/components/EditModal.tsx], and of the upload path of the App
    component ([resizeImageForProcessing], [onDrop]); further, of the
    image list of the App component and its handlers, of the settings
    dialog ([src/components/SettingsModal.tsx]), of the camera dialog
    ([src/components/CameraPreview.tsx]) and of the preset, slider,
    download and save handlers of the edit dialog.

    Conventions.
    - A JavaScript [Date] is its time value, a [Z] of milliseconds.
    - [undefined] in an optional field is [None].
    - A store operation is a function from the database state to a result
      and the next state, and the reading of the clock ([new Date()]) is
      an argument of the operation.  [saveImage] and [cleanupOldImages]
      await a query and then a write: each is given as one function, for
      a call that nothing interrupts, and in its two steps, which [Async]
      interleaves for calls that overlap.
    - The local time zone and the browser (decoding, canvas encoder,
      model) are parameters.
    - JavaScript numbers are used through the interface [JS.Number], with an
      exact instance on [Q] and an IEEE 754 binary64 instance on the
      primitive floats. *)

From Stdlib Require Import ZArith QArith Qround Qabs Qminmax Lqa Lia.
From Stdlib Require Import Floats Uint63 DecimalString DecimalPos DecimalN.
From stdpp Require Import base decidable option list sorting strings.

Set Warnings "-inexact-float".
Set Default Proof Using "Type".

(* ===================================================================== *)
(** * Files and blobs *)
(* ===================================================================== *)

(** What a [Blob] holds, as far as the program can observe it: bytes that
    arrived from outside (with the natural size of the picture when the
    bytes decode as an image), or the output of [canvas.toBlob] for a canvas
    of a known size: [mime] is the format the bytes are encoded in and
    [quality] the quality the encoder used, for a format that takes
    one. *)
Inductive Payload : Type :=
| Received (natural : option (Z * Z))
| Canvas (width height : Z) (mime : string) (quality : option Q).

Module File.
Record t : Type := mk {
  name : string;
  type : string;
  lastModified : Z;
  size : N;
  payload : Payload
}.
End File.

(* ===================================================================== *)
(** * The asset store ([src/lib/database.ts]) *)
(* ===================================================================== *)

Module Store.

Inductive Format : Type := png | jpeg.

(** [interface StoredImage].  A row read back from the table always
    carries the auto-incremented primary key, so [id] is not optional
    here; an object that has no key yet (the literal [imageData]) is a
    function waiting for it. *)
Record StoredImage : Type := mkStoredImage {
  id : N;
  originalFile : File.t;
  processedFile : option File.t;
  fileName : string;
  lastPreset : option string;
  lastFormat : option Format;
  createdAt : Z;
  updatedAt : Z
}.

(** The table [db.images] with schema ['++id, fileName, createdAt,
    updatedAt']: the rows in primary-key order, and the state of the key
    generator. *)
Record DB : Type := mkDB {
  images : list StoredImage;
  nextId : N
}.

Definition empty : DB := mkDB [] 1.

(** ** The Dexie operations the module uses *)

(** [db.images.where('fileName').equals(n).toArray()] *)
Definition where_fileName_equals (n : string) (db : DB) : list StoredImage :=
  filter (λ r, fileName r = n) (images db).

(** [db.images.where('updatedAt').below(t).toArray()] *)
Definition where_updatedAt_below (t : Z) (db : DB) : list StoredImage :=
  filter (λ r, (updatedAt r < t)%Z) (images db).

(** [db.images.toArray()] *)
Definition toArray (db : DB) : list StoredImage := images db.

(** [db.images.get(key)] *)
Definition get (key : N) (db : DB) : option StoredImage :=
  head (filter (λ r, id r = key) (images db)).

(** [db.images.add(obj)] for an object without [id]: the key generator
    supplies the key, the row goes last in key order, the key is the
    result. *)
Definition add (obj : N → StoredImage) (db : DB) : N * DB :=
  (nextId db, mkDB (images db ++ [obj (nextId db)]) (N.succ (nextId db))).

(** [db.images.update(key, changes)].  Dexie applies every key of
    [changes] to the row stored under [key]; a key whose value is
    [undefined] removes that property from the row.  [changes] is here
    always the literal [imageData], which lists all seven properties
    other than [id]: the row keeps its key and takes all seven from
    [changes]. *)
Definition update (key : N) (changes : N → StoredImage) (db : DB) : DB :=
  mkDB (map (λ r, if decide (id r = key) then changes (id r) else r) (images db))
       (nextId db).

(** [db.images.delete(key)] *)
Definition delete (key : N) (db : DB) : DB :=
  mkDB (filter (λ r, id r ≠ key) (images db)) (nextId db).

(** [db.images.bulkDelete(keys)] *)
Definition bulkDelete (keys : list N) (db : DB) : DB :=
  mkDB (filter (λ r, id r ∉ keys) (images db)) (nextId db).

(** [db.images.clear()] *)
Definition clear (db : DB) : DB := mkDB [] (nextId db).

(** ** [imageStorage] *)

(** The arguments of one [saveImage] call. *)
Record SaveArgs : Type := mkSaveArgs {
  arg_originalFile : File.t;
  arg_processedFile : option File.t;
  arg_lastPreset : option string;
  arg_lastFormat : option Format
}.

(** The literal [imageData] of [saveImage]. *)
Definition imageData (a : SaveArgs) (existingImages : list StoredImage)
    (now : Z) : N → StoredImage := λ key,
  {| id := key;
     originalFile := arg_originalFile a;
     processedFile := arg_processedFile a;
     fileName := File.name (arg_originalFile a);
     lastPreset := arg_lastPreset a;
     lastFormat := arg_lastFormat a;
     createdAt := match existingImages with
                  | r :: _ => createdAt r
                  | [] => now
                  end;
     updatedAt := now |}.

(** [imageStorage.saveImage] from the answer of its query on:
    [existingImages] is what the query returned, [db] is the table when
    the write runs.  The function is [async] and awaits the query before
    it writes, so the table can have changed in between.  [update] on a
    key that is gone changes nothing. *)
Definition saveImage_write (a : SaveArgs) (now : Z)
    (existingImages : list StoredImage) (db : DB) : N * DB :=
  let imageData := imageData a existingImages now in
  match existingImages with
  | r :: _ => (id r, update (id r) imageData db)
  | [] => add imageData db
  end.

(** [imageStorage.saveImage] when no other store operation runs between
    its query and its write; [now] is the value of [new Date()]. *)
Definition saveImage (a : SaveArgs) (now : Z) (db : DB) : N * DB :=
  let existingImages := where_fileName_equals (File.name (arg_originalFile a)) db in
  let imageData := imageData a existingImages now in
  match existingImages with
  | r :: _ => (id r, update (id r) imageData db)
  | [] => add imageData db
  end.

Definition getImages (db : DB) : list StoredImage := toArray db.
Definition getImage (key : N) (db : DB) : option StoredImage := get key db.
Definition deleteImage (key : N) (db : DB) : DB := delete key db.
Definition clearAllImages (db : DB) : DB := clear db.

(** [imageStorage.getStorageSize] *)
Definition getStorageSize (db : DB) : N :=
  foldl (λ totalSize image,
           let totalSize := (totalSize + File.size (originalFile image))%N in
           match processedFile image with
           | Some p => (totalSize + File.size p)%N
           | None => totalSize
           end) 0%N (toArray db).

(** *** [formatBytes] *)

(** The decimal numeral of a natural number. *)
Definition string_of_N (n : N) : string :=
  NilZero.string_of_uint (N.to_uint n).

(** [x.toFixed(2)] for [x >= 0], as the number of hundredths it prints:
    the integer [n] with [n / 100] closest to [x], the larger one on a
    tie. *)
Definition toFixed2 (x : Q) : N := Z.to_N (Qfloor (x * 100 + (1 # 2))%Q).

(** [String(parseFloat(s))] for the numeral [s] of [n] hundredths:
    the shortest decimal of [n / 100], without trailing zeros. *)
Definition string_of_hundredths (n : N) : string :=
  let whole := (n / 100)%N in
  let frac := (n mod 100)%N in
  if (frac =? 0)%N then string_of_N whole
  else if (frac mod 10 =? 0)%N
       then string_of_N whole +:+ "." +:+ string_of_N (frac / 10)
       else string_of_N whole +:+ "." +:+ string_of_N (frac / 10)
              +:+ string_of_N (frac mod 10).

Definition sizes : list string := ["Bytes"; "KB"; "MB"; "GB"].

(** [Math.floor(Math.log(bytes) / Math.log(1024))] for [bytes > 0], with
    the logarithm taken exactly. *)
Definition floor_log1024 (bytes : N) : N := (N.log2 bytes / 10)%N.

(** [formatBytes(bytes)] with the default [decimals = 2].
    [sizes[i]] past the end of the array is [undefined], which the
    string concatenation prints as the word. *)
Definition formatBytes (bytes : N) : string :=
  if (bytes =? 0)%N then "0 Bytes"
  else
    let i := floor_log1024 bytes in
    string_of_hundredths
      (toFixed2 (inject_Z (Z.of_N bytes) / inject_Z (1024 ^ Z.of_N i))%Q)
    +:+ " " +:+ default "undefined" (sizes !! N.to_nat i).

Record StorageInfo : Type := mkStorageInfo {
  count : nat;
  totalSize : N;
  formattedSize : string
}.

(** [imageStorage.getStorageInfo] *)
Definition getStorageInfo (db : DB) : StorageInfo :=
  let images := toArray db in
  let totalSize := getStorageSize db in
  {| count := length images;
     totalSize := totalSize;
     formattedSize := formatBytes totalSize |}.

(** *** Dates *)

Definition msPerDay : Z := 86400000.

(** [Day(t)] and [TimeWithinDay(t)] of ECMA-262, and [MakeDate]. *)
Definition Day (t : Z) : Z := (t / msPerDay)%Z.
Definition TimeWithinDay (t : Z) : Z := (t mod msPerDay)%Z.
Definition MakeDate (day time : Z) : Z := (day * msPerDay + time)%Z.

(** The local time zone as ECMA-262 consults it.  [offset_at_utc t] is
    [LocalTZA(t, true)]: the milliseconds local time is ahead of UTC at
    the instant [t].  [offset_at_local t] is [LocalTZA(t, false)]: the
    offset that applies to the local time value [t]; for a local time
    that a transition skips or repeats it is the offset from before the
    transition.  Daylight saving time makes both depend on [t]. *)
Record TimeZone : Type := mkTimeZone {
  offset_at_utc : Z → Z;
  offset_at_local : Z → Z
}.

(** [LocalTime(t)] and [UTC(t)] of ECMA-262. *)
Definition LocalTime (tz : TimeZone) (t : Z) : Z := (t + offset_at_utc tz t)%Z.
Definition UTC (tz : TimeZone) (t : Z) : Z := (t - offset_at_local tz t)%Z.

(** [d.setDate(d.getDate() - n)] on a date with time value [t]: the day
    of the month is taken in local time, [MakeDay(year, month, date - n)]
    is the local day number of [t] less [n], whatever the month, the
    time within the day is kept, and the local time so made is taken
    back to UTC. *)
Definition setDate_getDate_minus (tz : TimeZone) (n : Z) (t : Z) : Z :=
  let local := LocalTime tz t in
  UTC tz (MakeDate (Day local - n) (TimeWithinDay local)).

(** [imageStorage.cleanupOldImages]; [now] is the value of [new Date()]. *)
Definition cleanupOldImages (tz : TimeZone) (daysToKeep : Z) (now : Z) (db : DB)
    : nat * DB :=
  let cutoffDate := setDate_getDate_minus tz daysToKeep now in
  let oldImages := where_updatedAt_below cutoffDate db in
  let idsToDelete := map id oldImages in
  (length idsToDelete, bulkDelete idsToDelete db).

(** ** Sequences of calls and the invariants of the table *)

(** A sequence of [saveImage] calls, each with the time at which it reads
    the clock, that do not overlap: each is made when the one before has
    returned, as the loop of [onDrop] does with its [await]s.  Calls
    that overlap are the subject of [Async] below. *)
Definition run_saves (calls : list (SaveArgs * Z)) (db : DB) : DB :=
  foldl (λ db call, (saveImage call.1 call.2 db).2) db calls.

(** The primary keys are those the key generator handed out: increasing
    along the table and below the next key. *)
Definition keys_wf (db : DB) : Prop :=
  StronglySorted N.lt (id <$> images db)
  ∧ Forall (λ r, (id r < nextId db)%N) (images db).

(** No two rows share a [fileName]. *)
Definition names_unique (db : DB) : Prop :=
  NoDup (fileName <$> images db).

End Store.

(* ===================================================================== *)
(** * JavaScript numbers *)
(* ===================================================================== *)

Module JS.

(** The operations on numbers that the components use. *)
Class Number (A : Type) : Type := {
  of_Z : Z → A;                 (* an integer value *)
  add : A → A → A;
  sub : A → A → A;
  mul : A → A → A;
  div : A → A → A;
  gtb : A → A → bool;           (* [a > b] *)
  max : A → A → A;              (* [Math.max(a, b)] *)
  min : A → A → A;              (* [Math.min(a, b)] *)
  round : A → A;                (* [Math.round(a)] *)
  toUint8Clamp : A → Z;         (* a store into a [Uint8ClampedArray] *)
  truncate : A → Z              (* [ToIntegerOrInfinity], 0 when not finite *)
}.

(** A decimal literal [n/d], such as [0.9] or [0.75]: the number closest
    to the quotient.  IEEE division of two exactly represented integers
    is correctly rounded, so this is the value the literal denotes. *)
Definition lit `{Number A} (n d : Z) : A := div (of_Z n) (of_Z d).

(** ** Exact arithmetic *)

(** [ToUint8Clamp] of ECMA-262 on an exact value: clamp to [0, 255],
    round to the nearest integer, to the even one on a tie. *)
Definition Q_toUint8Clamp (x : Q) : Z :=
  if Qle_bool x 0 then 0%Z
  else if Qle_bool 255 x then 255%Z
  else
    let f := Qfloor x in
    if Qle_bool x (inject_Z f + (1 # 2))%Q
    then if Qle_bool (inject_Z f + (1 # 2))%Q x
         then (if Z.even f then f else f + 1)%Z
         else f
    else (f + 1)%Z.

Definition Q_round (x : Q) : Q := inject_Z (Qfloor (x + (1 # 2))%Q).

Definition Q_truncate (x : Q) : Z := Z.quot (Qnum x) (Zpos (Qden x)).

#[export] Instance Number_Q : Number Q := {|
  of_Z := inject_Z;
  add := Qplus;
  sub := Qminus;
  mul := Qmult;
  div := Qdiv;
  gtb a b := negb (Qle_bool a b);
  max a b := if Qle_bool a b then b else a;
  min a b := if Qle_bool a b then a else b;
  round := Q_round;
  toUint8Clamp := Q_toUint8Clamp;
  truncate := Q_truncate
|}.

(** ** IEEE 754 binary64 *)

(** An integer as a float; exact below [2^53] in absolute value. *)
Definition float_of_Z (z : Z) : float :=
  match z with
  | Z0 => PrimFloat.zero
  | Zpos _ => PrimFloat.of_uint63 (Uint63.of_Z z)
  | Zneg _ => PrimFloat.opp (PrimFloat.of_uint63 (Uint63.of_Z (- z)))
  end.

(** The exact value of a finite float. *)
Definition Q_of_float (f : float) : option Q :=
  match Prim2SF f with
  | S754_zero _ => Some 0%Q
  | S754_finite s m e =>
      let v := match e with
               | Z0 => inject_Z (Zpos m)
               | Zpos k => inject_Z (Zpos m * 2 ^ Zpos k)
               | Zneg k => Zpos m # (2 ^ k)%positive
               end in
      Some (if s then (- v)%Q else v)
  | S754_infinity _ | S754_nan => None
  end.

Definition float_max (a b : float) : float :=
  if PrimFloat.is_nan a || PrimFloat.is_nan b then PrimFloat.nan
  else if PrimFloat.ltb a b then b
  else if PrimFloat.ltb b a then a
  else if PrimFloat.is_zero a then PrimFloat.add a b
  else a.

Definition float_min (a b : float) : float :=
  if PrimFloat.is_nan a || PrimFloat.is_nan b then PrimFloat.nan
  else if PrimFloat.ltb a b then a
  else if PrimFloat.ltb b a then b
  else if PrimFloat.is_zero a
       then PrimFloat.opp (PrimFloat.add (PrimFloat.opp a) (PrimFloat.opp b))
  else a.

(** [Math.round]: the integer closest to the exact value, the larger one
    on a tie; zeros, infinities, NaN and the floats that are integers
    already (all those from [2^52] on) are returned as they are. *)
Definition float_round (f : float) : float :=
  match Q_of_float f with
  | Some q =>
      if PrimFloat.is_zero f then f
      else if PrimFloat.leb 4503599627370496%float (PrimFloat.abs f) then f
      else
        let r := Qfloor (q + (1 # 2))%Q in
        if (r =? 0)%Z then (if PrimFloat.ltb f 0%float then PrimFloat.neg_zero else PrimFloat.zero)
        else float_of_Z r
  | None => f
  end.

Definition float_toUint8Clamp (f : float) : Z :=
  match Q_of_float f with
  | Some q => Q_toUint8Clamp q
  | None => if PrimFloat.ltb 0%float f then 255%Z else 0%Z
  end.

Definition float_truncate (f : float) : Z :=
  match Q_of_float f with
  | Some q => Q_truncate q
  | None => 0%Z
  end.

#[export] Instance Number_float : Number float := {|
  of_Z := float_of_Z;
  add := PrimFloat.add;
  sub := PrimFloat.sub;
  mul := PrimFloat.mul;
  div := PrimFloat.div;
  gtb a b := PrimFloat.ltb b a;
  max := float_max;
  min := float_min;
  round := float_round;
  toUint8Clamp := float_toUint8Clamp;
  truncate := float_truncate
|}.

(** A bounded [while] loop: [None] when the fuel runs out before the
    condition turns false. *)
Fixpoint while {S : Type} (fuel : nat) (cond : S → bool) (body : S → S)
    (s : S) : option S :=
  if cond s then
    match fuel with
    | O => None
    | Datatypes.S fuel => while fuel cond body (body s)
    end
  else Some s.

End JS.

(* ===================================================================== *)
(** * The edit dialog ([src/components/EditModal.tsx]) *)
(* ===================================================================== *)

Module PhotoPreset.
(** [interface PhotoPreset]; [maxFileSize] is in KB. *)
Record t : Type := mk {
  id : string;
  label : string;
  width : Z;
  height : Z;
  minHeadWidth : Z;
  maxHeadWidth : Z;
  format : Store.Format;
  maxFileSize : option Z;
  description : string
}.
End PhotoPreset.

Module Rect.
(** [{x, y, width, height}]: a face bounding box or a crop area. *)
Record t (A : Type) : Type := mk {
  x : A;
  y : A;
  width : A;
  height : A
}.
Arguments mk {A} _ _ _ _.
Arguments x {A} _.
Arguments y {A} _.
Arguments width {A} _.
Arguments height {A} _.
End Rect.

Module Editor.
Import JS.

Definition photoPresets : list PhotoPreset.t := [
  PhotoPreset.mk "none" "No Preset" 0 0 0 0 Store.png None
    "Keep original dimensions";
  PhotoPreset.mk "china-visa" "China Visa" 420 560 191 251 Store.jpeg (Some 120%Z)
    "420×560px, JPEG, 40-120KB, head 191-251px wide";
  PhotoPreset.mk "us-passport" "US Passport" 600 600 330 420 Store.jpeg (Some 240%Z)
    "600×600px, JPEG, head 330-420px wide";
  PhotoPreset.mk "linkedin" "LinkedIn Profile" 400 400 200 320 Store.jpeg None
    "400×400px, square format for social media"
].

(** [photoPresets.find(p => p.id === presetId)] *)
Definition find_preset (presetId : string) : option PhotoPreset.t :=
  head (filter (λ p, PhotoPreset.id p = presetId) photoPresets).

Section numbers.
Context {A : Type} `{Number A}.

(** ** [calculateCropArea]

    [img_width] and [img_height] are [img.width] and [img.height];
    [face] is the result of [await detectFace(img)]. *)
Definition calculateCropArea (img_width img_height : Z)
    (preset : PhotoPreset.t) (face : option (Rect.t A)) : option (Rect.t A) :=
  if decide (PhotoPreset.id preset = "none") then None
  else
    let aspectRatio := div (of_Z (PhotoPreset.width preset))
                           (of_Z (PhotoPreset.height preset)) in
    let imgAspectRatio := div (of_Z img_width) (of_Z img_height) in
    if gtb imgAspectRatio aspectRatio then
      (* Image is wider than target aspect ratio *)
      let cropHeight := of_Z img_height in
      let cropWidth := mul cropHeight aspectRatio in
      let cropX :=
        match face with
        | Some face =>
            let faceCenterX := add (Rect.x face) (div (Rect.width face) (of_Z 2)) in
            max (of_Z 0)
                (min (sub (of_Z img_width) cropWidth)
                     (sub faceCenterX (div cropWidth (of_Z 2))))
        | None => div (sub (of_Z img_width) cropWidth) (of_Z 2)
        end in
      let cropY := of_Z 0 in
      Some (Rect.mk cropX cropY cropWidth cropHeight)
    else
      (* Image is taller than target aspect ratio *)
      let cropWidth := of_Z img_width in
      let cropHeight := div cropWidth aspectRatio in
      let cropX := of_Z 0 in
      let cropY :=
        match face with
        | Some face =>
            let faceCenterY := add (Rect.y face) (div (Rect.height face) (of_Z 2)) in
            let idealFacePosition := mul cropHeight (lit 4 10) in
            max (of_Z 0)
                (min (sub (of_Z img_height) cropHeight)
                     (sub faceCenterY idealFacePosition))
        | None => div (sub (of_Z img_height) cropHeight) (of_Z 2)
        end in
      Some (Rect.mk cropX cropY cropWidth cropHeight).

(** ** The pixel effects of [applyChanges]

    [data] is [imageData.data], a [Uint8ClampedArray] of channel values
    R, G, B, A per pixel; every store into it goes through
    [toUint8Clamp].  The loops advance by four and write three
    channels. *)

Definition brightness_channel (brightnessValue : Z) (c : Z) : Z :=
  toUint8Clamp (min (of_Z 255) (mul (of_Z c) (div (of_Z brightnessValue) (of_Z 50)))).

Fixpoint brightness (brightnessValue : Z) (data : list Z) : list Z :=
  match data with
  | r :: g :: b :: a :: rest =>
      brightness_channel brightnessValue r
        :: brightness_channel brightnessValue g
        :: brightness_channel brightnessValue b
        :: a :: brightness brightnessValue rest
  | short => map (brightness_channel brightnessValue) short
  end.

Definition contrast_factor (contrastValue : Z) : A :=
  div (mul (of_Z 259) (add (of_Z contrastValue) (of_Z 255)))
      (mul (of_Z 255) (sub (of_Z 259) (of_Z contrastValue))).

Definition contrast_channel (contrastValue : Z) (c : Z) : Z :=
  let factor := contrast_factor contrastValue in
  toUint8Clamp (add (mul factor (sub (of_Z c) (of_Z 128))) (of_Z 128)).

Fixpoint contrast (contrastValue : Z) (data : list Z) : list Z :=
  match data with
  | r :: g :: b :: a :: rest =>
      contrast_channel contrastValue r
        :: contrast_channel contrastValue g
        :: contrast_channel contrastValue b
        :: a :: contrast contrastValue rest
  | short => map (contrast_channel contrastValue) short
  end.

(** ** The export step of [applyChanges]

    [toDataURL mime quality] is [canvas.toDataURL(mime, quality)] on
    the finished canvas.  The state of the quality loop carries the
    qualities passed to the encoder so far, latest first. *)
Record EncodeState : Type := mkEncodeState {
  quality : A;
  dataUrl : string;
  attempts : Z;
  encoded_at : list A
}.

Section export.
Variable toDataURL : string → option A → string.

Definition over_budget (dataUrl : string) (targetSize : Z) : bool :=
  gtb (mul (of_Z (Z.of_nat (String.length dataUrl))) (lit 75 100)) (of_Z targetSize).

Definition encode_cond (targetSize : Z) (s : EncodeState) : bool :=
  over_budget (dataUrl s) targetSize
  && gtb (quality s) (lit 1 10)
  && (attempts s <? 10)%Z.

Definition encode_body (s : EncodeState) : EncodeState :=
  let quality := sub (quality s) (lit 1 10) in
  {| quality := quality;
     dataUrl := toDataURL "image/jpeg" (Some quality);
     attempts := (attempts s + 1)%Z;
     encoded_at := quality :: encoded_at s |}.

(** The JPEG branch, from [let quality = 0.9] on. *)
Definition encode_jpeg (fuel : nat) (maxFileSize : option Z) : option EncodeState :=
  let quality := lit 9 10 in
  let s := {| quality := quality;
              dataUrl := toDataURL "image/jpeg" (Some quality);
              attempts := 0;
              encoded_at := [quality] |} in
  match maxFileSize with
  | Some kb =>
      if (kb =? 0)%Z then Some s
      else
        let targetSize := (kb * 1024)%Z in
        while fuel (encode_cond targetSize) encode_body s
  | None => Some s
  end.

(** The data URL handed to [setExportUrl]. *)
Definition export (fuel : nat) (preset : option PhotoPreset.t) : option string :=
  match preset with
  | Some p =>
      match PhotoPreset.format p with
      | Store.jpeg => dataUrl <$> encode_jpeg fuel (PhotoPreset.maxFileSize p)
      | Store.png => Some (toDataURL "image/png" None)
      end
  | None => Some (toDataURL "image/png" None)
  end.
End export.
End numbers.

End Editor.

(* ===================================================================== *)
(** * The upload path of the App component *)
(* ===================================================================== *)

Module App.
Import JS.

(** What the browser decides on its own during an upload. *)
Record Browser : Type := mkBrowser {
  (** [canvas.getContext('2d')] returns a context *)
  context2d : bool;
  (** the canvas encoder supports the MIME type; whatever it says, PNG
      is supported *)
  canEncode : string → bool;
  (** the format takes a quality argument, as JPEG and WebP do *)
  hasQuality : string → bool;
  (** the encoder on a canvas that has pixels, for the format and the
      quality it uses: the size in bytes of the encoded blob, or [None]
      when the callback of [canvas.toBlob] receives [null] *)
  encode : File.t → Z → Z → string → option Q → option N;
  (** [initializeModel()] resolves to a truthy value *)
  modelReady : bool;
  (** [processImages([file])]: [None] when it throws, otherwise the first
      element of the result, if any *)
  processImages : File.t → option (option File.t)
}.

(** The natural size of the picture a file decodes to ([img.onload]), or
    [None] when it does not decode ([img.onerror]). *)
Definition decode (file : File.t) : option (Z * Z) :=
  match File.payload file with
  | Received natural => natural
  | Canvas w h _ _ => Some (w, h)
  end.

(** The format [canvas.toBlob(callback, type, quality)] encodes in: the
    requested one when the encoder supports it, PNG when it does not. *)
Definition encoded_type (env : Browser) (type : string) : string :=
  if canEncode env type then type else "image/png".

(** The quality it uses: the requested one when the format it encodes in
    takes a quality, none otherwise. *)
Definition encoded_quality (env : Browser) (type : string) (quality : Q) : option Q :=
  if hasQuality env (encoded_type env type) then Some quality else None.

(** [canvas.toBlob(callback, type, quality)] on a [w] by [h] canvas: a
    canvas without pixels gives [null]. *)
Definition toBlob (env : Browser) (src : File.t) (w h : Z) (type : string)
    (quality : Q) : option (N * Payload) :=
  if decide (w ≤ 0 ∨ h ≤ 0)%Z then None
  else
    let mime := encoded_type env type in
    let used := encoded_quality env type quality in
    (λ size, (size, Canvas w h mime used)) <$> encode env src w h mime used.

Section numbers.
Context {A : Type} `{Number A}.

(** [resizeImageForProcessing(file, maxHeight)]; the promise resolves
    with the result. *)
Definition resizeImageForProcessing (env : Browser) (file : File.t)
    (maxHeight : Z) : File.t :=
  match decode file with
  | Some (img_width, img_height) =>
      let aspectRatio := div (of_Z img_width) (of_Z img_height) in
      let '(newWidth, newHeight) :=
        if (img_height >? maxHeight)%Z
        then (truncate (round (mul (of_Z maxHeight) aspectRatio)), maxHeight)
        else (img_width, img_height) in
      if negb (context2d env) then file
      else
        match toBlob env file newWidth newHeight (File.type file) (9 # 10) with
        | Some (size, payload) =>
            File.mk (File.name file) (File.type file) (File.lastModified file)
                    size payload
        | None => file
        end
  | None => file
  end.

(** The [saveImage] calls that [onDrop(acceptedFiles)] issues, in
    order.  [first] is [images.length === 0]. *)
Definition onDrop (env : Browser) (first : bool) (acceptedFiles : list File.t)
    : list Store.SaveArgs :=
  let resizedFiles := map (λ file, resizeImageForProcessing env file 512) acceptedFiles in
  if first && negb (modelReady env) then []
  else
    flat_map (λ file,
      Store.mkSaveArgs file None None None ::
      match processImages env file with
      | Some (Some result) => [Store.mkSaveArgs file (Some result) None None]
      | _ => []
      end) resizedFiles.
End numbers.

End App.

(* ===================================================================== *)
(** * Store operations that overlap *)
(* ===================================================================== *)

(** The operations of [imageStorage] are [async], and the App component
    does not await [onDrop]: a [saveImage] call can be made while an
    earlier one is still waiting for its query or its write.  IndexedDB
    runs the transactions of one table in the order they were made, so
    the table changes in atomic steps: the query of a call when the call
    is made, and its write when the call resumes.  [saveImage] and
    [cleanupOldImages] query and then write; [deleteImage] and
    [clearAllImages] are one step. *)
Module Async.
Import Store.

(** A call that waits for the answer of its query. *)
Inductive Pending : Type :=
| Saving (a : SaveArgs) (now : Z) (existingImages : list StoredImage)
| Sweeping (idsToDelete : list N).

Inductive Event : Type :=
| Call (a : SaveArgs) (now : Z)
    (* [saveImage] is called: it reads the clock and its query runs *)
| Sweep (tz : TimeZone) (daysToKeep now : Z)
    (* [cleanupOldImages] is called: its query runs *)
| Resume (i : nat)
    (* the call number [i], counting from 0, resumes and its write runs *)
| DeleteImage (key : N)
| ClearAllImages.

(** The table, and the calls made so far: [Some] while a call waits,
    [None] once it has written. *)
Record Run : Type := mkRun {
  store : DB;
  calls : list (option Pending)
}.

Definition fresh (db : DB) : Run := mkRun db [].

Definition step (s : Run) (e : Event) : Run :=
  match e with
  | Call a now =>
      let existingImages := where_fileName_equals (File.name (arg_originalFile a)) (store s) in
      mkRun (store s) (calls s ++ [Some (Saving a now existingImages)])
  | Sweep tz daysToKeep now =>
      let cutoffDate := setDate_getDate_minus tz daysToKeep now in
      let oldImages := where_updatedAt_below cutoffDate (store s) in
      mkRun (store s) (calls s ++ [Some (Sweeping (map id oldImages))])
  | Resume i =>
      match calls s !! i with
      | Some (Some (Saving a now existingImages)) =>
          mkRun (saveImage_write a now existingImages (store s)).2
                (<[i := None]> (calls s))
      | Some (Some (Sweeping idsToDelete)) =>
          mkRun (bulkDelete idsToDelete (store s)) (<[i := None]> (calls s))
      | _ => s
      end
  | DeleteImage key => mkRun (deleteImage key (store s)) (calls s)
  | ClearAllImages => mkRun (clearAllImages (store s)) (calls s)
  end.

Definition run (events : list Event) (s : Run) : Run := foldl step s events.

(** Calls that do not overlap: each resumes before the next is made.
    [made] is the number of calls made before. *)
Fixpoint one_after_the_other (made : nat) (saves : list (SaveArgs * Z)) : list Event :=
  match saves with
  | [] => []
  | (a, now) :: rest => Call a now :: Resume made :: one_after_the_other (S made) rest
  end.

End Async.

(* ===================================================================== *)
(** * The rest of the App component: the image list and its handlers *)
(* ===================================================================== *)

Module AppState.
Import JS.

(** [interface ImageFile]: an entry of the [images] state.  [id] is the
    primary key of the row for an entry read from the store, and
    [Date.now() + index] for an entry made by [onDrop]. *)
Record ImageFile : Type := mkImageFile {
  id : N;
  file : File.t;
  processedFile : option File.t;
  lastPreset : option string;
  lastFormat : option Store.Format
}.

(** [new File([blob], name, {type: blob.type, lastModified})] *)
Definition rewrap (blob : File.t) (name : string) (lastModified : Z) : File.t :=
  File.mk name (File.type blob) lastModified (File.size blob) (File.payload blob).

(** [storedImageToImageFile] *)
Definition storedImageToImageFile (storedImage : Store.StoredImage) : ImageFile :=
  {| id := Store.id storedImage;
     file := rewrap (Store.originalFile storedImage) (Store.fileName storedImage)
               (Store.createdAt storedImage);
     processedFile :=
       match Store.processedFile storedImage with
       | Some p => Some (rewrap p (Store.fileName storedImage) (Store.updatedAt storedImage))
       | None => None
       end;
     lastPreset := Store.lastPreset storedImage;
     lastFormat := Store.lastFormat storedImage |}.

(** [loadStoredImages]: the list handed to [setImages]. *)
Definition loadStoredImages (db : Store.DB) : list ImageFile :=
  map storedImageToImageFile (Store.getImages db).

(** The entries [onDrop] adds to the list: [now index] is the value of
    [Date.now()] when the entry number [index] is made. *)
Definition newImages `{Number A} (env : App.Browser) (now : nat → N)
    (acceptedFiles : list File.t) : list ImageFile :=
  imap (λ index file,
          {| id := (now index + N.of_nat index)%N;
             file := file;
             processedFile := None;
             lastPreset := None;
             lastFormat := None |})
       (map (λ file, App.resizeImageForProcessing env file 512) acceptedFiles).

(** [onDelete(id)]: the list after [setImages], and the store after
    [imageStorage.deleteImage(id)]. *)
Definition onDelete (key : N) (images : list ImageFile) (db : Store.DB)
    : list ImageFile * Store.DB :=
  (filter (λ img, id img ≠ key) images, Store.deleteImage key db).

(** The properties of [updates] that the store write of [onImageUpdate]
    reads. *)
Record Updates : Type := mkUpdates {
  upd_lastPreset : option string;
  upd_lastFormat : option Store.Format
}.

(** [a || b] on an optional string: the empty string and [undefined] are
    falsy. *)
Definition or_string (a b : option string) : option string :=
  match a with
  | Some s => if decide (s = "") then b else a
  | None => b
  end.

(** [a || b] on an optional format tag; both tags are truthy. *)
Definition or_format (a b : option Store.Format) : option Store.Format :=
  match a with
  | Some _ => a
  | None => b
  end.

(** [images.find(img => img.id === id)] *)
Definition find_image (key : N) (images : list ImageFile) : option ImageFile :=
  head (filter (λ img, id img = key) images).

(** The store write of [onImageUpdate(id, updates)]; [images] is the list
    of the render in which the handler was made, [now] the value of
    [new Date()] in [saveImage]. *)
Definition onImageUpdate (key : N) (updates : Updates) (images : list ImageFile)
    (now : Z) (db : Store.DB) : Store.DB :=
  match find_image key images with
  | Some updatedImage =>
      (Store.saveImage
         (Store.mkSaveArgs (file updatedImage) (processedFile updatedImage)
            (or_string (upd_lastPreset updates) (lastPreset updatedImage))
            (or_format (upd_lastFormat updates) (lastFormat updatedImage)))
         now db).2
  | None => db
  end.

(** The file [handleSampleImageClick] hands to [onDrop]: the fetched blob
    under a fixed name. *)
Definition sampleFile (blob : File.t) (lastModified : Z) : File.t :=
  File.mk "sample-image.jpg" "image/jpeg" lastModified (File.size blob) (File.payload blob).

End AppState.

(* ===================================================================== *)
(** * The settings dialog ([src/components/SettingsModal.tsx]) *)
(* ===================================================================== *)

Module Settings.

(** [handleClearCache], when the store does not fail: the store after
    [clearAllImages] and the value given to [setStorageInfo]. *)
Definition handleClearCache (db : Store.DB) : Store.DB * Store.StorageInfo :=
  (Store.clearAllImages db,
   {| Store.count := 0; Store.totalSize := 0; Store.formattedSize := "0 Bytes" |}).

(** [handleCleanupOld], when the store does not fail: the number shown in
    the alert, the store after the sweep, and the value [loadStorageInfo]
    gives to [setStorageInfo]. *)
Definition handleCleanupOld (tz : Store.TimeZone) (now : Z) (db : Store.DB)
    : nat * Store.DB * Store.StorageInfo :=
  let '(deletedCount, db') := Store.cleanupOldImages tz 30 now db in
  (deletedCount, db', Store.getStorageInfo db').

End Settings.

(* ===================================================================== *)
(** * The camera dialog ([src/components/CameraPreview.tsx]) *)
(* ===================================================================== *)

Module Camera.

Inductive CaptureResult : Type :=
| NotReady                      (* a ref or the 2d context is missing *)
| Captured (file : File.t)      (* [onCapture(file)] *)
| Failed (error : string).      (* [setError(...)] *)

(** [handleCapture]: [ready] says that both refs and the 2d context are
    there, [videoWidth] and [videoHeight] are the size of the video
    frame, [now] is the value of [Date.now()] for the file name (an
    integer of milliseconds, printed in decimal); a blob
    that does not arrive (a [null] blob or the timeout) is the encoder's
    [None]. *)
Definition handleCapture (env : App.Browser) (ready : bool) (frame : File.t)
    (videoWidth videoHeight : Z) (now : N) (lastModified : Z) : CaptureResult :=
  if negb ready then NotReady
  else
    match App.toBlob env frame videoWidth videoHeight "image/jpeg" (9 # 10) with
    | Some (size, payload) =>
        let fileName := "camera-capture-" +:+ Store.string_of_N now +:+ ".jpg" in
        Captured (File.mk fileName "image/jpeg" lastModified size payload)
    | None => Failed "Failed to capture photo. Please try again."
    end.

Inductive FacingMode : Type := user | environment.

(** [switchCamera] *)
Definition switchCamera (prev : FacingMode) : FacingMode :=
  match prev with
  | user => environment
  | environment => user
  end.

End Camera.

(* ===================================================================== *)
(** * The rest of the edit dialog *)
(* ===================================================================== *)

Module EditorUI.
Import JS Editor.

(** The two pieces of state that [handlePresetChange] writes and
    [applyChanges] reads. *)
Record PresetState (A : Type) : Type := mkPresetState {
  selectedPreset : string;
  cropArea : option (Rect.t A)
}.
Arguments mkPresetState {A} _ _.
Arguments selectedPreset {A} _.
Arguments cropArea {A} _.

(** The preset for which [handlePresetChange] computes a crop area:
    [preset && preset.id !== 'none' && image.processedFile]. *)
Definition crop_branch (presetId : string) (hasProcessed : bool)
    : option PhotoPreset.t :=
  match find_preset presetId with
  | Some preset =>
      if bool_decide (PhotoPreset.id preset ≠ "none") && hasProcessed
      then Some preset else None
  | None => None
  end.

(** [handlePresetChange(presetId)] up to its first [await]:
    [setSelectedPreset] has run, and so has [setCropArea(null)] when no
    crop area is to be computed.  Otherwise the crop area is still the
    old one while the picture loads and the face is looked for; the
    component renders, and [applyChanges] runs, in that state. *)
Definition handlePresetChange_begin {A} (presetId : string) (hasProcessed : bool)
    (s : PresetState A) : PresetState A :=
  match crop_branch presetId hasProcessed with
  | Some _ => mkPresetState presetId (cropArea s)
  | None => mkPresetState presetId None
  end.

(** [handlePresetChange(presetId)] from its last [await] on:
    [setCropArea(cropArea)], for the preset the call was made with.  The
    picture is the processed file, [img_width] by [img_height]; [s] is
    the state at that time. *)
Definition handlePresetChange_resume `{Number A} (presetId : string)
    (hasProcessed : bool) (img_width img_height : Z) (face : option (Rect.t A))
    (s : PresetState A) : PresetState A :=
  match crop_branch presetId hasProcessed with
  | Some preset =>
      mkPresetState (selectedPreset s)
        (calculateCropArea img_width img_height preset face)
  | None => s
  end.

(** The size [applyChanges] gives the canvas. *)
Definition canvas_size {A} (s : PresetState A) (img_width img_height : Z) : Z * Z :=
  match find_preset (selectedPreset s), cropArea s with
  | Some preset, Some _ =>
      if decide (PhotoPreset.id preset ≠ "none")
      then (PhotoPreset.width preset, PhotoPreset.height preset)
      else (img_width, img_height)
  | _, _ => (img_width, img_height)
  end.

(** The effect sliders. *)
Record EffectState : Type := mkEffectState {
  selectedEffect : string;
  blurValue : Z;
  brightnessValue : Z;
  contrastValue : Z
}.

(** [getCurrentEffectValue] *)
Definition getCurrentEffectValue (s : EffectState) : Z :=
  if decide (selectedEffect s = "blur") then blurValue s
  else if decide (selectedEffect s = "brightness") then brightnessValue s
  else if decide (selectedEffect s = "contrast") then contrastValue s
  else 50%Z.

(** [handleEffectValueChange(value)] *)
Definition handleEffectValueChange (value : Z) (s : EffectState) : EffectState :=
  if decide (selectedEffect s = "blur")
  then mkEffectState (selectedEffect s) value (brightnessValue s) (contrastValue s)
  else if decide (selectedEffect s = "brightness")
  then mkEffectState (selectedEffect s) (blurValue s) value (contrastValue s)
  else if decide (selectedEffect s = "contrast")
  then mkEffectState (selectedEffect s) (blurValue s) (brightnessValue s) value
  else s.

(** *** Strings: [toLowerCase] and [replace(/\s+/g, '-')], on the ASCII
    range (the labels of the catalog are ASCII). *)

Definition lower_char (c : Ascii.ascii) : Ascii.ascii :=
  let n := Ascii.nat_of_ascii c in
  if (65 <=? n) && (n <=? 90) then Ascii.ascii_of_nat (n + 32) else c.

Fixpoint toLowerCase (s : string) : string :=
  match s with
  | EmptyString => EmptyString
  | String c s => String (lower_char c) (toLowerCase s)
  end.

(** The ASCII characters that [\s] matches: tab, line feed, vertical tab,
    form feed, carriage return and space. *)
Definition is_space (c : Ascii.ascii) : bool :=
  let n := Ascii.nat_of_ascii c in
  ((9 <=? n) && (n <=? 13)) || (n =? 32).

(** [s.replace(/\s+/g, '-')]; [in_run] says that the character before was
    whitespace. *)
Fixpoint replace_spaces (in_run : bool) (s : string) : string :=
  match s with
  | EmptyString => EmptyString
  | String c s =>
      if is_space c
      then if in_run then replace_spaces true s
           else "-" +:+ replace_spaces true s
      else String c (replace_spaces false s)
  end.

(** [fileExtension] of [handleDownload] *)
Definition fileExtension (selectedPreset : string) : string :=
  match find_preset selectedPreset with
  | Some preset =>
      match PhotoPreset.format preset with
      | Store.jpeg => "jpg"
      | Store.png => "png"
      end
  | None => "png"
  end.

(** [filename] of [handleDownload]; [image_id] is [image.id], an integer
    below [2^53], which a template literal prints in decimal. *)
Definition download_filename (selectedPreset : string) (image_id : N) : string :=
  let fileExtension := fileExtension selectedPreset in
  match find_preset selectedPreset with
  | Some preset =>
      if decide (PhotoPreset.id preset ≠ "none")
      then replace_spaces false (toLowerCase (PhotoPreset.label preset))
             +:+ "-" +:+ Store.string_of_N image_id +:+ "." +:+ fileExtension
      else "processed-" +:+ Store.string_of_N image_id +:+ "." +:+ fileExtension
  | None => "processed-" +:+ Store.string_of_N image_id +:+ "." +:+ fileExtension
  end.

(** [handleSave]: the preset and the format handed to [onSave]. *)
Definition handleSave (selectedPreset : string) : string * Store.Format :=
  (selectedPreset,
   match find_preset selectedPreset with
   | Some preset => PhotoPreset.format preset
   | None => Store.png
   end).

End EditorUI.

(* ===================================================================== *)
(** * Specification vocabulary *)
(* ===================================================================== *)

Module StoreSpec.
Import Store.

(** The row that [saveImage] leaves under a name that is already stored:
    every property other than the key and [createdAt] is the call's. *)
Definition overwritten (a : SaveArgs) (now : Z) (r : StoredImage) : StoredImage :=
  {| id := id r;
     originalFile := arg_originalFile a;
     processedFile := arg_processedFile a;
     fileName := File.name (arg_originalFile a);
     lastPreset := arg_lastPreset a;
     lastFormat := arg_lastFormat a;
     createdAt := createdAt r;
     updatedAt := now |}.

(** The bytes held by one row, and by a table. *)
Definition record_bytes (r : StoredImage) : N :=
  (File.size (originalFile r) + from_option File.size 0 (processedFile r))%N.

Definition total_bytes (l : list StoredImage) : N :=
  foldr (λ r acc, (record_bytes r + acc)%N) 0%N l.

(** The instant [days] calendar days before [now] at the same local
    wall-clock time. *)
Definition calendar_cutoff (tz : TimeZone) (days now : Z) : Z :=
  UTC tz (LocalTime tz now - days * msPerDay).

(** A time zone without transitions, [tza] milliseconds ahead of UTC. *)
Definition fixed_zone (tza : Z) : TimeZone := mkTimeZone (λ _, tza) (λ _, tza).

(** All offsets of the zone lie between [lo] and [hi]. *)
Definition offsets_within (tz : TimeZone) (lo hi : Z) : Prop :=
  ∀ t, (lo ≤ offset_at_utc tz t ≤ hi)%Z ∧ (lo ≤ offset_at_local tz t ≤ hi)%Z.

End StoreSpec.

Module CropSpec.
Import JS.
Local Open Scope Q_scope.

(** [Math.max(0, Math.min(hi, v))] *)
Definition clamp (hi v : Q) : Q := max 0 (min hi v).

(** [r] is [v] clamped to the interval from [lo] to [hi]. *)
Definition clamped_to (lo hi v r : Q) : Prop :=
  (lo <= r ∧ r <= hi)
  ∧ (lo <= v ∧ v <= hi → r == v)
  ∧ (v < lo → r == lo)
  ∧ (hi < v → r == hi).

(** The rectangle lies within a [W] by [H] picture. *)
Definition inside_source (W H : Z) (crop : Rect.t Q) : Prop :=
  0 <= Rect.x crop ∧ 0 <= Rect.y crop
  ∧ Rect.x crop + Rect.width crop <= inject_Z W
  ∧ Rect.y crop + Rect.height crop <= inject_Z H.

(** The same facts tested under IEEE arithmetic, with the comparisons and
    the sums of the floats themselves; the ratio is allowed a relative
    error of [1e-15]. *)
Definition inside_ieee (W H : Z) (crop : Rect.t float) : bool :=
  PrimFloat.leb 0 (Rect.x crop) && PrimFloat.leb 0 (Rect.y crop)
  && PrimFloat.leb (Rect.x crop + Rect.width crop) (of_Z W)
  && PrimFloat.leb (Rect.y crop + Rect.height crop) (of_Z H).

Definition ratio_close (preset : PhotoPreset.t) (crop : Rect.t float) : bool :=
  let target := (of_Z (PhotoPreset.width preset) / of_Z (PhotoPreset.height preset))%float in
  PrimFloat.leb (PrimFloat.abs (Rect.width crop / Rect.height crop - target))
                (1e-15 * target).

Definition crop_check (preset : PhotoPreset.t) (W H : Z) : bool :=
  if (W =? 0)%Z || (H =? 0)%Z then true
  else match Editor.calculateCropArea (A:=float) W H preset None with
       | Some crop => inside_ieee W H crop && ratio_close preset crop
       | None => false
       end.

End CropSpec.

Module EncoderSpec.
Import JS Editor.

(** The quality of the attempt number [k], counting from zero. *)
Definition quality_at `{Number A} (k : nat) : A :=
  Nat.iter k (λ q, sub q (lit 1 10)) (lit 9 10).

(** The state of the quality loop after [k] passes through its body. *)
Definition state_at `{Number A} (toDataURL : string → option A → string)
    (k : nat) : EncodeState :=
  {| quality := quality_at k;
     dataUrl := toDataURL "image/jpeg" (Some (quality_at k));
     attempts := Z.of_nat k;
     encoded_at := rev (map quality_at (seq 0 (S k))) |}.

End EncoderSpec.

Module EffectSpec.
Import JS Editor.
Local Open Scope Q_scope.

Definition range (n : nat) : list Z := map Z.of_nat (seq 0 n).

(** The integer [v] is within one half of [x]. *)
Definition near (v : Z) (x : Q) : Prop := Qabs (inject_Z v - x) <= 1 # 2.

(** The exact value the brightness effect aims at: the channel times
    [intensity / 50], at most 255. *)
Definition exact_brightness (intensity c : Z) : Q :=
  Qmin 255 (inject_Z c * (inject_Z intensity / 50)).

Definition exact_contrast_factor (intensity : Z) : Q :=
  259 * (inject_Z intensity + 255) / (255 * (259 - inject_Z intensity)).

(** The exact value the contrast effect aims at, kept within 0 and 255. *)
Definition exact_contrast (intensity c : Z) : Q :=
  Qmax 0 (Qmin 255 (exact_contrast_factor intensity * (inject_Z c - 128) + 128)).

(** The facts about one intensity and one channel value under IEEE
    arithmetic, as a test that can be run over all of them. *)
Definition channel_check (intensity c : Z) : bool :=
  let vb := brightness_channel (A:=float) intensity c in
  let vc := contrast_channel (A:=float) intensity c in
  (0 <=? vb)%Z && (vb <=? 255)%Z
  && Qle_bool (Qabs (inject_Z vb - exact_brightness intensity c)) (1 # 2)
  && (if (intensity =? 50)%Z then (vb =? c)%Z else true)
  && (if (intensity =? 100)%Z then (vb =? Z.min 255 (2 * c))%Z else true)
  && (0 <=? vc)%Z && (vc <=? 255)%Z
  && Qle_bool (Qabs (inject_Z vc - exact_contrast intensity c)) (1 # 2)
  && (vc =? contrast_channel (A:=Q) intensity c)%Z.

End EffectSpec.

Module UploadSpec.

(** The canvas size for a picture of natural size [w] by [h] and the
    default [maxHeight] of 512, in exact arithmetic. *)
Definition target_size (w h : Z) : Z * Z :=
  if (h >? 512)%Z
  then (Qfloor (512 * (inject_Z w / inject_Z h) + (1 # 2))%Q, 512%Z)
  else (w, h).

End UploadSpec.

(** Concrete inputs on which the theorems below are exercised. *)
Module Examples.
Import Store.

Definition photo : File.t :=
  File.mk "a.jpg" "image/jpeg" 0 500 (Received (Some (800, 600)%Z)).

Definition cutout : File.t :=
  File.mk "a.jpg" "image/png" 0 300 (Received (Some (800, 600)%Z)).

(** A first save with every optional argument, then the state it leaves. *)
Definition first_save : SaveArgs :=
  mkSaveArgs photo (Some cutout) (Some "linkedin") (Some jpeg).

Definition stored_db : DB := (saveImage first_save 1000 empty).2.

Definition stored_row : StoredImage :=
  mkStoredImage 1 photo (Some cutout) "a.jpg" (Some "linkedin") (Some jpeg) 1000 1000.

(** A later save under the same name that passes the file alone. *)
Definition resave : SaveArgs := mkSaveArgs photo None None None.

(** One record of one tebibyte. *)
Definition huge_file : File.t :=
  File.mk "scan.png" "image/png" 0 (2 ^ 40) (Received (Some (400, 300)%Z)).

Definition huge_db : DB :=
  (saveImage (mkSaveArgs huge_file None None None) 1000 empty).2.

(** America/New_York around its change to daylight saving time of
    10 March 2024, 07:00 UTC: five hours behind UTC before it, four
    hours after; the local times from 02:00 to 03:00 of that day are
    skipped and take the earlier offset.  The zone's other transitions
    lie outside the times used here. *)
Definition new_york : TimeZone :=
  mkTimeZone
    (λ t, if (t <? 1710054000000)%Z then (-18000000)%Z else (-14400000)%Z)
    (λ t, if (t <? 1710054000000 - 14400000)%Z then (-18000000)%Z else (-14400000)%Z).

(** 20 March 2024, 12:00 UTC: 08:00 in New York. *)
Definition spring_noon : Z := 1710936000000.

(** One row, last written 30 days less half an hour before
    [spring_noon]. *)
Definition recent_db : DB :=
  (saveImage resave (spring_noon - 30 * msPerDay + 1800000) empty).2.

(** Two rows, the first last written forty days before day 100. *)
Definition aged_db : DB :=
  run_saves [(mkSaveArgs photo None None None, 60 * msPerDay)%Z;
             (mkSaveArgs huge_file None None None, 99 * msPerDay)%Z] empty.

(** An encoder that returns 2048 characters whatever the quality. *)
Definition bulky_encoder (mime : string) (quality : option float) : string :=
  String.concat "" (repeat "AAAAAAAAAAAAAAAA" 128).

Definition china_visa : PhotoPreset.t :=
  PhotoPreset.mk "china-visa" "China Visa" 420 560 191 251 jpeg (Some 120%Z)
    "420×560px, JPEG, 40-120KB, head 191-251px wide".

Definition linkedin : PhotoPreset.t :=
  PhotoPreset.mk "linkedin" "LinkedIn Profile" 400 400 200 320 jpeg None
    "400×400px, square format for social media".

Definition face_box : Rect.t Q := (Rect.mk 400 100 100 120)%Q.

Definition browser : App.Browser :=
  App.mkBrowser true
    (λ type, bool_decide (type ∈ ["image/png"; "image/jpeg"; "image/webp"]))
    (λ type, bool_decide (type ∈ ["image/jpeg"; "image/webp"]))
    (λ _ w h _ _, Some (Z.to_N (w * h))) true (λ _, Some None).

(** A GIF picture, 800 by 1024. *)
Definition animation : File.t :=
  File.mk "anim.gif" "image/gif" 0 200000 (Received (Some (800, 1024)%Z)).

Definition tall_upload : File.t :=
  File.mk "tall.png" "image/png" 0 90000 (Received (Some (800, 1024)%Z)).

End Examples.

(** The operations of [imageStorage] that change the store, as a
    vocabulary for sequences of calls that run to their end one after
    the other.  Calls that overlap are events of [Async]; [uninterrupted]
    below reads a sequence of operations as such events. *)
Module StoreOps.
Import Store.

Inductive Op : Type :=
| Save (a : SaveArgs) (now : Z)
| Delete (key : N)
| Clear
| Cleanup (tz : TimeZone) (daysToKeep now : Z).

Definition step (db : DB) (op : Op) : DB :=
  match op with
  | Save a now => (saveImage a now db).2
  | Delete key => deleteImage key db
  | Clear => clearAllImages db
  | Cleanup tz daysToKeep now => (cleanupOldImages tz daysToKeep now db).2
  end.

Definition run_ops (ops : list Op) (db : DB) : DB := foldl step db ops.

(** The same operations as events of [Async], every call that queries
    and then writes resuming before anything else runs.  [made] is the number of calls
    made before. *)
Fixpoint uninterrupted (made : nat) (ops : list Op) : list Async.Event :=
  match ops with
  | [] => []
  | Save a now :: rest =>
      Async.Call a now :: Async.Resume made :: uninterrupted (S made) rest
  | Delete key :: rest => Async.DeleteImage key :: uninterrupted made rest
  | Clear :: rest => Async.ClearAllImages :: uninterrupted made rest
  | Cleanup tz daysToKeep now :: rest =>
      Async.Sweep tz daysToKeep now :: Async.Resume made :: uninterrupted (S made) rest
  end.

(** The bytes a [saveImage] call brings. *)
Definition args_bytes (a : SaveArgs) : N :=
  (File.size (arg_originalFile a)
   + from_option File.size 0 (arg_processedFile a))%N.

End StoreOps.

(** Vocabulary for the image list of the App component. *)
Module AppSpec.

(** What the store keeps of a file: its MIME type, size and content. *)
Definition blob_of (f : File.t) : string * N * Payload :=
  (File.type f, File.size f, File.payload f).

End AppSpec.

(** Vocabulary for the edit dialog. *)
Module EditorSpec.
Import JS Editor EditorUI EffectSpec.

(** A character of the string is ASCII whitespace. *)
Fixpoint has_space (s : string) : bool :=
  match s with
  | EmptyString => false
  | String c s => is_space c || has_space s
  end.

(** The MIME type that goes with a format tag. *)
Definition mime_of (format : Store.Format) : string :=
  match format with
  | Store.jpeg => "image/jpeg"
  | Store.png => "image/png"
  end.

Fixpoint nondecreasing (l : list Z) : bool :=
  match l with
  | a :: rest =>
      match rest with
      | b :: _ => (a <=? b)%Z
      | [] => true
      end && nondecreasing rest
  | [] => true
  end.

(** [p c v1 v2] for every channel value [c], with [v1] and [v2] the
    entries of two rows at [c]. *)
Fixpoint columns_ok (p : Z → Z → Z → bool) (cs r1 r2 : list Z) : bool :=
  match cs, r1, r2 with
  | c :: cs, v1 :: r1, v2 :: r2 => p c v1 v2 && columns_ok p cs r1 r2
  | _, _, _ => true
  end.

(** A table of results, one row for each slider value: every row is
    nondecreasing and stands in the relation [p] to the row of the next
    slider value (the last row to itself).  [cs] are the channel values
    the rows run over. *)
Fixpoint rows_ok (p : Z → Z → Z → Z → bool) (cs : list Z) (rows : list (Z * list Z))
    : bool :=
  match rows with
  | [] => true
  | (intensity, r1) :: rest =>
      nondecreasing r1
      && columns_ok (p intensity) cs r1
           (match rest with
            | (_, r2) :: _ => r2
            | [] => r1
            end)
      && rows_ok p cs rest
  end.

(** What is tested of the brightness of channel value [c] at a slider
    value, [v], and at the next slider value, [v']. *)
Definition brightness_rule (intensity c v v' : Z) : bool :=
  (v <=? v')%Z
  && (if (intensity <=? 50)%Z then (v <=? c)%Z else true)
  && (if (50 <=? intensity)%Z then (c <=? v)%Z else true)
  && (if (intensity =? 0)%Z then (v =? 0)%Z else true).

(** The same for the contrast. *)
Definition contrast_rule (intensity c v v' : Z) : bool :=
  (if (128 <=? c)%Z then (c <=? v)%Z && (v <=? v')%Z else (v' <=? v)%Z && (v <=? c)%Z)
  && (if (intensity =? 0)%Z then (v =? c)%Z else true)
  && (if (c =? 128)%Z then (v =? 128)%Z else true).

End EditorSpec.
(* ===================================================================== *)
(** * Theorems *)
(* ===================================================================== *)

(** An order between zero and an integer read as a rational. *)
Ltac inject_order :=
  change 0%Q with (inject_Z 0); rewrite <- ?Zlt_Qlt, <- ?Zle_Qle; lia.

Module StoreFacts.
Import Store Async StoreSpec Examples.

Lemma StronglySorted_lt_NoDup (l : list N) : StronglySorted N.lt l → NoDup l.
Proof.
  induction 1 as [|k l Hs IH Hall]; constructor; [|done].
  intros Hin. rewrite Forall_forall in Hall. specialize (Hall _ Hin). lia.
Qed.

Lemma keys_wf_NoDup db : keys_wf db → NoDup (id <$> images db).
Proof. intros [Hs _]. by apply StronglySorted_lt_NoDup. Qed.

Lemma keys_wf_empty : keys_wf empty.
Proof. split; constructor. Qed.

Lemma names_unique_empty : names_unique empty.
Proof. constructor. Qed.

Lemma filter_none {A} (P : A → Prop) `{∀ x, Decision (P x)} (l : list A) :
  Forall (λ x, ¬ P x) l → filter P l = [].
Proof.
  induction 1 as [|x l Hx _ IH]; [done|]. by rewrite filter_cons_False.
Qed.

(** A row found under a file name splits the table around itself; with
    distinct keys and distinct names no other row shares its key or its
    name. *)
Lemma filter_fileName_split (l : list StoredImage) n r rest :
  NoDup (id <$> l) → NoDup (fileName <$> l) →
  filter (λ x, fileName x = n) l = r :: rest →
  rest = [] ∧ fileName r = n ∧
  ∃ l1 l2, l = l1 ++ r :: l2
           ∧ Forall (λ x, fileName x ≠ n ∧ id x ≠ id r) (l1 ++ l2).
Proof.
  induction l as [|x l IH]; [done|]. csimpl.
  intros [Hk1 Hk2]%NoDup_cons [Hn1 Hn2]%NoDup_cons.
  rewrite filter_cons. destruct (decide (fileName x = n)) as [Hx|Hx].
  - intros [= -> <-].
    assert (Hno : Forall (λ y, fileName y ≠ n ∧ id y ≠ id r) l).
    { apply Forall_forall. intros y Hy. split.
      - intros Hy'. apply Hn1. rewrite Hx, <- Hy'. by apply list_elem_of_fmap_2.
      - intros Hy'. apply Hk1. rewrite <- Hy'. by apply list_elem_of_fmap_2. }
    split; [|split; [done|]].
    + apply filter_none. eapply Forall_impl; [exact Hno|]. by intros y [? _].
    + by exists [], l.
  - intros Hf. destruct (IH Hk2 Hn2 Hf) as (-> & Hr & l1 & l2 & -> & Hall).
    split; [done|]. split; [done|]. exists (x :: l1), l2. split; [done|].
    simpl. constructor; [|done]. split; [done|].
    intros Hid. apply Hk1. rewrite Hid. apply list_elem_of_fmap_2.
    apply elem_of_app. right. by left.
Qed.

Lemma update_images_split key changes l1 r l2 next :
  id r = key → Forall (λ x, id x ≠ key) (l1 ++ l2) →
  images (update key changes (mkDB (l1 ++ r :: l2) next))
  = l1 ++ changes key :: l2.
Proof.
  intros Hr [H1 H2]%Forall_app. unfold update. simpl.
  assert (Hsame : ∀ l, Forall (λ x, id x ≠ key) l →
            map (λ r, if decide (id r = key) then changes (id r) else r) l = l).
  { induction 1 as [|x l Hx _ IH]; [done|]. simpl. rewrite IH.
    by destruct (decide (id x = key)). }
  rewrite map_app. simpl. rewrite !Hsame by done.
  destruct (decide (id r = key)); [by rewrite Hr|done].
Qed.

(** [get] after [update], with no assumption on the table. *)
Lemma get_update_same key changes db :
  (∀ k, id (changes k) = k) →
  key ∈ id <$> images db →
  get key (update key changes db) = Some (changes key).
Proof.
  intros Hc. unfold get, update. simpl.
  induction (images db) as [|x l IH]; csimpl; [by intros ?%elem_of_nil|].
  intros Hin. destruct (decide (id x = key)) as [Hx|Hx].
  - rewrite filter_cons_True by (by rewrite Hc). by rewrite Hx.
  - rewrite filter_cons_False by done. apply IH.
    apply elem_of_cons in Hin as [Hin|Hin]; [congruence|done].
Qed.

Lemma get_update_other key key' changes db :
  (∀ k, id (changes k) = k) →
  key' ≠ key →
  get key' (update key changes db) = get key' db.
Proof.
  intros Hc Hne. unfold get, update. simpl. f_equal.
  induction (images db) as [|x l IH]; [done|]. simpl.
  rewrite !filter_cons, IH.
  destruct (decide (id x = key)) as [Hx|Hx]; [|done].
  rewrite Hc. rewrite Hx.
  destruct (decide (key = key')); [congruence|done].
Qed.

Lemma imageData_id a ex now k : id (imageData a ex now k) = k.
Proof. done. Qed.

(** C1 (as amended): a save whose name matches a stored row returns that
    row's key and leaves under it a row whose original file, processed
    file, preset and format are exactly the arguments of the call (an
    argument that was not supplied leaves the property absent), whose
    [createdAt] is the old one and whose [updatedAt] is the time of the
    call; rows under other keys are as before. *)
Theorem saveImage_existing_overwrites (a : SaveArgs) (now : Z) (db : DB)
    (r : StoredImage) (rest : list StoredImage) :
  where_fileName_equals (File.name (arg_originalFile a)) db = r :: rest →
  (saveImage a now db).1 = id r
  ∧ get (id r) (saveImage a now db).2 = Some (overwritten a now r)
  ∧ (∀ key, key ≠ id r →
       get key (saveImage a now db).2 = get key db)
  ∧ length (images (saveImage a now db).2) = length (images db).
Proof.
  intros Hw. unfold saveImage. rewrite Hw. simpl.
  split; [done|]. split; [|split].
  - rewrite get_update_same; [done|apply imageData_id|].
    apply list_elem_of_fmap_2.
    assert (r ∈ where_fileName_equals (File.name (arg_originalFile a)) db) as Hin
      by (rewrite Hw; left).
    unfold where_fileName_equals in Hin. by apply list_elem_of_filter in Hin as [_ ?].
  - intros key Hkey. apply get_update_other; [apply imageData_id|done].
  - by rewrite length_map.
Qed.

Lemma StronglySorted_snoc (l : list N) (k : N) :
  StronglySorted N.lt l → Forall (λ x, (x < k)%N) l → StronglySorted N.lt (l ++ [k]).
Proof.
  intros Hl Hk. apply StronglySorted_app. split; [|split; [done|]].
  - intros x y Hx ->%list_elem_of_singleton. rewrite Forall_forall in Hk. by apply Hk.
  - repeat constructor.
Qed.

(** What one [saveImage] call does to a table with distinct keys and
    distinct names. *)
Lemma saveImage_step (a : SaveArgs) (now : Z) (db : DB) :
  keys_wf db → names_unique db →
  let n := File.name (arg_originalFile a) in
  let db' := (saveImage a now db).2 in
  keys_wf db' ∧ names_unique db'
  ∧ ∃ row, where_fileName_equals n db' = [row]
      ∧ (saveImage a now db).1 = id row
      ∧ match where_fileName_equals n db with
        | r :: _ => row = overwritten a now r
                    ∧ length (images db') = length (images db)
        | [] => createdAt row = now ∧ id row = nextId db
                ∧ length (images db') = S (length (images db))
        end.
Proof.
  intros Hk Hn n db'. subst db'. unfold saveImage. fold n.
  destruct (where_fileName_equals n db) as [|r rest] eqn:Hw.
  - (* no row of that name: add *)
    pose proof Hk as [Hs Hb]. unfold add. simpl.
    assert (Hnone : Forall (λ x, fileName x ≠ n) (images db)).
    { apply Forall_forall. intros x Hx Hname.
      eapply (filter_nil_not_elem_of _ _ x Hw); done. }
    split; [|split].
    + split; simpl.
      * rewrite fmap_app. apply StronglySorted_snoc; [done|].
        apply Forall_fmap. exact Hb.
      * apply Forall_app. split.
        -- eapply Forall_impl; [exact Hb|]. simpl. intros; lia.
        -- repeat constructor. simpl. lia.
    + unfold names_unique in *. simpl. rewrite fmap_app. apply NoDup_app.
      split; [done|]. split; [|repeat constructor; by intros ?%elem_of_nil].
      intros x Hx ->%list_elem_of_singleton. simpl in Hx.
      apply list_elem_of_fmap in Hx as (y & Hy & Hin).
      rewrite Forall_forall in Hnone. apply (Hnone y Hin). symmetry. exact Hy.
    + exists (imageData a [] now (nextId db)). split; [|split; [done|]].
      * unfold where_fileName_equals. simpl. rewrite filter_app.
        unfold where_fileName_equals in Hw. rewrite Hw. simpl.
        by rewrite filter_cons_True.
      * simpl. split; [done|]. split; [done|]. rewrite length_app. simpl. lia.
  - (* a row of that name: update *)
    destruct (filter_fileName_split (images db) n r rest)
      as (-> & Hr & l1 & l2 & Hsplit & Hall); [by apply keys_wf_NoDup|done|done|].
    assert (Himg : images (update (id r) (imageData a [r] now) db)
                   = l1 ++ overwritten a now r :: l2).
    { destruct db as [imgs next]. simpl in Hsplit. subst imgs.
      apply (update_images_split (id r) (imageData a [r] now) l1 r l2 next); [done|].
      eapply Forall_impl; [exact Hall|]. by intros x [_ ?]. }
    cbn [fst snd]. split; [|split].
    + destruct Hk as [Hs Hb]. split.
      * rewrite Himg. rewrite Hsplit in Hs. by rewrite fmap_app, fmap_cons in *.
      * rewrite Himg. simpl. rewrite Hsplit in Hb.
        apply Forall_app in Hb as [Hb1 [Hb2 Hb3]%Forall_cons].
        apply Forall_app. split; [done|]. by constructor.
    + unfold names_unique in *. rewrite Himg. rewrite Hsplit in Hn.
      rewrite fmap_app, fmap_cons in *. simpl. fold n. by rewrite <- Hr.
    + exists (overwritten a now r). split; [|split; [done|]].
      * unfold where_fileName_equals. rewrite Himg.
        apply Forall_app in Hall as [H1 H2].
        rewrite filter_app, filter_cons_True by done.
        rewrite !filter_none; [done| |].
        -- eapply Forall_impl; [exact H2|]. by intros x [? _].
        -- eapply Forall_impl; [exact H1|]. by intros x [? _].
      * split; [done|]. rewrite Himg, Hsplit, !length_app. done.
Qed.

(** Later saves under a name keep the one row of that name, its key and
    its [createdAt]. *)
Lemma run_saves_keeps (n : string) (calls : list (SaveArgs * Z)) :
  ∀ (db : DB) (r : StoredImage),
  keys_wf db → names_unique db →
  Forall (λ c, File.name (arg_originalFile c.1) = n) calls →
  where_fileName_equals n db = [r] →
  keys_wf (run_saves calls db) ∧ names_unique (run_saves calls db)
  ∧ length (images (run_saves calls db)) = length (images db)
  ∧ ∃ r', where_fileName_equals n (run_saves calls db) = [r']
          ∧ id r' = id r ∧ createdAt r' = createdAt r.
Proof.
  induction calls as [|[a now] calls IH]; intros db r Hk Hn Hall Hw.
  - simpl. split; [done|]. split; [done|]. split; [done|]. by exists r.
  - apply Forall_cons in Hall as [Ha Hall]. simpl in Ha.
    destruct (saveImage_step a now db Hk Hn) as (Hk' & Hn' & row & Hrow & _ & Hcase).
    rewrite Ha in Hrow, Hcase. rewrite Hw in Hcase. destruct Hcase as [-> Hlen].
    destruct (IH _ _ Hk' Hn' Hall Hrow) as (? & ? & Hlen' & r' & ? & ? & ?).
    unfold run_saves in *. simpl.
    split; [done|]. split; [done|]. split; [by rewrite Hlen'|]. by exists r'.
Qed.

Lemma fmap_id_map (f : StoredImage → StoredImage) (l : list StoredImage) :
  (∀ x, id (f x) = id x) → id <$> map f l = id <$> l.
Proof.
  intros Hf. induction l as [|x l IH]; [done|]. csimpl. by rewrite Hf, IH.
Qed.

(** The write of a [saveImage] call keeps the keys of the table distinct,
    increasing and below the next key, and never lowers the next key,
    whatever [existing] the query had returned. *)
Lemma saveImage_write_keys (a : SaveArgs) (now : Z) (existing : list StoredImage)
    (db : DB) :
  keys_wf db →
  keys_wf (saveImage_write a now existing db).2
  ∧ (nextId db ≤ nextId (saveImage_write a now existing db).2)%N.
Proof.
  intros [Hs Hb]. unfold saveImage_write. destruct existing as [|r rest]; cbn [snd].
  - unfold add. cbn [snd]. split; [split|]; cbn [images nextId].
    + rewrite fmap_app. apply StronglySorted_snoc; [done|].
      apply Forall_fmap. exact Hb.
    + apply Forall_app. split.
      * eapply Forall_impl; [exact Hb|]. cbn. intros; lia.
      * repeat constructor. cbn. lia.
    + lia.
  - unfold keys_wf, update. cbn [images nextId].
    rewrite (fmap_id_map (λ x, if decide (id x = id r)
                               then imageData a (r :: rest) now (id x) else x))
      by (by intros x; destruct (decide (id x = id r))).
    split; [split|lia]; [done|].
    apply Forall_fmap. eapply Forall_impl; [exact Hb|].
    intros x Hx. cbn. by destruct (decide (id x = id r)).
Qed.

Lemma NoDup_fmap_eq {A B} (f : A → B) (l : list A) x y :
  NoDup (f <$> l) → x ∈ l → y ∈ l → f x = f y → x = y.
Proof.
  induction l as [|z l IH]; csimpl; [by intros _ ?%elem_of_nil|].
  intros [Hz Hl]%NoDup_cons [->|Hx]%elem_of_cons [->|Hy]%elem_of_cons Hf; try done.
  - exfalso. apply Hz. rewrite Hf. by apply list_elem_of_fmap_2.
  - exfalso. apply Hz. rewrite <- Hf. by apply list_elem_of_fmap_2.
  - by apply IH.
Qed.

Lemma filter_ext_elem {A} (P Q : A → Prop) `{∀ x, Decision (P x)}
    `{∀ x, Decision (Q x)} (l : list A) :
  (∀ x, x ∈ l → (P x ↔ Q x)) → filter P l = filter Q l.
Proof.
  induction l as [|z l IH]; [done|]. intros Hext.
  rewrite !filter_cons, IH.
  - destruct (decide (P z)) as [Hp|Hp], (decide (Q z)) as [Hq|Hq]; try done.
    + exfalso. apply Hq, Hext; [by left|done].
    + exfalso. apply Hp, Hext; [by left|done].
  - intros x Hx. apply Hext. by right.
Qed.

Lemma filter_map_elem {A} (P : A → Prop) `{∀ x, Decision (P x)} (f : A → A)
    (l : list A) :
  (∀ x, x ∈ l → (P (f x) ↔ P x)) → filter P (map f l) = map f (filter P l).
Proof.
  induction l as [|z l IH]; [done|]. intros Hext. cbn [map].
  rewrite !filter_cons, IH by (intros x Hx; apply Hext; by right).
  destruct (decide (P (f z))) as [Hp|Hp], (decide (P z)) as [Hq|Hq]; try done.
  - exfalso. apply Hq, Hext; [by left|done].
  - exfalso. apply Hp, Hext; [by left|done].
Qed.

Lemma saveImage_uninterrupted (a : SaveArgs) (now : Z) (db : DB) :
  saveImage a now db
  = saveImage_write a now (where_fileName_equals (File.name (arg_originalFile a)) db) db.
Proof. done. Qed.

(** Calls that do not overlap are calls of [saveImage] run in turn. *)
Lemma run_one_after_the_other (saves : list (SaveArgs * Z)) :
  ∀ s, run (one_after_the_other (length (calls s)) saves) s
       = mkRun (run_saves saves (store s)) (calls s ++ replicate (length saves) None).
Proof.
  induction saves as [|[a now] saves IH]; intros [db made].
  - cbn. by rewrite app_nil_r.
  - cbn [one_after_the_other run foldl step store calls].
    rewrite lookup_app_r by done. rewrite Nat.sub_diag. cbn [lookup list_lookup].
    rewrite insert_app_r_alt by done. rewrite Nat.sub_diag. cbn [insert list_insert].
    rewrite <- saveImage_uninterrupted.
    specialize (IH (mkRun (saveImage a now db).2 (made ++ [None]))).
    cbn [calls store] in IH. rewrite length_app in IH. cbn [length] in IH.
    rewrite Nat.add_1_r in IH. unfold run in IH. rewrite IH.
    unfold run_saves. cbn [foldl fst snd length replicate].
    by rewrite <- app_assoc.
Qed.

(** One uninterrupted save into a table with distinct keys that holds at
    most one row under the name of the file: afterwards it holds exactly
    one, with the key and the [createdAt] of the old row if there was
    one. *)
Lemma save_under_name (a : SaveArgs) (now : Z) (db : DB) :
  keys_wf db →
  let n := File.name (arg_originalFile a) in
  length (where_fileName_equals n db) ≤ 1 →
  keys_wf (saveImage a now db).2
  ∧ ∃ row, where_fileName_equals n (saveImage a now db).2 = [row]
      ∧ match where_fileName_equals n db with
        | r :: _ => createdAt row = createdAt r ∧ id row = id r
        | [] => createdAt row = now
        end.
Proof.
  intros Hk n Hone.
  split; [rewrite saveImage_uninterrupted; by apply saveImage_write_keys|].
  unfold saveImage. fold n.
  destruct (where_fileName_equals n db) as [|r rest] eqn:Hw.
  - exists (imageData a [] now (nextId db)). split; [|done].
    unfold where_fileName_equals in *. cbn [add snd images].
    rewrite filter_app, Hw. by rewrite filter_cons_True.
  - destruct rest as [|r' rest]; [|cbn in Hone; lia].
    exists (imageData a [r] now (id r)). split; [|done].
    unfold where_fileName_equals in *. cbn [update snd images].
    assert (r ∈ filter (λ x, fileName x = n) (images db)) as [Hrn Hr]%list_elem_of_filter
      by (rewrite Hw; left).
    rewrite filter_map_elem.
    + by rewrite Hw; cbn; rewrite decide_True.
    + intros x Hx. destruct (decide (id x = id r)) as [Hid|Hid]; [|done].
      rewrite (NoDup_fmap_eq id (images db) x r (keys_wf_NoDup _ Hk) Hx Hr Hid).
      by split.
Qed.

Lemma same_name_saves_in_turn (n : string) (a : SaveArgs) (now : Z)
    (more : list (SaveArgs * Z)) (db : DB) :
  keys_wf db → length (where_fileName_equals n db) ≤ 1 →
  Forall (λ c, File.name (arg_originalFile c.1) = n) ((a, now) :: more) →
  ∃ first final,
    where_fileName_equals n (run_saves [(a, now)] db) = [first]
    ∧ where_fileName_equals n (run_saves ((a, now) :: more) db) = [final]
    ∧ createdAt final = createdAt first
    ∧ id final = id first
    ∧ (where_fileName_equals n db = [] → createdAt first = now).
Proof.
  intros Hk Hone [Ha Hall]%Forall_cons. cbn in Ha. subst n.
  destruct (save_under_name a now db Hk Hone) as (Hk' & first & Hfirst & Hcase).
  exists first. unfold run_saves. cbn [foldl fst snd].
  assert (∃ final, where_fileName_equals (File.name (arg_originalFile a))
                     (foldl (λ db call, (saveImage call.1 call.2 db).2)
                        (saveImage a now db).2 more) = [final]
                   ∧ createdAt final = createdAt first ∧ id final = id first)
    as (final & Hfinal & Hc & Hi).
  { clear Hcase. revert Hk' first Hfirst.
    generalize (saveImage a now db).2 as db1.
    induction more as [|[a' now'] more IH]; intros db1 Hk1 first Hfirst.
    - by exists first.
    - apply Forall_cons in Hall as [Ha' Hall]. cbn in Ha'. cbn [foldl fst snd].
      destruct (save_under_name a' now' db1 Hk1) as (Hk2 & row & Hrow & Hcase).
      { rewrite Ha', Hfirst. cbn. lia. }
      rewrite Ha' in Hrow, Hcase. rewrite Hfirst in Hcase. destruct Hcase as [Hc Hi].
      destruct (IH Hall _ Hk2 row Hrow) as (final & Hfinal & Hc' & Hi').
      exists final. split; [done|]. split; congruence. }
  exists final. split; [done|]. split; [done|]. split; [done|]. split; [done|].
  intros Hnone. by rewrite Hnone in Hcase.
Qed.

(** C2 (as amended): from a table with distinct keys that holds at most
    one row of a name, any non-empty sequence of saves under that name
    that do not overlap (each call is made when the one before has
    returned) leaves exactly one row of that name; its [createdAt] (and
    its key) is the one the row had after the first save of the sequence,
    which is the time of that save when the name was new. *)
Theorem same_name_saves_one_record (n : string) (a : SaveArgs) (now : Z)
    (more : list (SaveArgs * Z)) (db : DB) :
  keys_wf db → length (where_fileName_equals n db) ≤ 1 →
  Forall (λ c, File.name (arg_originalFile c.1) = n) ((a, now) :: more) →
  let after saves := store (run (one_after_the_other 0 saves) (fresh db)) in
  ∃ first final,
    where_fileName_equals n (after [(a, now)]) = [first]
    ∧ where_fileName_equals n (after ((a, now) :: more)) = [final]
    ∧ createdAt final = createdAt first
    ∧ id final = id first
    ∧ (where_fileName_equals n db = [] → createdAt first = now).
Proof.
  intros Hk Hone Hall after. subst after. cbv beta.
  rewrite !(run_one_after_the_other _ (fresh db)). cbn [store fresh].
  by apply same_name_saves_in_turn.
Qed.

(** The claim of C2 fails for calls that overlap.  Two saves of [a.jpg]
    into the empty store, the second made before the first has written:
    both queries find no row, both calls add, and the store holds two
    rows of that name, with different keys and different [createdAt]. *)
Lemma overlapping_saves_two_records :
  let events := [Call resave 1000; Call resave 2000; Resume 0; Resume 1] in
  File.name (arg_originalFile resave) = "a.jpg"
  ∧ fileName <$> where_fileName_equals "a.jpg" (store (run events (fresh empty)))
    = ["a.jpg"; "a.jpg"]
  ∧ id <$> images (store (run events (fresh empty))) = [1%N; 2%N]
  ∧ createdAt <$> images (store (run events (fresh empty))) = [1000%Z; 2000%Z]
  ∧ length (where_fileName_equals "a.jpg" (store (run events (fresh empty)))) = 2.
Proof. vm_compute. repeat split. Qed.

(** The claim of C1 fails on a concrete input: the stored row has a
    processed file, a preset and a format; after a save under the same
    name that supplies none of them, the row has none of them. *)
Lemma saveImage_drops_unsupplied :
  where_fileName_equals "a.jpg" stored_db = [stored_row]
  ∧ processedFile stored_row = Some cutout
  ∧ lastPreset stored_row = Some "linkedin"
  ∧ lastFormat stored_row = Some jpeg
  ∧ arg_processedFile resave = None
  ∧ arg_lastPreset resave = None
  ∧ arg_lastFormat resave = None
  ∧ processedFile <$> get 1 (saveImage resave 2000 stored_db).2 = Some None
  ∧ lastPreset <$> get 1 (saveImage resave 2000 stored_db).2 = Some None
  ∧ lastFormat <$> get 1 (saveImage resave 2000 stored_db).2 = Some None.
Proof. vm_compute. repeat split. Qed.

Lemma saveImage_existing_overwrites_witness :
  where_fileName_equals (File.name (arg_originalFile resave)) stored_db = [stored_row]
  ∧ (saveImage resave 2000 stored_db).1 = id stored_row
  ∧ get (id stored_row) (saveImage resave 2000 stored_db).2
    = Some (overwritten resave 2000 stored_row).
Proof.
  split; [reflexivity|].
  pose proof (saveImage_existing_overwrites resave 2000 stored_db stored_row []
                eq_refl) as (Hid & Hget & _).
  split; [exact Hid|exact Hget].
Defined.

Lemma same_name_saves_one_record_witness :
  let after saves := store (run (one_after_the_other 0 saves) (fresh empty)) in
  keys_wf empty ∧ length (where_fileName_equals "a.jpg" empty) ≤ 1
  ∧ ∃ first final,
      where_fileName_equals "a.jpg" (after [(first_save, 1000%Z)]) = [first]
      ∧ where_fileName_equals "a.jpg"
          (after [(first_save, 1000%Z); (resave, 2000%Z); (first_save, 3000%Z)])
        = [final]
      ∧ createdAt final = createdAt first
      ∧ id final = id first
      ∧ (where_fileName_equals "a.jpg" empty = [] → createdAt first = 1000%Z).
Proof.
  intros after.
  split; [exact keys_wf_empty|]. split; [cbn; lia|].
  apply (same_name_saves_one_record "a.jpg" first_save 1000
           [(resave, 2000%Z); (first_save, 3000%Z)] empty
           keys_wf_empty ltac:(cbn; lia)).
  repeat constructor.
Defined.

(** The write of a [saveImage] call keeps the keys distinct, increasing
    and below the next key, whatever ran between its query and its
    write.  It keeps the file names distinct when the rows under the
    name of the file are still those its query returned, as they are in
    a call that runs uninterrupted. *)
Theorem saveImage_preserves_invariants (a : SaveArgs) (now : Z)
    (existing : list StoredImage) (db : DB) :
  keys_wf db →
  keys_wf (saveImage_write a now existing db).2
  ∧ (names_unique db →
     existing = where_fileName_equals (File.name (arg_originalFile a)) db →
     names_unique (saveImage_write a now existing db).2
     ∧ saveImage_write a now existing db = saveImage a now db).
Proof.
  intros Hk. split; [by apply saveImage_write_keys|].
  intros Hn ->. rewrite <- saveImage_uninterrupted.
  destruct (saveImage_step a now db Hk Hn) as (_ & ? & _). by split.
Qed.

Lemma saveImage_preserves_invariants_witness :
  keys_wf stored_db
  ∧ keys_wf (saveImage_write resave 2000 [] stored_db).2
  ∧ names_unique (saveImage_write resave 2000 [stored_row] stored_db).2.
Proof.
  assert (Hk : keys_wf stored_db) by (split; vm_compute; repeat constructor).
  assert (Hn : names_unique stored_db).
  { unfold names_unique. vm_compute. repeat constructor. by intros ?%elem_of_nil. }
  split; [exact Hk|].
  split; [exact (proj1 (saveImage_preserves_invariants resave 2000 [] stored_db Hk))|].
  exact (proj1 (proj2 (saveImage_preserves_invariants resave 2000 [stored_row] stored_db Hk)
                 Hn eq_refl)).
Defined.

(** [deleteImage] removes the row under the key and nothing else, and
    deleting again changes nothing. *)
Theorem deleteImage_idempotent (key : N) (db : DB) :
  getImage key (deleteImage key db) = None
  ∧ (∀ key', key' ≠ key → getImage key' (deleteImage key db) = getImage key' db)
  ∧ deleteImage key (deleteImage key db) = deleteImage key db.
Proof.
  unfold getImage, deleteImage, get, delete. simpl. split; [|split].
  - rewrite list_filter_filter. rewrite filter_none; [done|].
    apply Forall_forall. intros x _ [? ?]. done.
  - intros key' Hne. f_equal. rewrite list_filter_filter.
    apply list_filter_iff. intros x. split; [by intros [? _]|]. intros Hx.
    split; [done|]. congruence.
  - f_equal. rewrite list_filter_filter. apply list_filter_iff. tauto.
Qed.

(** The scenario of the store's size accounting: a 500-byte file saved
    under a name gives a total of 500; saving again under the name with a
    300-byte processed file gives one row and a total of 800. *)
Example storage_size_scenario :
  getStorageSize (run_saves [(resave, 1000%Z)] empty) = 500%N
  ∧ length (getImages (run_saves [(resave, 1000%Z); (first_save, 2000%Z)] empty)) = 1
  ∧ getStorageSize (run_saves [(resave, 1000%Z); (first_save, 2000%Z)] empty) = 800%N.
Proof. vm_compute. repeat split. Qed.

End StoreFacts.

Module SweepFacts.
Import Store StoreSpec StoreFacts Examples.

Lemma setDate_getDate_minus_eq tz n t :
  setDate_getDate_minus tz n t = calendar_cutoff tz n t.
Proof.
  unfold setDate_getDate_minus, calendar_cutoff, MakeDate, Day, TimeWithinDay.
  f_equal. set (local := LocalTime tz t). clearbody local.
  pose proof (Z.div_mod local msPerDay) as Hdm. unfold msPerDay in *. lia.
Qed.

Lemma length_filter_split {A} (P : A → Prop) `{∀ x, Decision (P x)} (l : list A) :
  length l = length (filter P l) + length (filter (λ x, ¬ P x) l).
Proof.
  induction l as [|x l IH]; [done|]. rewrite !filter_cons.
  destruct (decide (P x)).
  - rewrite decide_False by tauto. simpl. lia.
  - rewrite decide_True by done. simpl. lia.
Qed.

(** With distinct keys, deleting the keys of the rows selected by [P]
    leaves the rows that [P] rejects. *)
Lemma bulkDelete_selected (P : StoredImage → Prop) `{∀ x, Decision (P x)} db :
  NoDup (id <$> images db) →
  images (bulkDelete (map id (filter P (images db))) db)
  = filter (λ r, ¬ P r) (images db).
Proof.
  intros Hnd. unfold bulkDelete. simpl. apply filter_ext_elem.
  intros x Hx. split.
  - intros Hnot Hp. apply Hnot.
    apply (list_elem_of_fmap_2 id). by apply list_elem_of_filter.
  - intros Hnp Hin. apply Hnp.
    apply list_elem_of_fmap in Hin as (y & Hid & [Hpy Hy]%list_elem_of_filter).
    by rewrite (NoDup_fmap_eq id (images db) x y Hnd Hx Hy Hid).
Qed.

Lemma bulkDelete_nil db : bulkDelete [] db = db.
Proof.
  destruct db as [imgs next]. unfold bulkDelete. simpl. f_equal.
  induction imgs as [|x l IH]; [done|].
  rewrite filter_cons_True by apply not_elem_of_nil. by rewrite IH.
Qed.

(** C7: on a table with distinct keys, [cleanupOldImages] with [d] days
    deletes exactly the rows whose [updatedAt] is strictly before the
    cutoff and no others, returns how many rows it deleted, and run again
    at the same time on the result deletes none and changes nothing.  The
    cutoff is the instant [d] calendar days before [now] at the same
    local wall-clock time; it is [now] less [d] times 24 hours when local
    time has the same offset from UTC at the cutoff as at [now], and
    differs from that by the change of the offset otherwise.  Run again
    at another time, it deletes the rows that lie between the two
    cutoffs. *)
Theorem cleanupOldImages_exact (tz : TimeZone) (daysToKeep now : Z) (db : DB) :
  keys_wf db →
  let cutoff := calendar_cutoff tz daysToKeep now in
  let before := offset_at_local tz (LocalTime tz now - daysToKeep * msPerDay) in
  let swept := cleanupOldImages tz daysToKeep now db in
  images swept.2 = filter (λ r, ¬ (updatedAt r < cutoff)%Z) (images db)
  ∧ (∀ r, r ∈ images swept.2 ↔ r ∈ images db ∧ ¬ (updatedAt r < cutoff)%Z)
  ∧ swept.1 = length (filter (λ r, (updatedAt r < cutoff)%Z) (images db))
  ∧ length (images db) = swept.1 + length (images swept.2)
  ∧ cleanupOldImages tz daysToKeep now swept.2 = (0, swept.2)
  ∧ (∀ later,
       (cleanupOldImages tz daysToKeep later swept.2).1
       = length (filter (λ r, (cutoff ≤ updatedAt r
                               < calendar_cutoff tz daysToKeep later)%Z) (images db)))
  ∧ cutoff = (now - daysToKeep * msPerDay + (offset_at_utc tz now - before))%Z
  ∧ (before = offset_at_utc tz now → cutoff = (now - daysToKeep * msPerDay)%Z).
Proof.
  intros Hk%keys_wf_NoDup cutoff before swept. subst swept.
  unfold cleanupOldImages. rewrite setDate_getDate_minus_eq. fold cutoff.
  unfold where_updatedAt_below. cbn [fst snd].
  pose proof (bulkDelete_selected (λ r, (updatedAt r < cutoff)%Z) db Hk) as Hdel.
  split; [done|]. split; [|split; [|split; [|split; [|split; [|split]]]]].
  - intros r. rewrite Hdel, list_elem_of_filter. tauto.
  - by rewrite length_map.
  - rewrite Hdel, length_map. apply length_filter_split.
  - remember (bulkDelete _ db) as db' eqn:Hdb'. clear Hdb'.
    assert (Hnone : filter (λ r, (updatedAt r < cutoff)%Z) (images db') = []).
    { rewrite Hdel. apply filter_none, Forall_forall.
      by intros x [? _]%list_elem_of_filter. }
    rewrite Hnone. simpl. f_equal. apply bulkDelete_nil.
  - intros later. rewrite setDate_getDate_minus_eq, length_map, Hdel.
    rewrite list_filter_filter. f_equal. apply list_filter_iff. intros r. lia.
  - unfold cutoff, before, calendar_cutoff, UTC, LocalTime. lia.
  - unfold cutoff, before, calendar_cutoff, UTC, LocalTime. lia.
Qed.

(** The claim of C7 fails across a change to daylight saving time.  In
    New York on 20 March 2024 at 12:00 UTC, a row last written 30 days
    less half an hour earlier is not older than [now] less 30 days, and
    the sweep with 30 days deletes it: the cutoff is 08:00 local time of
    19 February, which is 13:00 UTC, an hour later than [now] less 30
    times 24 hours. *)
Lemma cleanupOldImages_daylight_saving :
  updatedAt <$> images recent_db = [(spring_noon - 30 * msPerDay + 1800000)%Z]
  ∧ (spring_noon - 30 * msPerDay <=? spring_noon - 30 * msPerDay + 1800000)%Z = true
  ∧ calendar_cutoff new_york 30 spring_noon = (spring_noon - 30 * msPerDay + 3600000)%Z
  ∧ (cleanupOldImages new_york 30 spring_noon recent_db).1 = 1
  ∧ images (cleanupOldImages new_york 30 spring_noon recent_db).2 = [].
Proof. vm_compute. repeat split. Qed.

Lemma cleanupOldImages_exact_witness :
  keys_wf aged_db
  ∧ (cleanupOldImages new_york 30 spring_noon aged_db).1 = 2
  ∧ (cleanupOldImages (fixed_zone 3600000) 30 (100 * msPerDay) aged_db).1 = 1
  ∧ fileName <$> images (cleanupOldImages (fixed_zone 3600000) 30 (100 * msPerDay)
                           aged_db).2
    = ["scan.png"]
  ∧ cleanupOldImages (fixed_zone 3600000) 30 (100 * msPerDay)
      (cleanupOldImages (fixed_zone 3600000) 30 (100 * msPerDay) aged_db).2
    = (0, (cleanupOldImages (fixed_zone 3600000) 30 (100 * msPerDay) aged_db).2).
Proof.
  assert (Hwf : keys_wf aged_db).
  { split; vm_compute; repeat constructor. }
  split; [exact Hwf|].
  pose proof (cleanupOldImages_exact (fixed_zone 3600000) 30 (100 * msPerDay) aged_db Hwf)
    as (_ & _ & _ & _ & Hagain & _).
  split; [reflexivity|]. split; [reflexivity|]. split; [reflexivity|]. exact Hagain.
Defined.

Lemma fmap_filter_elem {A B} (f : A → B) (P : A → Prop) `{∀ x, Decision (P x)}
    (l : list A) (y : B) :
  y ∈ f <$> filter P l → y ∈ f <$> l.
Proof.
  intros (x & -> & [_ Hx]%list_elem_of_filter)%list_elem_of_fmap.
  by apply list_elem_of_fmap_2.
Qed.

(** Removing rows keeps the keys increasing and bounded and the names
    distinct. *)
Lemma filter_keeps_invariants (P : StoredImage → Prop) `{∀ x, Decision (P x)} db :
  keys_wf db → names_unique db →
  keys_wf (mkDB (filter P (images db)) (nextId db))
  ∧ names_unique (mkDB (filter P (images db)) (nextId db)).
Proof.
  unfold keys_wf, names_unique. simpl. intros [Hs Hb] Hn.
  induction (images db) as [|x l IH]; [done|].
  csimpl in *. apply StronglySorted_cons in Hs as [Hx Hs].
  apply Forall_cons in Hb as [Hbx Hb]. apply NoDup_cons in Hn as [Hnx Hn].
  destruct (IH Hs Hb Hn) as ([IHs IHb] & IHn).
  rewrite filter_cons. destruct (decide (P x)); [|done]. csimpl.
  split; [split|].
  - apply StronglySorted_cons. split; [|done].
    apply Forall_forall. intros y Hy%fmap_filter_elem.
    rewrite Forall_forall in Hx. by apply Hx.
  - by constructor.
  - apply NoDup_cons. split; [|done]. by intros ?%fmap_filter_elem.
Qed.

(** The operations of [imageStorage] that remove rows ([deleteImage],
    [clearAllImages], [cleanupOldImages]) keep the keys increasing and
    below the next key, and keep the file names distinct. *)
Theorem removals_preserve_invariants (db : DB) :
  keys_wf db → names_unique db →
  (∀ key, keys_wf (deleteImage key db) ∧ names_unique (deleteImage key db))
  ∧ (keys_wf (clearAllImages db) ∧ names_unique (clearAllImages db))
  ∧ (∀ tz daysToKeep now,
       keys_wf (cleanupOldImages tz daysToKeep now db).2
       ∧ names_unique (cleanupOldImages tz daysToKeep now db).2).
Proof.
  intros Hk Hn. split; [|split].
  - intros key. by apply filter_keeps_invariants.
  - split; [split|]; constructor.
  - intros tz daysToKeep now. by apply filter_keeps_invariants.
Qed.

Lemma removals_preserve_invariants_witness :
  keys_wf stored_db ∧ names_unique stored_db
  ∧ keys_wf (deleteImage 1 stored_db) ∧ names_unique (deleteImage 1 stored_db).
Proof.
  assert (Hk : keys_wf stored_db) by (split; vm_compute; repeat constructor).
  assert (Hn : names_unique stored_db).
  { unfold names_unique. vm_compute. repeat constructor. by intros ?%elem_of_nil. }
  split; [exact Hk|]. split; [exact Hn|].
  exact (proj1 (removals_preserve_invariants stored_db Hk Hn) 1%N).
Defined.

End SweepFacts.

Module SummaryFacts.
Import Store StoreSpec Examples.

Lemma getStorageSize_total db : getStorageSize db = total_bytes (images db).
Proof.
  unfold getStorageSize, toArray.
  assert (Hgen : ∀ l acc,
    foldl (λ totalSize image,
             let totalSize := (totalSize + File.size (originalFile image))%N in
             match processedFile image with
             | Some p => (totalSize + File.size p)%N
             | None => totalSize
             end) acc l = (acc + total_bytes l)%N).
  { induction l as [|x l IH]; intros acc; simpl; [lia|].
    rewrite IH. unfold total_bytes. simpl. fold (total_bytes l). unfold record_bytes.
    destruct (processedFile x); simpl; lia. }
  rewrite Hgen. lia.
Qed.

Lemma floor_log1024_spec (bytes : N) :
  (0 < bytes)%N →
  (1024 ^ floor_log1024 bytes ≤ bytes < 1024 ^ (floor_log1024 bytes + 1))%N.
Proof.
  intros Hpos. unfold floor_log1024.
  destruct (N.log2_spec bytes Hpos) as [Hlo Hhi].
  pose proof (N.div_mod (N.log2 bytes) 10 ltac:(lia)) as Hdm.
  pose proof (N.mod_lt (N.log2 bytes) 10 ltac:(lia)) as Hm.
  set (i := (N.log2 bytes / 10)%N) in *. clearbody i.
  set (m := (N.log2 bytes mod 10)%N) in *. clearbody m.
  change 1024%N with (2 ^ 10)%N. rewrite <- !N.pow_mul_r. split.
  - etrans; [|exact Hlo]. apply N.pow_le_mono_r; lia.
  - eapply N.lt_le_trans; [exact Hhi|]. apply N.pow_le_mono_r; lia.
Qed.

Lemma floor_log1024_small (bytes : N) :
  (0 < bytes < 1024 ^ 4)%N → (floor_log1024 bytes < 4)%N.
Proof.
  intros [Hpos Hlt]. destruct (floor_log1024_spec bytes Hpos) as [Hlo _].
  destruct (decide (floor_log1024 bytes < 4)%N) as [|Hge]; [done|].
  exfalso. assert (1024 ^ 4 ≤ 1024 ^ floor_log1024 bytes)%N
    by (apply N.pow_le_mono_r; lia). lia.
Qed.

Lemma toFixed2_nearest (x : Q) :
  (0 <= x)%Q →
  (inject_Z (Z.of_N (toFixed2 x)) - (1 # 2) <= x * 100
   ∧ x * 100 < inject_Z (Z.of_N (toFixed2 x)) + (1 # 2))%Q.
Proof.
  intros Hx. unfold toFixed2.
  pose proof (Qfloor_le (x * 100 + (1 # 2))) as Hlo.
  pose proof (Qlt_floor (x * 100 + (1 # 2))) as Hhi.
  assert (0 <= Qfloor (x * 100 + (1 # 2)))%Z as Hnn.
  { change 0%Z with (Qfloor 0). apply Qfloor_resp_le. lra. }
  rewrite Z2N.id by done. rewrite inject_Z_plus in Hhi.
  change (inject_Z 1) with 1%Q in Hhi. split; lra.
Qed.

(** What [getStorageInfo] reports while the total stays below 1024^4
    bytes: the number of rows, the sum of the sizes, ["0 Bytes"] for an
    empty total, and otherwise the total divided by the largest power of
    1024 not above it, rounded to the nearest hundredth (upwards on a
    tie) and printed without trailing zeros, followed by the unit of
    that power. *)
Theorem getStorageInfo_below_terabyte (db : DB) :
  let info := getStorageInfo db in
  count info = length (images db)
  ∧ totalSize info = total_bytes (images db)
  ∧ (totalSize info = 0%N → formattedSize info = "0 Bytes")
  ∧ ((0 < totalSize info < 1024 ^ 4)%N →
     ∃ (i : nat) (unit : string) (hundredths : N),
       ["Bytes"; "KB"; "MB"; "GB"] !! i = Some unit
       ∧ (1024 ^ N.of_nat i ≤ totalSize info < 1024 ^ (N.of_nat i + 1))%N
       ∧ (let x := (inject_Z (Z.of_N (totalSize info))
                    / inject_Z (1024 ^ Z.of_nat i))%Q in
          inject_Z (Z.of_N hundredths) - (1 # 2) <= x * 100
          ∧ x * 100 < inject_Z (Z.of_N hundredths) + (1 # 2))%Q
       ∧ formattedSize info
         = string_of_hundredths hundredths +:+ " " +:+ unit).
Proof.
  intros info. subst info. unfold getStorageInfo. simpl.
  rewrite getStorageSize_total. set (total := total_bytes (images db)).
  split; [done|]. split; [done|]. split.
  - intros ->. done.
  - intros Hrange. pose proof (floor_log1024_small total Hrange) as Hi.
    pose proof (floor_log1024_spec total (proj1 Hrange)) as Hspec.
    unfold formatBytes. rewrite (proj2 (N.eqb_neq total 0)) by lia.
    set (i := floor_log1024 total) in *.
    assert (∃ unit, sizes !! N.to_nat i = Some unit) as [unit Hunit].
    { assert (N.to_nat i < 4) as Hlt by lia.
      destruct (N.to_nat i) as [|[|[|[|?]]]]; [by eexists..|lia]. }
    exists (N.to_nat i), unit, (toFixed2 (inject_Z (Z.of_N total) / inject_Z (1024 ^ Z.of_N i))).
    rewrite N2Nat.id, N_nat_Z. split; [done|]. split; [done|]. split.
    + apply toFixed2_nearest. apply Qle_shift_div_l.
      * inject_order.
      * rewrite Qmult_0_l. inject_order.
    + by rewrite Hunit.
Qed.

(** C9 (the failing input): for a table whose one row holds 2^40 bytes,
    [getStorageInfo] reports one row, the total 1099511627776, and the
    text ["1 undefined"]: the unit is read past the end of [sizes]. *)
Theorem getStorageInfo_terabyte_unit :
  getStorageInfo huge_db
  = {| count := 1; totalSize := 1099511627776; formattedSize := "1 undefined" |}.
Proof. vm_compute. reflexivity. Qed.

(** [getStorageSize] is the sum of the sizes of the original and, where
    present, the processed file of every row. *)
Theorem storage_size_is_sum (db : DB) :
  getStorageSize db = total_bytes (getImages db).
Proof. apply getStorageSize_total. Qed.

End SummaryFacts.

Module CropFacts.
Import JS Editor CropSpec Examples.
Local Open Scope Q_scope.

Lemma gtb_Q_true (a b : Q) : gtb a b = true ↔ b < a.
Proof.
  cbn [gtb Number_Q]. rewrite negb_true_iff, <- not_true_iff_false, Qle_bool_iff.
  split; [apply Qnot_le_lt|apply Qlt_not_le].
Qed.

Lemma gtb_Q_false (a b : Q) : gtb a b = false ↔ a <= b.
Proof. cbn [gtb Number_Q]. by rewrite negb_false_iff, Qle_bool_iff. Qed.

Lemma Qhalf (x : Q) : x / 2 == x * (1 # 2).
Proof. field. Qed.

Lemma clamp_range (hi v : Q) : 0 <= hi → 0 <= clamp hi v ∧ clamp hi v <= hi.
Proof.
  intros Hhi. unfold clamp. cbn [max min Number_Q].
  destruct (Qle_bool hi v) eqn:E1.
  - destruct (Qle_bool 0 hi) eqn:E2; [lra|].
    apply Qle_bool_iff in Hhi. congruence.
  - assert (v < hi) as Hv.
    { apply Qnot_le_lt. intros Hc%Qle_bool_iff. congruence. }
    destruct (Qle_bool 0 v) eqn:E2.
    + apply Qle_bool_iff in E2. lra.
    + lra.
Qed.

Lemma clamp_inside (hi v : Q) : 0 <= v → v <= hi → clamp hi v == v.
Proof.
  intros H0 Hhi. unfold clamp. cbn [max min Number_Q].
  destruct (Qle_bool hi v) eqn:E1.
  - apply Qle_bool_iff in E1.
    destruct (Qle_bool 0 hi) eqn:E2; [lra|].
    assert (0 <= hi) as Hc%Qle_bool_iff by lra. congruence.
  - destruct (Qle_bool 0 v) eqn:E2; [lra|].
    apply Qle_bool_iff in H0. congruence.
Qed.

Section plan.
Variables (W H : Z) (preset : PhotoPreset.t) (face : option (Rect.t Q)).
Hypothesis HW : (1 ≤ W)%Z.
Hypothesis HH : (1 ≤ H)%Z.
Hypothesis Hid : PhotoPreset.id preset ≠ "none".
Hypothesis Hpw : (0 < PhotoPreset.width preset)%Z.
Hypothesis Hph : (0 < PhotoPreset.height preset)%Z.

Let w : Q := inject_Z W.
Let h : Q := inject_Z H.
Let ratio : Q := inject_Z (PhotoPreset.width preset) / inject_Z (PhotoPreset.height preset).

Lemma w_pos : 0 < w.
Proof using HW. unfold w. inject_order. Qed.
Lemma h_pos : 0 < h.
Proof using HH. unfold h. inject_order. Qed.
Lemma ratio_pos : 0 < ratio.
Proof using Hpw Hph.
  unfold ratio. apply Qlt_shift_div_l.
  - inject_order.
  - rewrite Qmult_0_l. inject_order.
Qed.

Lemma wide_fits : ratio < w / h → h * ratio < w.
Proof using HH.
  intros Hgt. pose proof h_pos.
  assert (w / h * h == w) as Hwh by (field; lra). nra.
Qed.

Lemma tall_fits : w / h <= ratio → w / ratio <= h.
Proof using HH Hpw Hph.
  intros Hle. pose proof h_pos. pose proof ratio_pos.
  apply Qle_shift_div_r; [done|].
  assert (w / h * h == w) as Hwh by (field; lra). nra.
Qed.

Lemma calculateCropArea_cases :
  calculateCropArea W H preset face =
  Some (if gtb (w / h) ratio
        then Rect.mk (match face with
                      | Some f => clamp (w - h * ratio)
                                    (Rect.x f + Rect.width f / 2 - h * ratio / 2)
                      | None => (w - h * ratio) / 2
                      end) 0 (h * ratio) h
        else Rect.mk 0 (match face with
                        | Some f => clamp (h - w / ratio)
                                      (Rect.y f + Rect.height f / 2 - w / ratio * (4 / 10))
                        | None => (h - w / ratio) / 2
                        end) w (w / ratio)).
Proof using Hid.
  unfold calculateCropArea. rewrite decide_False by done.
  cbn [of_Z add sub mul div Number_Q lit]. fold w h ratio. 
  destruct (gtb (w / h) ratio); destruct face; reflexivity.
Qed.
End plan.

Lemma clamp_low (hi v : Q) : 0 <= hi → v < 0 → clamp hi v == 0.
Proof.
  intros Hhi Hv. unfold clamp. cbn [max min Number_Q].
  destruct (Qle_bool hi v) eqn:E1.
  - apply Qle_bool_iff in E1. lra.
  - destruct (Qle_bool 0 v) eqn:E2; [|lra]. apply Qle_bool_iff in E2. lra.
Qed.

Lemma clamp_high (hi v : Q) : 0 <= hi → hi < v → clamp hi v == hi.
Proof.
  intros Hhi Hv. unfold clamp. cbn [max min Number_Q].
  destruct (Qle_bool hi v) eqn:E1.
  - destruct (Qle_bool 0 hi) eqn:E2; [lra|].
    apply Qle_bool_iff in Hhi. congruence.
  - assert (hi <= v) as Hc%Qle_bool_iff by lra. congruence.
Qed.

Lemma clamp_clamped (hi v : Q) : 0 <= hi → clamped_to 0 hi v (clamp hi v).
Proof.
  intros Hhi. unfold clamped_to. split; [by apply clamp_range|].
  split; [|split].
  - intros [? ?]. by apply clamp_inside.
  - by apply clamp_low.
  - by apply clamp_high.
Qed.

Lemma catalog_preset_positive (preset : PhotoPreset.t) :
  preset ∈ photoPresets → PhotoPreset.id preset ≠ "none" →
  (0 < PhotoPreset.width preset)%Z ∧ (0 < PhotoPreset.height preset)%Z.
Proof.
  unfold photoPresets. rewrite !elem_of_cons, elem_of_nil.
  intros [->|[->|[->|[->|[]]]]] Hid; simpl in *; done.
Qed.

(** The crop lies in the source and has the ratio of the preset, for any
    preset with positive output size. *)
Lemma crop_inside_general (W H : Z) (preset : PhotoPreset.t)
    (face : option (Rect.t Q)) :
  (1 ≤ W)%Z → (1 ≤ H)%Z → PhotoPreset.id preset ≠ "none" →
  (0 < PhotoPreset.width preset)%Z → (0 < PhotoPreset.height preset)%Z →
  ∃ crop, calculateCropArea W H preset face = Some crop
    ∧ inside_source W H crop
    ∧ Rect.width crop / Rect.height crop
      == inject_Z (PhotoPreset.width preset) / inject_Z (PhotoPreset.height preset).
Proof.
  intros HW HH Hid Hpw Hph. rewrite calculateCropArea_cases by done.
  pose proof (w_pos W HW) as Hw. pose proof (h_pos H HH) as Hh.
  pose proof (ratio_pos preset Hpw Hph) as Hr.
  set (w := inject_Z W) in *. set (h := inject_Z H) in *.
  set (ratio := inject_Z (PhotoPreset.width preset)
                / inject_Z (PhotoPreset.height preset)) in *.
  eexists. split; [reflexivity|]. unfold inside_source. fold w h.
  destruct (gtb (w / h) ratio) eqn:Hcmp; cbn [Rect.x Rect.y Rect.width Rect.height].
  - apply gtb_Q_true in Hcmp. pose proof (wide_fits W H preset HH Hcmp) as Hfit.
    fold w h ratio in Hfit. clearbody w h ratio. split.
    + set (cw := h * ratio) in *. clearbody cw. destruct face as [f|].
      * pose proof (clamp_range (w - cw)
          (Rect.x f + Rect.width f / 2 - cw / 2) ltac:(lra)). lra.
      * pose proof (Qhalf (w - cw)). lra.
    + field. lra.
  - apply gtb_Q_false in Hcmp. pose proof (tall_fits W H preset HH Hpw Hph Hcmp) as Hfit.
    fold w h ratio in Hfit. clearbody w h ratio. split.
    + set (ch := w / ratio) in *. clearbody ch. destruct face as [f|].
      * pose proof (clamp_range (h - ch)
          (Rect.y f + Rect.height f / 2 - ch * (4 / 10)) ltac:(lra)). lra.
      * pose proof (Qhalf (h - ch)). lra.
    + field. lra.
Qed.

(** C4: for a source of at least 1 by 1, a preset of the catalog other
    than ["none"], and any or no face box, the planner returns a crop
    with [x >= 0], [y >= 0], [x + width <= W], [y + height <= H] and
    [width / height] equal to the preset's [width / height] (numbers
    taken exactly). *)
Theorem crop_inside_source (W H : Z) (preset : PhotoPreset.t)
    (face : option (Rect.t Q)) :
  (1 ≤ W)%Z → (1 ≤ H)%Z →
  preset ∈ photoPresets → PhotoPreset.id preset ≠ "none" →
  ∃ crop, calculateCropArea W H preset face = Some crop
    ∧ 0 <= Rect.x crop ∧ 0 <= Rect.y crop
    ∧ Rect.x crop + Rect.width crop <= inject_Z W
    ∧ Rect.y crop + Rect.height crop <= inject_Z H
    ∧ Rect.width crop / Rect.height crop
      == inject_Z (PhotoPreset.width preset) / inject_Z (PhotoPreset.height preset).
Proof.
  intros HW HH Hin Hid.
  destruct (catalog_preset_positive preset Hin Hid) as [Hpw Hph].
  destruct (crop_inside_general W H preset face HW HH Hid Hpw Hph)
    as (crop & Hc & (? & ? & ? & ?) & Hratio).
  exists crop. tauto.
Qed.

(** C5: without a face box, when the source is wider than the preset's
    ratio the crop has the source's height, that height times the ratio
    as width, [y = 0] and [x = (W - width) / 2]; otherwise it has the
    source's width, that width divided by the ratio as height, [x = 0]
    and [y = (H - height) / 2].  The crop is centred, and no rectangle of
    the ratio that fits in the source is larger.  Under IEEE arithmetic a
    1000 by 500 source with the 400 by 400 preset gives
    [{x: 250, y: 0, width: 500, height: 500}]. *)
Theorem crop_without_face (W H : Z) (preset : PhotoPreset.t) :
  (1 ≤ W)%Z → (1 ≤ H)%Z → PhotoPreset.id preset ≠ "none" →
  (0 < PhotoPreset.width preset)%Z → (0 < PhotoPreset.height preset)%Z →
  let w := inject_Z W in
  let h := inject_Z H in
  let ratio := inject_Z (PhotoPreset.width preset)
               / inject_Z (PhotoPreset.height preset) in
  (ratio < w / h →
     calculateCropArea W H preset None
     = Some (Rect.mk ((w - h * ratio) / 2) 0 (h * ratio) h))
  ∧ (w / h <= ratio →
     calculateCropArea W H preset None
     = Some (Rect.mk 0 ((h - w / ratio) / 2) w (w / ratio)))
  ∧ (∃ crop, calculateCropArea W H preset None = Some crop
       ∧ Rect.x crop + Rect.width crop / 2 == w / 2
       ∧ Rect.y crop + Rect.height crop / 2 == h / 2
       ∧ (∀ rw rh : Q, 0 < rh → rw / rh == ratio → rw <= w → rh <= h →
            rw <= Rect.width crop ∧ rh <= Rect.height crop))
  ∧ ((λ p, calculateCropArea (A:=float) 1000 500 p None) <$> find_preset "linkedin"
     = Some (Some (Rect.mk 250 0 500 500)%float)).
Proof.
  intros HW HH Hid Hpw Hph w h ratio.
  pose proof (calculateCropArea_cases W H preset None Hid) as Hcases.
  fold w h ratio in Hcases.
  pose proof (w_pos W HW) as Hw. pose proof (h_pos H HH) as Hh.
  pose proof (ratio_pos preset Hpw Hph) as Hr. fold w in Hw. fold h in Hh. fold ratio in Hr.
  split; [|split; [|split]].
  - intros Hc%gtb_Q_true. by rewrite Hcases, Hc.
  - intros Hc%gtb_Q_false. by rewrite Hcases, Hc.
  - eexists. split; [exact Hcases|].
    destruct (gtb (w / h) ratio) eqn:Hcmp; cbn [Rect.x Rect.y Rect.width Rect.height].
    + apply gtb_Q_true in Hcmp. pose proof (wide_fits W H preset HH Hcmp) as Hfit.
      fold w h ratio in Hfit. clearbody w h ratio.
      split; [field|]. split; [field|].
      intros rw rh Hrh Hrat Hrw Hrh'.
      assert (rw == ratio * rh) as Hrw' by (rewrite <- Hrat; field; lra).
      split; [|done]. rewrite Hrw'. nra.
    + apply gtb_Q_false in Hcmp. pose proof (tall_fits W H preset HH Hpw Hph Hcmp) as Hfit.
      fold w h ratio in Hfit. clearbody w h ratio.
      split; [field|]. split; [field; lra|].
      intros rw rh Hrh Hrat Hrw Hrh'. split; [done|].
      assert (rw == ratio * rh) as Hrw' by (rewrite <- Hrat; field; lra).
      apply Qle_shift_div_l; [done|]. by rewrite Qmult_comm, <- Hrw'.
  - vm_compute. reflexivity.
Qed.

(** C6: with a face box, when the source is wider than the preset's ratio
    the crop's [x] is the face's horizontal centre less half the crop's
    width, clamped to the interval from 0 to [W - width]; otherwise the
    crop's [y] is the face's vertical centre less four tenths of the
    crop's height, clamped to the interval from 0 to [H - height]. *)
Theorem crop_with_face (W H : Z) (preset : PhotoPreset.t) (face : Rect.t Q) :
  (1 ≤ W)%Z → (1 ≤ H)%Z → PhotoPreset.id preset ≠ "none" →
  (0 < PhotoPreset.width preset)%Z → (0 < PhotoPreset.height preset)%Z →
  let w := inject_Z W in
  let h := inject_Z H in
  let ratio := inject_Z (PhotoPreset.width preset)
               / inject_Z (PhotoPreset.height preset) in
  let faceCenterX := Rect.x face + Rect.width face / 2 in
  let faceCenterY := Rect.y face + Rect.height face / 2 in
  ∃ crop, calculateCropArea W H preset (Some face) = Some crop
    ∧ (ratio < w / h →
         Rect.width crop = h * ratio ∧ Rect.height crop = h ∧ Rect.y crop = 0
         ∧ clamped_to 0 (w - Rect.width crop)
             (faceCenterX - Rect.width crop / 2) (Rect.x crop))
    ∧ (w / h <= ratio →
         Rect.width crop = w ∧ Rect.height crop = w / ratio ∧ Rect.x crop = 0
         ∧ clamped_to 0 (h - Rect.height crop)
             (faceCenterY - Rect.height crop * (4 / 10)) (Rect.y crop)).
Proof.
  intros HW HH Hid Hpw Hph w h ratio fcx fcy.
  rewrite calculateCropArea_cases by done. fold w h ratio fcx fcy.
  eexists. split; [reflexivity|].
  destruct (gtb (w / h) ratio) eqn:Hcmp; cbn [Rect.x Rect.y Rect.width Rect.height].
  - pose proof Hcmp as Hgt%gtb_Q_true. split.
    + intros _. split; [done|]. split; [done|]. split; [done|].
      apply clamp_clamped. pose proof (wide_fits W H preset HH Hgt) as Hfit.
      fold w h ratio in Hfit. lra.
    + intros Hle. exfalso. lra.
  - pose proof Hcmp as Hle%gtb_Q_false. split.
    + intros Hgt. exfalso. lra.
    + intros _. split; [done|]. split; [done|]. split; [done|].
      apply clamp_clamped. pose proof (tall_fits W H preset HH Hpw Hph Hle) as Hfit.
      fold w h ratio in Hfit. lra.
Qed.

Lemma crop_inside_source_witness :
  (1 ≤ 1000)%Z ∧ (1 ≤ 500)%Z
  ∧ linkedin ∈ photoPresets ∧ PhotoPreset.id linkedin ≠ "none"
  ∧ ∃ crop, calculateCropArea 1000 500 linkedin (Some face_box) = Some crop
      ∧ 0 <= Rect.x crop ∧ 0 <= Rect.y crop
      ∧ Rect.x crop + Rect.width crop <= inject_Z 1000
      ∧ Rect.y crop + Rect.height crop <= inject_Z 500
      ∧ Rect.width crop / Rect.height crop
        == inject_Z (PhotoPreset.width linkedin) / inject_Z (PhotoPreset.height linkedin).
Proof.
  assert (Hin : linkedin ∈ photoPresets) by (unfold photoPresets; repeat constructor).
  assert (Hid : PhotoPreset.id linkedin ≠ "none") by (intros [=]).
  split; [lia|]. split; [lia|]. split; [exact Hin|]. split; [exact Hid|].
  apply (crop_inside_source 1000 500 linkedin (Some face_box)); [lia|lia|exact Hin|exact Hid].
Defined.

Lemma crop_without_face_witness :
  (1 ≤ 1000)%Z ∧ (1 ≤ 500)%Z ∧ PhotoPreset.id linkedin ≠ "none"
  ∧ (0 < PhotoPreset.width linkedin)%Z ∧ (0 < PhotoPreset.height linkedin)%Z
  ∧ ∃ crop, calculateCropArea (A:=Q) 1000 500 linkedin None = Some crop
      ∧ Rect.x crop == 250 ∧ Rect.y crop == 0
      ∧ Rect.width crop == 500 ∧ Rect.height crop == 500.
Proof.
  assert (Hid : PhotoPreset.id linkedin ≠ "none") by (intros [=]).
  split; [lia|]. split; [lia|]. split; [exact Hid|]. split; [simpl; lia|].
  split; [simpl; lia|].
  pose proof (crop_without_face 1000 500 linkedin ltac:(lia) ltac:(lia) Hid
                ltac:(simpl; lia) ltac:(simpl; lia)) as (Hwide & _).
  eexists. split; [apply Hwide; reflexivity|].
  repeat split; reflexivity.
Defined.

Lemma crop_with_face_witness :
  (1 ≤ 1000)%Z ∧ (1 ≤ 500)%Z ∧ PhotoPreset.id linkedin ≠ "none"
  ∧ (0 < PhotoPreset.width linkedin)%Z ∧ (0 < PhotoPreset.height linkedin)%Z
  ∧ ∃ crop, calculateCropArea (A:=Q) 1000 500 linkedin (Some face_box) = Some crop
      ∧ Rect.x crop == 200 ∧ Rect.y crop == 0
      ∧ Rect.width crop == 500 ∧ Rect.height crop == 500.
Proof.
  assert (Hid : PhotoPreset.id linkedin ≠ "none") by (intros [=]).
  split; [lia|]. split; [lia|]. split; [exact Hid|]. split; [simpl; lia|].
  split; [simpl; lia|].
  destruct (crop_with_face 1000 500 linkedin face_box ltac:(lia) ltac:(lia) Hid
              ltac:(simpl; lia) ltac:(simpl; lia)) as (crop & Hcrop & _).
  exists crop. split; [exact Hcrop|].
  vm_compute in Hcrop. injection Hcrop as <-. repeat split; reflexivity.
Defined.

End CropFacts.

Module EncoderFacts.
Import JS Editor EncoderSpec Examples.

Section search.
Context {A : Type} `{Number A}.
Variable toDataURL : string → option A → string.

Lemma encode_body_state_at (k : nat) :
  encode_body toDataURL (state_at toDataURL k) = state_at toDataURL (S k).
Proof.
  unfold encode_body, state_at. cbn [quality dataUrl attempts encoded_at].
  change (sub (quality_at k) (lit 1 10)) with (quality_at (A:=A) (S k)).
  f_equal; [lia|].
  rewrite (seq_S (S k)), map_app, rev_app_distr. done.
Qed.

(** From the state of pass [k], the loop runs on to the first pass [n]
    at which its condition is false, provided one comes within the
    fuel. *)
Lemma while_state_at (targetSize : Z) (last : nat) :
  encode_cond targetSize (state_at toDataURL last) = false →
  ∀ (d k fuel : nat), k + d = last → d ≤ fuel →
  ∃ n, k ≤ n ≤ last
    ∧ while fuel (encode_cond targetSize) (encode_body toDataURL)
        (state_at toDataURL k) = Some (state_at toDataURL n)
    ∧ encode_cond targetSize (state_at toDataURL n) = false
    ∧ ∀ j, k ≤ j < n → encode_cond targetSize (state_at toDataURL j) = true.
Proof.
  intros Hlast. induction d as [|d IH]; intros k fuel Hk Hfuel.
  - exists k. assert (k = last) as -> by lia.
    split; [lia|]. split; [|split; [done|intros; lia]].
    destruct fuel; simpl; by rewrite Hlast.
  - destruct (encode_cond targetSize (state_at toDataURL k)) eqn:Hc.
    + destruct fuel as [|fuel]; [lia|]. simpl. rewrite Hc.
      rewrite encode_body_state_at.
      destruct (IH (S k) fuel ltac:(lia) ltac:(lia)) as (n & Hn & Hw & Hstop & Hgo).
      exists n. split; [lia|]. split; [done|]. split; [done|].
      intros j Hj. destruct (decide (j = k)) as [->|]; [done|]. apply Hgo. lia.
    + exists k. split; [lia|]. split; [|split; [done|intros; lia]].
      destruct fuel; simpl; by rewrite Hc.
Qed.
End search.

(** In IEEE arithmetic the qualities of the ten attempts. *)
Lemma float_qualities :
  map (quality_at (A:=float)) (seq 0 10)
  = [0.9; 0.8; 0.7000000000000001; 0.6000000000000001; 0.5000000000000001;
     0.40000000000000013; 0.30000000000000016; 0.20000000000000015;
     0.10000000000000014; 1.3877787807814457e-16]%float.
Proof. vm_compute. reflexivity. Qed.

Lemma float_quality_above_floor (k : nat) :
  k < 9 → gtb (quality_at (A:=float) k) (lit 1 10) = true.
Proof.
  intros Hk. do 9 (destruct k as [|k]; [vm_compute; reflexivity|]). lia.
Qed.

Lemma float_quality_floor : gtb (quality_at (A:=float) 9) (lit 1 10) = false.
Proof. vm_compute. reflexivity. Qed.

Lemma float_quality_decreasing (j k : nat) :
  j ≤ k → k ≤ 9 → gtb (quality_at (A:=float) k) (quality_at j) = false.
Proof.
  intros Hjk Hk.
  do 10 (destruct k as [|k];
         [do 10 (destruct j as [|j]; [first [lia|vm_compute; reflexivity]|]); lia|]).
  lia.
Qed.

(** In exact arithmetic the floor would be met one attempt earlier. *)
Remark exact_quality_floor :
  gtb (quality_at (A:=Q) 8) (lit 1 10) = false
  ∧ (quality_at (A:=Q) 8 == 1 # 10)%Q.
Proof. split; vm_compute; reflexivity. Qed.

(** C3: for a JPEG preset with a non-zero byte budget the export encodes
    first at quality 0.9 and then at qualities that each lie 0.1 below
    the one before; every attempt before the returned one was over budget
    (length times 0.75 above the budget) with its quality above 0.1; the
    loop ends, within nine passes, because the last attempt fits the
    budget, or its quality is not above 0.1, or ten passes were made; the
    result is always the data URL of the last attempt.  When no attempt
    can fit, the encoder has been called exactly ten times (the counter
    [attempts] stands at 9) and the returned attempt is the one of least
    quality.  Numbers are IEEE 754 binary64. *)
Theorem encode_jpeg_quality_search (toDataURL : string → option float → string)
    (preset : PhotoPreset.t) (kb : Z) (fuel : nat) :
  PhotoPreset.format preset = Store.jpeg →
  PhotoPreset.maxFileSize preset = Some kb → kb ≠ 0%Z →
  9 ≤ fuel →
  let targetSize := (kb * 1024)%Z in
  let encoded q := toDataURL "image/jpeg" (Some q) in
  ∃ n : nat,
    n ≤ 9
    ∧ encode_jpeg toDataURL fuel (Some kb) = Some (state_at toDataURL n)
    ∧ export toDataURL fuel (Some preset) = Some (encoded (quality_at n))
    ∧ quality_at (A:=float) 0 = lit 9 10
    ∧ (∀ k, quality_at (A:=float) (S k) = sub (quality_at k) (lit 1 10))
    ∧ (∀ j, j < n → over_budget (encoded (quality_at j)) targetSize = true
                     ∧ gtb (quality_at (A:=float) j) (lit 1 10) = true)
    ∧ (over_budget (encoded (quality_at n)) targetSize = false
       ∨ gtb (quality_at (A:=float) n) (lit 1 10) = false
       ∨ (10 ≤ attempts (state_at toDataURL n))%Z)
    ∧ ((∀ q, over_budget (encoded q) targetSize = true) →
         n = 9
         ∧ length (encoded_at (state_at toDataURL n)) = 10
         ∧ attempts (state_at toDataURL n) = 9%Z
         ∧ ∀ j, j ≤ 9 → gtb (quality_at (A:=float) n) (quality_at j) = false).
Proof.
  intros Hfmt Hmax Hkb Hfuel targetSize encoded.
  assert (Hlast : encode_cond targetSize (state_at toDataURL 9) = false).
  { unfold encode_cond. cbn [quality state_at].
    rewrite float_quality_floor. by rewrite andb_false_r. }
  destruct (while_state_at toDataURL targetSize 9 Hlast 9 0 fuel eq_refl Hfuel)
    as (n & Hn & Hw & Hstop & Hgo).
  assert (Henc : encode_jpeg toDataURL fuel (Some kb) = Some (state_at toDataURL n)).
  { unfold encode_jpeg. rewrite (proj2 (Z.eqb_neq kb 0) Hkb). exact Hw. }
  exists n. split; [lia|]. split; [exact Henc|]. split.
  { unfold export. by rewrite Hfmt, Hmax, Henc. }
  split; [done|]. split; [done|]. split; [|split].
  - intros j Hj. specialize (Hgo j ltac:(lia)). unfold encode_cond in Hgo.
    cbn [quality dataUrl attempts state_at] in Hgo.
    apply andb_prop in Hgo as [[Hb Hq]%andb_prop _]. done.
  - unfold encode_cond in Hstop. cbn [quality dataUrl attempts state_at] in Hstop.
    apply andb_false_iff in Hstop as [[Hb|Hq]%andb_false_iff|Ha].
    + by left.
    + right; by left.
    + right; right. apply Z.ltb_ge in Ha. done.
  - intros Hover.
    assert (n = 9) as ->.
    { destruct (decide (n = 9)) as [|Hne]; [done|]. exfalso.
      unfold encode_cond in Hstop. cbn [quality dataUrl attempts state_at] in Hstop.
      pose proof (Hover (quality_at n)) as Ho. unfold encoded in Ho.
      rewrite Ho, float_quality_above_floor in Hstop by lia.
      rewrite (proj2 (Z.ltb_lt _ _)) in Hstop by lia. done. }
    split; [done|]. split; [done|]. split; [done|].
    intros j Hj. by apply float_quality_decreasing.
Qed.

Lemma encode_jpeg_quality_search_witness :
  PhotoPreset.format china_visa = Store.jpeg
  ∧ PhotoPreset.maxFileSize china_visa = Some 120%Z ∧ 120%Z ≠ 0%Z ∧ 9 ≤ 9
  ∧ ∃ n : nat, n ≤ 9
      ∧ export bulky_encoder 9 (Some china_visa)
        = Some (bulky_encoder "image/jpeg" (Some (quality_at (A:=float) n))).
Proof.
  split; [reflexivity|]. split; [reflexivity|]. split; [lia|]. split; [lia|].
  destruct (encode_jpeg_quality_search bulky_encoder china_visa 120 9
              eq_refl eq_refl ltac:(lia) ltac:(lia)) as (n & Hn & _ & Hexport & _).
  exists n. split; [exact Hn|exact Hexport].
Defined.

(** A run in which nothing fits: a budget of 1 KB against 2048 characters.
    The encoder is called at the ten qualities, the last one first in the
    record. *)
Example encode_jpeg_unachievable :
  encoded_at <$> encode_jpeg bulky_encoder 9 (Some 1%Z)
  = Some [1.3877787807814457e-16; 0.10000000000000014; 0.20000000000000015;
          0.30000000000000016; 0.40000000000000013; 0.5000000000000001;
          0.6000000000000001; 0.7000000000000001; 0.8; 0.9]%float
  ∧ attempts <$> encode_jpeg bulky_encoder 9 (Some 1%Z) = Some 9%Z.
Proof. vm_compute. split; reflexivity. Qed.

End EncoderFacts.

Module EffectFacts.
Import JS Editor EffectSpec Examples.

Lemma list_ind4 {A} (P : list A → Prop) :
  P [] → (∀ a, P [a]) → (∀ a b, P [a; b]) → (∀ a b c, P [a; b; c]) →
  (∀ a b c d rest, P rest → P (a :: b :: c :: d :: rest)) →
  ∀ l, P l.
Proof.
  intros H0 H1 H2 H3 H4.
  refine (fix go l := match l with
                      | a :: b :: c :: d :: rest => H4 a b c d rest (go rest)
                      | [a; b; c] => H3 a b c
                      | [a; b] => H2 a b
                      | [a] => H1 a
                      | [] => H0
                      end).
Qed.

(** A loop that advances by four and writes three channels with [f]. *)
Lemma rgb_loop_lookup (f : Z → Z) (loop : list Z → list Z) :
  (∀ r g b a rest, loop (r :: g :: b :: a :: rest)
                   = f r :: f g :: f b :: a :: loop rest) →
  loop [] = [] → (∀ a, loop [a] = [f a]) → (∀ a b, loop [a; b] = [f a; f b]) →
  (∀ a b c, loop [a; b; c] = [f a; f b; f c]) →
  ∀ data i,
    loop data !! i = (λ c, if decide (i mod 4 = 3) then c else f c) <$> data !! i.
Proof.
  intros Hstep Hnil H1 H2 H3 data.
  induction data as [|a|a b|a b c|a b c d rest IH] using list_ind4; intros i.
  - by rewrite Hnil.
  - rewrite H1. by destruct i as [|[|]].
  - rewrite H2. by destruct i as [|[|[|]]].
  - rewrite H3. by destruct i as [|[|[|[|]]]].
  - rewrite Hstep. destruct i as [|[|[|[|i]]]]; try done.
    assert (Hm : S (S (S (S i))) mod 4 = i mod 4).
    { change (S (S (S (S i)))) with (4 + i). rewrite Nat.add_comm.
      apply (Nat.Div0.mod_add i 1 4). }
    rewrite Hm. apply IH.
Qed.

Lemma brightness_lookup `{Number A} (intensity : Z) (data : list Z) (i : nat) :
  brightness (A:=A) intensity data !! i
  = (λ c, if decide (i mod 4 = 3) then c else brightness_channel intensity c)
      <$> data !! i.
Proof. by apply rgb_loop_lookup. Qed.

Lemma contrast_lookup `{Number A} (intensity : Z) (data : list Z) (i : nat) :
  contrast (A:=A) intensity data !! i
  = (λ c, if decide (i mod 4 = 3) then c else contrast_channel intensity c)
      <$> data !! i.
Proof. by apply rgb_loop_lookup. Qed.

Lemma forallb_range (f : Z → bool) (n : nat) (z : Z) :
  forallb f (range n) = true → (0 ≤ z < Z.of_nat n)%Z → f z = true.
Proof.
  intros Hall Hz. rewrite forallb_forall in Hall. apply Hall.
  unfold range. apply in_map_iff. exists (Z.to_nat z). split; [lia|].
  apply in_seq. lia.
Qed.

Lemma channel_check_all :
  forallb (λ intensity, forallb (channel_check intensity) (range 256)) (range 101)
  = true.
Proof. vm_compute. reflexivity. Qed.

Lemma channel_check_holds (intensity c : Z) :
  (0 ≤ intensity ≤ 100)%Z → (0 ≤ c ≤ 255)%Z → channel_check intensity c = true.
Proof.
  intros Hi Hc.
  apply (forallb_range (channel_check intensity) 256); [|lia].
  apply (forallb_range (λ i, forallb (channel_check i) (range 256)) 101); [|lia].
  exact channel_check_all.
Qed.

(** C8: for an intensity from 0 to 100 and a channel value from 0 to 255 at
    index [i] of the pixel data, under IEEE arithmetic: at an alpha index
    ([i mod 4 = 3]) both effects leave the value as it is; at a colour
    index the brightness effect stores an integer from 0 to 255 within one
    half of [min(255, c * (intensity / 50))], which is [c] at intensity 50
    and [min(255, 2 c)] at intensity 100, and the contrast effect stores
    an integer from 0 to 255 within one half of
    [factor * (c - 128) + 128] kept between 0 and 255, with
    [factor = 259 * (intensity + 255) / (255 * (259 - intensity))]: the
    exact value rounded to the nearest integer, to the even one on a
    tie. *)
Theorem effects_per_channel (intensity : Z) (data : list Z) (i : nat) (c : Z) :
  (0 ≤ intensity ≤ 100)%Z → data !! i = Some c → (0 ≤ c ≤ 255)%Z →
  (i mod 4 = 3 →
     brightness (A:=float) intensity data !! i = Some c
     ∧ contrast (A:=float) intensity data !! i = Some c)
  ∧ (i mod 4 ≠ 3 →
     ∃ vb vc : Z,
       brightness (A:=float) intensity data !! i = Some vb
       ∧ contrast (A:=float) intensity data !! i = Some vc
       ∧ (0 ≤ vb ≤ 255)%Z
       ∧ near vb (Qmin 255 (inject_Z c * (inject_Z intensity / 50)))
       ∧ (intensity = 50%Z → vb = c)
       ∧ (intensity = 100%Z → vb = Z.min 255 (2 * c))
       ∧ (0 ≤ vc ≤ 255)%Z
       ∧ near vc (Qmax 0 (Qmin 255
                    (259 * (inject_Z intensity + 255)
                       / (255 * (259 - inject_Z intensity))
                     * (inject_Z c - 128) + 128)))
       ∧ vc = Q_toUint8Clamp
                (259 * (inject_Z intensity + 255)
                       / (255 * (259 - inject_Z intensity))
                     * (inject_Z c - 128) + 128)%Q).
Proof.
  intros Hi Hdata Hc. rewrite brightness_lookup, contrast_lookup, Hdata.
  cbn [fmap option_fmap option_map].
  split.
  - intros Hmod. by rewrite !decide_True.
  - intros Hmod. rewrite !decide_False by done.
    pose proof (channel_check_holds intensity c Hi Hc) as Hchk.
    unfold channel_check in Hchk.
    apply andb_prop in Hchk as [Hchk Hceq%Z.eqb_eq].
    apply andb_prop in Hchk as [Hchk Hcnear%Qle_bool_iff].
    apply andb_prop in Hchk as [Hchk Hchi%Z.leb_le].
    apply andb_prop in Hchk as [Hchk Hclo%Z.leb_le].
    apply andb_prop in Hchk as [Hchk H100].
    apply andb_prop in Hchk as [Hchk H50].
    apply andb_prop in Hchk as [Hchk Hbnear%Qle_bool_iff].
    apply andb_prop in Hchk as [Hblo%Z.leb_le Hbhi%Z.leb_le].
    exists (brightness_channel (A:=float) intensity c),
           (contrast_channel (A:=float) intensity c).
    split; [done|]. split; [done|]. split; [done|]. split; [exact Hbnear|].
    split; [intros ->; by apply Z.eqb_eq in H50|].
    split; [intros ->; by apply Z.eqb_eq in H100|].
    split; [done|]. split; [exact Hcnear|]. exact Hceq.
Qed.

Lemma effects_per_channel_witness :
  (0 ≤ 100 ≤ 100)%Z ∧ [200; 100; 0; 77]%Z !! 0 = Some 200%Z ∧ (0 ≤ 200 ≤ 255)%Z
  ∧ ∃ vb vc : Z,
      brightness (A:=float) 100 [200; 100; 0; 77]%Z !! 0 = Some vb
      ∧ contrast (A:=float) 100 [200; 100; 0; 77]%Z !! 0 = Some vc
      ∧ vb = Z.min 255 (2 * 200).
Proof.
  split; [lia|]. split; [reflexivity|]. split; [lia|].
  destruct (effects_per_channel 100 [200; 100; 0; 77]%Z 0 200
              ltac:(lia) eq_refl ltac:(lia)) as [_ Hrgb].
  destruct (Hrgb ltac:(simpl; lia)) as (vb & vc & Hb & Hc & _ & _ & _ & H100 & _).
  exists vb, vc. split; [exact Hb|]. split; [exact Hc|]. exact (H100 eq_refl).
Defined.

(** Whole arrays: brightness at 50 changes nothing, brightness at 100
    doubles and clamps, and neither effect touches alpha. *)
Example effects_on_pixels :
  brightness (A:=float) 50 [200; 100; 0; 77; 1; 2; 3; 4]%Z = [200; 100; 0; 77; 1; 2; 3; 4]%Z
  ∧ brightness (A:=float) 100 [200; 100; 0; 77; 1; 2; 3; 4]%Z = [255; 200; 0; 77; 2; 4; 6; 4]%Z
  ∧ contrast (A:=float) 50 [200; 100; 0; 77; 1; 2; 3; 4]%Z = [235; 86; 0; 77; 0; 0; 0; 4]%Z.
Proof. vm_compute. repeat split. Qed.

(** Exact and IEEE arithmetic part ways on some ties of the brightness
    effect: 75 * 7 / 50 is 10.5 exactly, which rounds to the even 10,
    while the product of 75 and the float nearest to 0.14 lies above
    10.5. *)
Remark brightness_tie_differs :
  brightness_channel (A:=Q) 7 75 = 10%Z ∧ brightness_channel (A:=float) 7 75 = 11%Z.
Proof. vm_compute. split; reflexivity. Qed.

End EffectFacts.

Module CropIeeeFacts.
Import JS Editor CropSpec EffectSpec EffectFacts Examples.

Lemma crop_check_all :
  forallb (λ preset, forallb (λ W, forallb (crop_check preset W) (range 257)) (range 257))
          (tail photoPresets) = true.
Proof. vm_compute. reflexivity. Qed.

(** Under IEEE arithmetic, for every source from 1 by 1 to 256 by 256 and
    every preset of the catalog other than ["none"], the crop planned
    without a face box has [x >= 0], [y >= 0], [x + width <= W] and
    [y + height <= H] as the floats compare, and its [width / height] is
    within a relative error of [1e-15] of the preset's. *)
Theorem crop_inside_source_ieee (W H : Z) (preset : PhotoPreset.t) :
  (1 ≤ W ≤ 256)%Z → (1 ≤ H ≤ 256)%Z →
  preset ∈ photoPresets → PhotoPreset.id preset ≠ "none" →
  ∃ crop, calculateCropArea (A:=float) W H preset None = Some crop
    ∧ inside_ieee W H crop = true ∧ ratio_close preset crop = true.
Proof.
  intros HW HH Hin Hid.
  assert (Htail : In preset (tail photoPresets)).
  { unfold photoPresets in *. apply elem_of_cons in Hin as [->|Hin]; [done|].
    by apply list_elem_of_In. }
  pose proof crop_check_all as Hall. rewrite forallb_forall in Hall.
  specialize (Hall preset Htail).
  apply (forallb_range _ 257 W) in Hall; [|lia].
  apply (forallb_range _ 257 H) in Hall; [|lia].
  unfold crop_check in Hall.
  rewrite (proj2 (Z.eqb_neq W 0)), (proj2 (Z.eqb_neq H 0)) in Hall by lia.
  simpl in Hall. destruct (calculateCropArea W H preset None) as [crop|]; [|done].
  apply andb_prop in Hall as [? ?]. by exists crop.
Qed.

Lemma crop_inside_source_ieee_witness :
  (1 ≤ 200 ≤ 256)%Z ∧ (1 ≤ 150 ≤ 256)%Z
  ∧ china_visa ∈ photoPresets ∧ PhotoPreset.id china_visa ≠ "none"
  ∧ ∃ crop, calculateCropArea (A:=float) 200 150 china_visa None = Some crop
      ∧ inside_ieee 200 150 crop = true ∧ ratio_close china_visa crop = true.
Proof.
  assert (Hin : china_visa ∈ photoPresets) by (unfold photoPresets; repeat constructor).
  assert (Hid : PhotoPreset.id china_visa ≠ "none") by (intros [=]).
  split; [lia|]. split; [lia|]. split; [exact Hin|]. split; [exact Hid|].
  apply (crop_inside_source_ieee 200 150 china_visa); [lia|lia|exact Hin|exact Hid].
Defined.

End CropIeeeFacts.

Module UploadFacts.
Import JS App UploadSpec Examples.

Lemma Q_truncate_round (x : Q) :
  truncate (round x) = Qfloor (x + (1 # 2))%Q.
Proof.
  cbn [truncate round Number_Q]. unfold Q_truncate, Q_round. simpl.
  apply Z.quot_1_r.
Qed.

Lemma resize_unfold (env : Browser) (file : File.t) :
  resizeImageForProcessing (A:=Q) env file 512 =
  match decode file with
  | Some (w, h) =>
      if context2d env then
        match toBlob env file (target_size w h).1 (target_size w h).2
                (File.type file) (9 # 10) with
        | Some (size, payload) =>
            File.mk (File.name file) (File.type file) (File.lastModified file)
                    size payload
        | None => file
        end
      else file
  | None => file
  end.
Proof.
  unfold resizeImageForProcessing, target_size.
  destruct (decode file) as [[w h]|]; [|done].
  rewrite Q_truncate_round. cbn [of_Z mul div Number_Q].
  destruct (h >? 512)%Z; cbn [fst snd]; by destruct (context2d env).
Qed.

Lemma toBlob_payload env src w h type q size p :
  toBlob env src w h type q = Some (size, p) →
  p = Canvas w h (encoded_type env type) (encoded_quality env type q)
  ∧ (0 < w ∧ 0 < h)%Z.
Proof.
  unfold toBlob. destruct (decide _) as [|Hpos]; [done|]. cbv zeta.
  destruct (encode env src w h _ _); [|done]. simpl. intros [= _ <-].
  split; [done|lia].
Qed.

(** What [resizeImageForProcessing] returns, case by case. *)
Lemma resize_cases (env : Browser) (file : File.t) :
  let saved := resizeImageForProcessing (A:=Q) env file 512 in
  File.name saved = File.name file
  ∧ File.type saved = File.type file
  ∧ (decode file = None → saved = file)
  ∧ ∀ w h, decode file = Some (w, h) →
      let w' := (target_size w h).1 in
      let h' := (target_size w h).2 in
      ((512 < h)%Z → h' = 512%Z
                     ∧ w' = Qfloor (512 * (inject_Z w / inject_Z h) + (1 # 2))%Q)
      ∧ ((h ≤ 512)%Z → w' = w ∧ h' = h)
      ∧ (context2d env = false
         ∨ toBlob env file w' h' (File.type file) (9 # 10) = None →
         saved = file)
      ∧ (∀ size payload,
           context2d env = true →
           toBlob env file w' h' (File.type file) (9 # 10) = Some (size, payload) →
           File.payload saved
           = Canvas w' h' (encoded_type env (File.type file))
               (encoded_quality env (File.type file) (9 # 10))
           ∧ decode saved = Some (w', h')
           ∧ File.size saved = size).
Proof.
  cbn zeta. rewrite resize_unfold.
  split; [|split; [|split]].
  - destruct (decode file) as [[w h]|]; [|done].
    destruct (context2d env); [|done]. by destruct (toBlob _ _ _ _ _ _) as [[? ?]|].
  - destruct (decode file) as [[w h]|]; [|done].
    destruct (context2d env); [|done]. by destruct (toBlob _ _ _ _ _ _) as [[? ?]|].
  - by intros ->.
  - intros w h ->. cbn zeta.
    split; [|split; [|split]].
    + intros Hh. unfold target_size. by rewrite (proj2 (Z.gtb_lt _ _)) by lia.
    + intros Hh. unfold target_size.
      destruct (h >? 512)%Z eqn:E; [apply Z.gtb_lt in E; lia|done].
    + intros [->| ->]; [done|]. by destruct (context2d env).
    + intros size payload -> Hblob. rewrite Hblob. simpl.
      apply toBlob_payload in Hblob as [-> _]. done.
Qed.

End UploadFacts.

Module StoreMoreFacts.
Import Store Async StoreSpec StoreOps StoreFacts SweepFacts SummaryFacts Examples.

(** [get] on a table whose rows all carry other keys. *)
Lemma get_absent (key : N) (db : DB) :
  Forall (λ r, id r ≠ key) (images db) → get key db = None.
Proof. intros Hall. unfold get. by rewrite filter_none. Qed.

Lemma get_Some_elem (key : N) (db : DB) (r : StoredImage) :
  get key db = Some r → r ∈ images db ∧ id r = key.
Proof.
  unfold get. intros Hhd.
  assert (r ∈ filter (λ x, id x = key) (images db)) as [? ?]%list_elem_of_filter.
  { destruct (filter _ (images db)) as [|x l]; [done|]. injection Hhd as ->. by left. }
  done.
Qed.

Lemma get_add (obj : N → StoredImage) (db : DB) :
  keys_wf db → (∀ k, id (obj k) = k) →
  get (add obj db).1 (add obj db).2 = Some (obj (nextId db)).
Proof.
  intros [_ Hb] Hobj. unfold get, add. simpl. rewrite filter_app, filter_none.
  - simpl. by rewrite filter_cons_True by apply Hobj.
  - eapply Forall_impl; [exact Hb|]. simpl. intros r Hr. lia.
Qed.

(** Saving and reading back: the key [saveImage] returns leads
    [getImage] to a row that holds exactly the arguments of the call,
    stamped with the time of the call; its [createdAt] is that time for
    a new name and the stored one for a known name. *)
Theorem saveImage_then_getImage (a : SaveArgs) (now : Z) (db : DB) :
  keys_wf db →
  ∃ row,
    getImage (saveImage a now db).1 (saveImage a now db).2 = Some row
    ∧ id row = (saveImage a now db).1
    ∧ originalFile row = arg_originalFile a
    ∧ processedFile row = arg_processedFile a
    ∧ fileName row = File.name (arg_originalFile a)
    ∧ lastPreset row = arg_lastPreset a
    ∧ lastFormat row = arg_lastFormat a
    ∧ updatedAt row = now
    ∧ createdAt row
      = match where_fileName_equals (File.name (arg_originalFile a)) db with
        | r :: _ => createdAt r
        | [] => now
        end.
Proof.
  intros Hk. unfold getImage, saveImage.
  destruct (where_fileName_equals _ db) as [|r rest] eqn:Hw.
  - rewrite get_add; [|done|done]. by eexists.
  - cbn [fst snd]. rewrite get_update_same; [by eexists|done|].
    apply list_elem_of_fmap_2.
    assert (r ∈ where_fileName_equals (File.name (arg_originalFile a)) db) as Hin
      by (rewrite Hw; left).
    unfold where_fileName_equals in Hin. by apply list_elem_of_filter in Hin as [_ ?].
Qed.

Lemma saveImage_then_getImage_witness :
  keys_wf stored_db
  ∧ ∃ row,
      getImage (saveImage resave 2000 stored_db).1 (saveImage resave 2000 stored_db).2
      = Some row
      ∧ processedFile row = None ∧ createdAt row = 1000%Z ∧ updatedAt row = 2000%Z.
Proof.
  assert (Hk : keys_wf stored_db) by (split; vm_compute; repeat constructor).
  split; [exact Hk|].
  destruct (saveImage_then_getImage resave 2000 stored_db Hk)
    as (row & Hget & _ & _ & Hp & _ & _ & _ & Hu & Hc).
  exists row. split; [exact Hget|]. split; [exact Hp|]. split; [exact Hc|exact Hu].
Defined.

(** The table after one [saveImage] call, for a table with distinct keys
    and distinct names. *)
Lemma saveImage_images (a : SaveArgs) (now : Z) (db : DB) :
  keys_wf db → names_unique db →
  match where_fileName_equals (File.name (arg_originalFile a)) db with
  | [] => images (saveImage a now db).2
          = images db ++ [imageData a [] now (nextId db)]
  | r :: rest =>
      rest = [] ∧
      ∃ l1 l2, images db = l1 ++ r :: l2
               ∧ images (saveImage a now db).2 = l1 ++ overwritten a now r :: l2
  end.
Proof.
  intros Hk Hn. unfold saveImage.
  destruct (where_fileName_equals _ db) as [|r rest] eqn:Hw; [done|].
  destruct (filter_fileName_split (images db) (File.name (arg_originalFile a)) r rest)
    as (-> & Hr & l1 & l2 & Hsplit & Hall); [by apply keys_wf_NoDup|done|done|].
  split; [done|]. exists l1, l2. split; [done|]. cbn [snd].
  destruct db as [imgs next]. simpl in Hsplit. subst imgs.
  apply (update_images_split (id r) (imageData a [r] now) l1 r l2 next); [done|].
  eapply Forall_impl; [exact Hall|]. by intros x [_ ?].
Qed.

Lemma total_bytes_app (l1 l2 : list StoredImage) :
  total_bytes (l1 ++ l2) = (total_bytes l1 + total_bytes l2)%N.
Proof.
  induction l1 as [|x l1 IH]; [done|].
  simpl. unfold total_bytes in *. simpl. rewrite IH. lia.
Qed.

Lemma total_bytes_cons (x : StoredImage) (l : list StoredImage) :
  total_bytes (x :: l) = (record_bytes x + total_bytes l)%N.
Proof. done. Qed.

(** Size accounting of a save: the storage size afterwards, plus the bytes
    of the row that was stored under the name (none for a new name), is
    the storage size before plus the bytes of the files passed. *)
Theorem saveImage_storage_size (a : SaveArgs) (now : Z) (db : DB) :
  keys_wf db → names_unique db →
  (getStorageSize (saveImage a now db).2
   + total_bytes (where_fileName_equals (File.name (arg_originalFile a)) db)
   = getStorageSize db + args_bytes a)%N.
Proof.
  intros Hk Hn. rewrite !getStorageSize_total.
  pose proof (saveImage_images a now db Hk Hn) as Himg.
  destruct (where_fileName_equals _ db) as [|r rest] eqn:Hw.
  - rewrite Himg, total_bytes_app, total_bytes_cons. unfold total_bytes at 2 3. simpl.
    unfold record_bytes, args_bytes. simpl. lia.
  - destruct Himg as (-> & l1 & l2 & Hdb & ->). rewrite Hdb.
    rewrite !total_bytes_app, !total_bytes_cons. unfold total_bytes at 3. simpl.
    unfold record_bytes at 1, args_bytes. simpl. lia.
Qed.

Lemma saveImage_storage_size_witness :
  keys_wf stored_db ∧ names_unique stored_db
  ∧ (getStorageSize (saveImage resave 2000 stored_db).2
     + total_bytes (where_fileName_equals "a.jpg" stored_db)
     = getStorageSize stored_db + args_bytes resave)%N.
Proof.
  assert (Hk : keys_wf stored_db) by (split; vm_compute; repeat constructor).
  assert (Hn : names_unique stored_db).
  { unfold names_unique. vm_compute. repeat constructor. by intros ?%elem_of_nil. }
  split; [exact Hk|]. split; [exact Hn|].
  exact (saveImage_storage_size resave 2000 stored_db Hk Hn).
Defined.


(** One operation keeps the invariants of the table and never lowers the
    next key. *)
Lemma step_keeps (db : DB) (op : Op) :
  keys_wf db → names_unique db →
  keys_wf (step db op) ∧ names_unique (step db op)
  ∧ (nextId db ≤ nextId (step db op))%N.
Proof.
  intros Hk Hn. destruct op as [a now|key| |tz d now]; simpl.
  - destruct (saveImage_step a now db Hk Hn) as (? & ? & _).
    split; [done|]. split; [done|]. unfold saveImage.
    destruct (where_fileName_equals _ db); simpl; lia.
  - destruct (filter_keeps_invariants (λ r, id r ≠ key) db Hk Hn). 
    split; [done|]. split; [done|]. simpl. lia.
  - split; [split; constructor|]. split; [constructor|]. simpl. lia.
  - destruct (filter_keeps_invariants
                (λ r, id r ∉ map id (where_updatedAt_below
                                       (setDate_getDate_minus tz d now) db)) db Hk Hn).
    split; [done|]. split; [done|]. simpl. lia.
Qed.

Lemma run_ops_keeps (ops : list Op) :
  ∀ db, keys_wf db → names_unique db →
  keys_wf (run_ops ops db) ∧ names_unique (run_ops ops db)
  ∧ (nextId db ≤ nextId (run_ops ops db))%N.
Proof.
  induction ops as [|op ops IH]; intros db Hk Hn; simpl.
  - split; [done|]. split; [done|]. lia.
  - destruct (step_keeps db op Hk Hn) as (Hk' & Hn' & Hnext).
    destruct (IH _ Hk' Hn') as (? & ? & ?). unfold run_ops in *.
    split; [done|]. split; [done|]. lia.
Qed.

Lemma filter_keeps_keys (P : StoredImage → Prop) `{∀ x, Decision (P x)} db :
  keys_wf db → keys_wf (mkDB (filter P (images db)) (nextId db)).
Proof.
  unfold keys_wf. cbn [images nextId]. intros [Hs Hb]. split.
  - clear Hb. induction (images db) as [|x l IH]; [done|].
    csimpl in *. apply StronglySorted_cons in Hs as [Hx Hs].
    rewrite filter_cons. destruct (decide (P x)); [|by apply IH]. csimpl.
    apply StronglySorted_cons. split; [|by apply IH].
    apply Forall_forall. intros y Hy%fmap_filter_elem.
    rewrite Forall_forall in Hx. by apply Hx.
  - apply Forall_forall. intros x [_ Hx]%list_elem_of_filter.
    rewrite Forall_forall in Hb. by apply Hb.
Qed.

(** One event keeps the keys distinct, increasing and below the next
    key, whatever calls are waiting. *)
Lemma event_keeps_keys (s : Run) (e : Event) :
  keys_wf (store s) → keys_wf (store (Async.step s e)).
Proof.
  intros Hk. destruct e as [a now|tz d now|i|key|]; cbn [Async.step store]; try done.
  - destruct (calls s !! i) as [[[a now existing|ids]|]|]; cbn [store]; try done.
    + by apply saveImage_write_keys.
    + by apply filter_keeps_keys.
  - by apply filter_keeps_keys.
  - split; constructor.
Qed.

Lemma run_keeps_keys (events : list Event) :
  ∀ s, keys_wf (store s) → keys_wf (store (run events s)).
Proof.
  induction events as [|e events IH]; intros s Hk; [done|].
  cbn [run foldl]. apply IH. by apply event_keeps_keys.
Qed.

(** Operations that run uninterrupted are the operations run in turn. *)
Lemma run_uninterrupted (ops : list Op) :
  ∀ s, ∃ finished,
    run (uninterrupted (length (calls s)) ops) s
    = mkRun (run_ops ops (store s)) (calls s ++ finished).
Proof.
  induction ops as [|op ops IH]; intros [db made].
  - exists []. cbn. by rewrite app_nil_r.
  - destruct op as [a now|key| |tz d now];
      cbn [uninterrupted run foldl Async.step store calls].
    + rewrite lookup_app_r by done. rewrite Nat.sub_diag. cbn [lookup list_lookup].
      rewrite insert_app_r_alt by done. rewrite Nat.sub_diag. cbn [insert list_insert].
      rewrite <- saveImage_uninterrupted.
      destruct (IH (mkRun (saveImage a now db).2 (made ++ [None]))) as (finished & Hrun).
      cbn [calls store] in Hrun. rewrite length_app in Hrun. cbn [length] in Hrun.
      rewrite Nat.add_1_r in Hrun. unfold run in Hrun. rewrite Hrun.
      exists (None :: finished). unfold run_ops. cbn [foldl StoreOps.step].
      by rewrite <- app_assoc.
    + destruct (IH (mkRun (deleteImage key db) made)) as (finished & Hrun).
      cbn [calls store] in Hrun. unfold run in Hrun. rewrite Hrun. by exists finished.
    + destruct (IH (mkRun (clearAllImages db) made)) as (finished & Hrun).
      cbn [calls store] in Hrun. unfold run in Hrun. rewrite Hrun. by exists finished.
    + rewrite lookup_app_r by done. rewrite Nat.sub_diag. cbn [lookup list_lookup].
      rewrite insert_app_r_alt by done. rewrite Nat.sub_diag. cbn [insert list_insert].
      destruct (IH (mkRun (cleanupOldImages tz d now db).2 (made ++ [None])))
        as (finished & Hrun).
      cbn [calls store] in Hrun. rewrite length_app in Hrun. cbn [length] in Hrun.
      rewrite Nat.add_1_r in Hrun. unfold run in Hrun.
      unfold cleanupOldImages in Hrun at 1. cbn [snd] in Hrun. rewrite Hrun.
      exists (None :: finished). unfold run_ops. cbn [foldl StoreOps.step].
      by rewrite <- app_assoc.
Qed.

(** What holds of every store the program can reach from the empty one.
    Whatever operations run and however [saveImage] and
    [cleanupOldImages] calls overlap (each queries when it is called and
    writes when it resumes), the rows keep distinct, increasing keys
    below the next key.  When every call runs to its end before the next
    operation starts, the rows also keep distinct file names. *)
Theorem store_reachable_invariants (events : list Event) (ops : list Op) :
  keys_wf (store (run events (fresh empty)))
  ∧ names_unique (store (run (uninterrupted 0 ops) (fresh empty)))
  ∧ store (run (uninterrupted 0 ops) (fresh empty)) = run_ops ops empty.
Proof.
  split; [apply run_keeps_keys, keys_wf_empty|].
  destruct (run_uninterrupted ops (fresh empty)) as (finished & Hrun).
  cbn [fresh calls store length] in Hrun. rewrite Hrun. cbn [store fresh].
  destruct (run_ops_keeps ops empty keys_wf_empty names_unique_empty) as (_ & ? & _).
  by split.
Qed.

(** A key is handed out once: the key that [saveImage] gives to a new
    name is carried by no row of any earlier state of the store, whatever
    was deleted, cleared or swept in between. *)
Theorem keys_never_reused (before after : list Op) (a : SaveArgs) (now : Z) :
  let earlier := run_ops before empty in
  let current := run_ops after earlier in
  where_fileName_equals (File.name (arg_originalFile a)) current = [] →
  ∀ r, r ∈ images earlier → id r ≠ (saveImage a now current).1.
Proof.
  intros earlier current Hnew r Hr.
  destruct (run_ops_keeps before empty keys_wf_empty names_unique_empty)
    as (Hk & Hn & _).
  destruct (run_ops_keeps after earlier Hk Hn) as (_ & _ & Hnext).
  destruct Hk as [_ Hb]. unfold saveImage. rewrite Hnew. simpl.
  rewrite Forall_forall in Hb. specialize (Hb r Hr). fold earlier in Hb.
  fold current in Hnext. lia.
Qed.


Lemma keys_never_reused_witness :
  where_fileName_equals (File.name (arg_originalFile resave))
    (run_ops [Delete 1] (run_ops [Save first_save 1000] empty)) = []
  ∧ (saveImage resave 2000 (run_ops [Delete 1] (run_ops [Save first_save 1000] empty))).1
    = 2%N
  ∧ ∀ r, r ∈ images (run_ops [Save first_save 1000] empty) →
         id r ≠ (saveImage resave 2000
                   (run_ops [Delete 1] (run_ops [Save first_save 1000] empty))).1.
Proof.
  split; [reflexivity|]. split; [reflexivity|].
  exact (keys_never_reused [Save first_save 1000] [Delete 1] resave 2000 eq_refl).
Defined.

Lemma delete_absent (key : N) (db : DB) :
  Forall (λ r, id r ≠ key) (images db) → deleteImage key db = db.
Proof.
  intros Hall. unfold deleteImage, delete. destruct db as [imgs next]. simpl in *. f_equal.
  induction Hall as [|x l Hx _ IH]; [done|].
  by rewrite filter_cons_True, IH.
Qed.

(** A key that no row carries: [getImage] finds nothing and
    [deleteImage] leaves the store exactly as it is.  Conversely a row
    that [getImage] returns is a row of the table and carries the key. *)
Theorem missing_key_is_harmless (key : N) (db : DB) :
  Forall (λ r, id r ≠ key) (images db) →
  getImage key db = None
  ∧ deleteImage key db = db
  ∧ ∀ key' r, getImage key' db = Some r → r ∈ images db ∧ id r = key' ∧ key' ≠ key.
Proof.
  intros Hall. split; [by apply get_absent|]. split; [by apply delete_absent|].
  intros key' r Hget. destruct (get_Some_elem key' db r Hget) as [Hr Hid].
  split; [done|]. split; [done|]. rewrite Forall_forall in Hall.
  rewrite <- Hid. by apply Hall.
Qed.

Lemma missing_key_is_harmless_witness :
  Forall (λ r, id r ≠ 7%N) (images stored_db)
  ∧ getImage 7 stored_db = None
  ∧ deleteImage 7 stored_db = stored_db.
Proof.
  assert (Hall : Forall (λ r, id r ≠ 7%N) (images stored_db))
    by (vm_compute; repeat constructor; discriminate).
  split; [exact Hall|].
  destruct (missing_key_is_harmless 7 stored_db Hall) as (Hget & Hdel & _).
  split; [exact Hget|exact Hdel].
Defined.

(** A sweep keeps what is recent.  In a time zone whose offsets from UTC
    all lie within an interval of length [spread] (an hour, where
    daylight saving time is observed), [cleanupOldImages] keeps every
    row that is not older than [d] times 24 hours less the spread; when
    [d] days are at least the spread, every row written at or after the
    time of the sweep; and a sweep that keeps [d'] days keeps every row
    that a sweep keeping [d] days keeps, when [d'] days exceed [d] days
    by twice the spread or more. *)
Theorem cleanupOldImages_keeps_recent (tz : TimeZone) (lo hi d d' now : Z) (db : DB) :
  keys_wf db → offsets_within tz lo hi →
  let spread := (hi - lo)%Z in
  (∀ r, r ∈ images db → (now - d * msPerDay + spread ≤ updatedAt r)%Z →
        r ∈ images (cleanupOldImages tz d now db).2)
  ∧ ((spread ≤ d * msPerDay)%Z → ∀ r, r ∈ images db → (now ≤ updatedAt r)%Z →
        r ∈ images (cleanupOldImages tz d now db).2)
  ∧ ((d * msPerDay + 2 * spread ≤ d' * msPerDay)%Z →
        ∀ r, r ∈ images (cleanupOldImages tz d now db).2 →
        r ∈ images (cleanupOldImages tz d' now db).2).
Proof.
  intros Hk%keys_wf_NoDup Htz spread.
  assert (Hsweep : ∀ n, images (cleanupOldImages tz n now db).2
            = filter (λ r, ¬ (updatedAt r < calendar_cutoff tz n now)%Z) (images db)).
  { intros n. unfold cleanupOldImages. rewrite setDate_getDate_minus_eq. cbn [snd].
    apply (bulkDelete_selected (λ r, (updatedAt r < calendar_cutoff tz n now)%Z) db Hk). }
  assert (Hcut : ∀ n, (now - n * msPerDay - spread ≤ calendar_cutoff tz n now
                       ≤ now - n * msPerDay + spread)%Z).
  { intros n. unfold calendar_cutoff, UTC, LocalTime, spread.
    destruct (Htz now) as [Hu _].
    destruct (Htz (now + offset_at_utc tz now - n * msPerDay)%Z) as [_ Hl]. lia. }
  split; [|split].
  - intros r Hr Hrecent. rewrite Hsweep. apply list_elem_of_filter.
    split; [|done]. specialize (Hcut d). lia.
  - intros Hd r Hr Hrecent. rewrite Hsweep. apply list_elem_of_filter.
    split; [|done]. specialize (Hcut d). lia.
  - intros Hdd r. rewrite !Hsweep, !list_elem_of_filter. intros [Hold Hr].
    split; [|done]. pose proof (Hcut d). pose proof (Hcut d'). lia.
Qed.

Lemma cleanupOldImages_keeps_recent_witness :
  keys_wf aged_db ∧ offsets_within new_york (-18000000) (-14400000)
  ∧ ∀ r, r ∈ images (cleanupOldImages new_york 30 (100 * msPerDay) aged_db).2 →
         r ∈ images (cleanupOldImages new_york 45 (100 * msPerDay) aged_db).2.
Proof.
  assert (Hwf : keys_wf aged_db) by (split; vm_compute; repeat constructor).
  assert (Htz : offsets_within new_york (-18000000) (-14400000)).
  { intros t. unfold new_york. cbn [offset_at_utc offset_at_local].
    destruct (t <? 1710054000000)%Z, (t <? 1710054000000 - 14400000)%Z; lia. }
  split; [exact Hwf|]. split; [exact Htz|].
  destruct (cleanupOldImages_keeps_recent new_york (-18000000) (-14400000) 30 45
              (100 * msPerDay) aged_db Hwf Htz) as (_ & _ & Hmono).
  apply Hmono. unfold msPerDay. lia.
Defined.

Lemma total_bytes_filter_split (P : StoredImage → Prop) `{∀ x, Decision (P x)}
    (l : list StoredImage) :
  total_bytes l = (total_bytes (filter P l) + total_bytes (filter (λ r, ¬ P r) l))%N.
Proof.
  induction l as [|x l IH]; [done|]. rewrite !filter_cons, total_bytes_cons, IH.
  destruct (decide (P x)).
  - rewrite decide_False by tauto. rewrite total_bytes_cons. lia.
  - rewrite decide_True by done. rewrite total_bytes_cons. lia.
Qed.

End StoreMoreFacts.

Module SettingsFacts.
Import Store StoreSpec StoreOps StoreFacts SweepFacts SummaryFacts StoreMoreFacts Examples.

(** After [handleClearCache] the values the dialog shows without asking
    the store are those the store would report: no rows, no bytes,
    ["0 Bytes"].  The list of rows is empty and the next key is kept. *)
Theorem handleClearCache_consistent (db : DB) :
  getStorageInfo (Settings.handleClearCache db).1 = (Settings.handleClearCache db).2
  ∧ getImages (Settings.handleClearCache db).1 = []
  ∧ nextId (Settings.handleClearCache db).1 = nextId db.
Proof. done. Qed.

(** The accounting of [handleCleanupOld] on a table with distinct keys:
    the count shown afterwards plus the number in the alert is the count
    before; the total size shown afterwards plus the bytes of the rows
    that were last written before the cutoff is the total size before;
    and no such row is left.  The cutoff is the instant 30 calendar days
    before [now] at the same local wall-clock time. *)
Theorem handleCleanupOld_accounting (tz : TimeZone) (now : Z) (db : DB) :
  keys_wf db →
  let '(deletedCount, db', info) := Settings.handleCleanupOld tz now db in
  let cutoff := calendar_cutoff tz 30 now in
  let old := filter (λ r, (updatedAt r < cutoff)%Z) (images db) in
  deletedCount = length old
  ∧ count info + deletedCount = count (getStorageInfo db)
  ∧ (totalSize info + total_bytes old = totalSize (getStorageInfo db))%N
  ∧ info = getStorageInfo db'
  ∧ Forall (λ r, (cutoff ≤ updatedAt r)%Z) (images db').
Proof.
  intros Hk%keys_wf_NoDup. unfold Settings.handleCleanupOld, cleanupOldImages.
  rewrite setDate_getDate_minus_eq. unfold where_updatedAt_below.
  set (cutoff := calendar_cutoff tz 30 now).
  pose proof (bulkDelete_selected (λ r, (updatedAt r < cutoff)%Z) db Hk) as Hdel.
  cbv zeta. unfold getStorageInfo. cbn [count totalSize]. unfold toArray.
  rewrite !getStorageSize_total, Hdel.
  split; [by rewrite length_map|]. split; [|split; [|split]].
  - rewrite length_map.
    rewrite (length_filter_split (λ r, (updatedAt r < cutoff)%Z) (images db)). lia.
  - rewrite (total_bytes_filter_split (λ r, (updatedAt r < cutoff)%Z) (images db)). lia.
  - done.
  - apply Forall_forall. intros r [Hr _]%list_elem_of_filter. lia.
Qed.

Lemma handleCleanupOld_accounting_witness :
  keys_wf recent_db
  ∧ let '(deletedCount, db', info) :=
        Settings.handleCleanupOld new_york spring_noon recent_db in
    let cutoff := calendar_cutoff new_york 30 spring_noon in
    let old := filter (λ r, (updatedAt r < cutoff)%Z) (images recent_db) in
    deletedCount = length old
    ∧ count info + deletedCount = count (getStorageInfo recent_db)
    ∧ (totalSize info + total_bytes old = totalSize (getStorageInfo recent_db))%N
    ∧ info = getStorageInfo db'
    ∧ Forall (λ r, (cutoff ≤ updatedAt r)%Z) (images db').
Proof.
  assert (Hwf : keys_wf recent_db) by (split; vm_compute; repeat constructor).
  split; [exact Hwf|].
  exact (handleCleanupOld_accounting new_york spring_noon recent_db Hwf).
Defined.

End SettingsFacts.

Module FormatFacts.
Import Store StoreSpec SummaryFacts Examples.

Lemma Qfloor_eq (x : Q) (k : Z) :
  (inject_Z k <= x)%Q → (x < inject_Z k + 1)%Q → Qfloor x = k.
Proof.
  intros Hlo Hhi.
  pose proof (Qfloor_le x) as Hfl. pose proof (Qlt_floor x) as Hfh.
  assert (Qfloor x < k + 1)%Z.
  { rewrite Zlt_Qlt, inject_Z_plus. change (inject_Z 1) with 1%Q. lra. }
  assert (k < Qfloor x + 1)%Z.
  { rewrite Zlt_Qlt. lra. }
  lia.
Qed.

Lemma toFixed2_of_hundredths (x : Q) (n : N) :
  (inject_Z (Z.of_N n) - (1 # 2) <= x * 100)%Q →
  (x * 100 < inject_Z (Z.of_N n) + (1 # 2))%Q →
  toFixed2 x = n.
Proof.
  intros Hlo Hhi. unfold toFixed2. rewrite (Qfloor_eq _ (Z.of_N n)); [lia|lra|lra].
Qed.

Lemma string_of_hundredths_whole (n : N) :
  string_of_hundredths (100 * n) = string_of_N n.
Proof.
  unfold string_of_hundredths.
  replace ((100 * n) mod 100)%N with 0%N
    by (symmetry; rewrite N.mul_comm; apply N.Div0.mod_mul).
  replace (100 * n / 100)%N with n
    by (symmetry; rewrite N.mul_comm; apply N.div_mul; lia).
  done.
Qed.

Lemma floor_log1024_unique (bytes i : N) :
  (1024 ^ i ≤ bytes < 1024 ^ (i + 1))%N → floor_log1024 bytes = i.
Proof.
  intros [Hlo Hhi].
  assert (0 < bytes)%N as Hpos.
  { eapply N.lt_le_trans; [|exact Hlo]. apply N.neq_0_lt_0, N.pow_nonzero. lia. }
  destruct (floor_log1024_spec bytes Hpos) as [Hlo' Hhi'].
  set (j := floor_log1024 bytes) in *. clearbody j.
  destruct (N.lt_trichotomy j i) as [Hlt|[->|Hgt]]; [|done|]; exfalso.
  - assert (1024 ^ (j + 1) ≤ 1024 ^ i)%N by (apply N.pow_le_mono_r; lia). lia.
  - assert (1024 ^ (i + 1) ≤ 1024 ^ j)%N by (apply N.pow_le_mono_r; lia). lia.
Qed.

(** Below 1024 bytes the text is the number itself, without decimals,
    followed by ["Bytes"]. *)
Theorem formatBytes_below_1024 (bytes : N) :
  (0 < bytes < 1024)%N → formatBytes bytes = string_of_N bytes +:+ " Bytes".
Proof.
  intros [Hpos Hlt]. unfold formatBytes.
  rewrite (proj2 (N.eqb_neq bytes 0)) by lia.
  rewrite (floor_log1024_unique bytes 0) by (simpl; lia). simpl.
  rewrite (toFixed2_of_hundredths _ (100 * bytes)).
  - by rewrite string_of_hundredths_whole.
  - rewrite N2Z.inj_mul, inject_Z_mult. simpl.
    assert (inject_Z (Z.of_N bytes) / inject_Z 1 == inject_Z (Z.of_N bytes))%Q as ->
      by (field). change (inject_Z 100) with 100%Q. lra.
  - rewrite N2Z.inj_mul, inject_Z_mult. simpl.
    assert (inject_Z (Z.of_N bytes) / inject_Z 1 == inject_Z (Z.of_N bytes))%Q as ->
      by (field). change (inject_Z 100) with 100%Q. lra.
Qed.

Lemma formatBytes_below_1024_witness :
  (0 < 1023 < 1024)%N ∧ formatBytes 1023 = "1023 Bytes".
Proof.
  split; [lia|]. exact (formatBytes_below_1024 1023 ltac:(lia)).
Defined.

(** Just below the next unit the text does not move on to it: a total
    within half a hundredth of 1024 units prints as ["1024"] followed by
    the smaller unit (1048575 bytes are ["1024 KB"], not ["1 MB"]). *)
Theorem formatBytes_rounds_to_1024 (bytes i : N) (unit : string) :
  sizes !! N.to_nat i = Some unit →
  (bytes < 1024 ^ (i + 1))%N →
  (204799 * 1024 ^ i ≤ 200 * bytes)%N →
  formatBytes bytes = "1024 " +:+ unit.
Proof.
  intros Hunit Hhi Hlo.
  assert (0 < 1024 ^ i)%N as Hp by (apply N.neq_0_lt_0, N.pow_nonzero; lia).
  assert (1024 ^ i ≤ bytes)%N as Hge by lia.
  unfold formatBytes. rewrite (proj2 (N.eqb_neq bytes 0)) by lia.
  rewrite (floor_log1024_unique bytes i) by done. rewrite Hunit. simpl.
  rewrite (toFixed2_of_hundredths _ 102400); [done| |].
  - assert (1024 ^ Z.of_N i = Z.of_N (1024 ^ i))%Z as -> by (by rewrite N2Z.inj_pow).
    set (p := (1024 ^ i)%N) in *. clearbody p.
    assert (0 < inject_Z (Z.of_N p))%Q by (change 0%Q with (inject_Z 0); rewrite <- Zlt_Qlt; lia).
    assert (inject_Z 204799 * inject_Z (Z.of_N p) <= inject_Z 200 * inject_Z (Z.of_N bytes))%Q
      as Hq by (rewrite <- !inject_Z_mult, <- Zle_Qle; lia).
    assert (inject_Z (Z.of_N bytes) / inject_Z (Z.of_N p) * inject_Z (Z.of_N p)
            == inject_Z (Z.of_N bytes))%Q as Hdiv by (field; lra).
    set (x := (inject_Z (Z.of_N bytes) / inject_Z (Z.of_N p))%Q) in *. clearbody x.
    change (inject_Z (Z.of_N 102400)) with 102400%Q.
    change (inject_Z 204799) with 204799%Q in Hq. change (inject_Z 200) with 200%Q in Hq.
    nra.
  - assert (1024 ^ Z.of_N i = Z.of_N (1024 ^ i))%Z as -> by (by rewrite N2Z.inj_pow).
    rewrite N.pow_add_r, N.pow_1_r in Hhi.
    set (p := (1024 ^ i)%N) in *. clearbody p.
    assert (0 < inject_Z (Z.of_N p))%Q by (change 0%Q with (inject_Z 0); rewrite <- Zlt_Qlt; lia).
    assert (inject_Z (Z.of_N bytes) < inject_Z (Z.of_N p) * inject_Z 1024)%Q
      as Hq by (rewrite <- !inject_Z_mult, <- Zlt_Qlt; lia).
    assert (inject_Z (Z.of_N bytes) / inject_Z (Z.of_N p) * inject_Z (Z.of_N p)
            == inject_Z (Z.of_N bytes))%Q as Hdiv by (field; lra).
    set (x := (inject_Z (Z.of_N bytes) / inject_Z (Z.of_N p))%Q) in *. clearbody x.
    change (inject_Z (Z.of_N 102400)) with 102400%Q.
    change (inject_Z 1024) with 1024%Q in Hq.
    nra.
Qed.

Lemma formatBytes_rounds_to_1024_witness :
  sizes !! N.to_nat 1 = Some "KB"
  ∧ (1048575 < 1024 ^ (1 + 1))%N ∧ (204799 * 1024 ^ 1 ≤ 200 * 1048575)%N
  ∧ formatBytes 1048575 = "1024 KB".
Proof.
  split; [reflexivity|]. split; [reflexivity|]. split; [vm_compute; discriminate|].
  apply (formatBytes_rounds_to_1024 1048575 1 "KB"); [reflexivity|reflexivity|].
  vm_compute. discriminate.
Defined.

End FormatFacts.

Module AppFacts.
Import JS Store Async StoreSpec StoreOps AppSpec StoreFacts SweepFacts StoreMoreFacts App AppState Examples.

(** With distinct names, the rows found under the name of a row are that
    row alone. *)
Lemma where_own_name (db : DB) (r : StoredImage) :
  keys_wf db → names_unique db → r ∈ images db →
  where_fileName_equals (fileName r) db = [r].
Proof.
  intros Hk Hn Hr.
  assert (r ∈ where_fileName_equals (fileName r) db) as Hin
    by (by apply list_elem_of_filter).
  destruct (where_fileName_equals (fileName r) db) as [|r' rest] eqn:Hw;
    [by apply elem_of_nil in Hin|].
  destruct (filter_fileName_split (images db) (fileName r) r' rest)
    as (-> & _); [by apply keys_wf_NoDup|done|done|].
  by apply list_elem_of_singleton in Hin as ->.
Qed.

(** [saveImage] leaves the rows stored under other names as they are. *)
Lemma saveImage_other_names (a : SaveArgs) (now : Z) (db : DB) (n : string) :
  keys_wf db → names_unique db → n ≠ File.name (arg_originalFile a) →
  where_fileName_equals n (saveImage a now db).2 = where_fileName_equals n db.
Proof.
  intros Hk Hn Hne. pose proof (saveImage_images a now db Hk Hn) as Himg.
  unfold where_fileName_equals at 1 2.
  destruct (where_fileName_equals (File.name (arg_originalFile a)) db) as [|r rest] eqn:Hw.
  - rewrite Himg, filter_app. rewrite (filter_cons_False _ _ []) by (simpl; congruence).
    by rewrite app_nil_r.
  - destruct Himg as (-> & l1 & l2 & Hdb & ->). rewrite Hdb, !filter_app.
    assert (fileName r = File.name (arg_originalFile a)) as Hr.
    { assert (r ∈ where_fileName_equals (File.name (arg_originalFile a)) db) as Hin
        by (rewrite Hw; left).
      by apply list_elem_of_filter in Hin as [? _]. }
    rewrite (filter_cons_False _ (overwritten a now r)) by (simpl; congruence).
    by rewrite (filter_cons_False _ r) by congruence.
Qed.

(** The frame of a save: every row stored under another name is still in
    the table, unchanged, and the table has no row beyond those and the
    one under the saved name. *)
Theorem saveImage_touches_one_name (a : SaveArgs) (now : Z) (db : DB) :
  keys_wf db → names_unique db →
  ∀ r, fileName r ≠ File.name (arg_originalFile a) →
       (r ∈ images (saveImage a now db).2 ↔ r ∈ images db).
Proof.
  intros Hk Hn r Hne.
  pose proof (saveImage_other_names a now db (fileName r) Hk Hn Hne) as Hw.
  unfold where_fileName_equals in Hw.
  split; intros Hr.
  - assert (r ∈ filter (λ x, fileName x = fileName r) (images (saveImage a now db).2))
      as Hin by (by apply list_elem_of_filter).
    rewrite Hw in Hin. by apply list_elem_of_filter in Hin as [_ ?].
  - assert (r ∈ filter (λ x, fileName x = fileName r) (images db))
      as Hin by (by apply list_elem_of_filter).
    rewrite <- Hw in Hin. by apply list_elem_of_filter in Hin as [_ ?].
Qed.

Lemma saveImage_touches_one_name_witness :
  keys_wf stored_db ∧ names_unique stored_db
  ∧ ∀ r, fileName r ≠ File.name (arg_originalFile (mkSaveArgs huge_file None None None)) →
         (r ∈ images (saveImage (mkSaveArgs huge_file None None None) 5000 stored_db).2
          ↔ r ∈ images stored_db).
Proof.
  assert (Hk : keys_wf stored_db) by (split; vm_compute; repeat constructor).
  assert (Hn : names_unique stored_db).
  { unfold names_unique. vm_compute. repeat constructor. by intros ?%elem_of_nil. }
  split; [exact Hk|]. split; [exact Hn|].
  exact (saveImage_touches_one_name (mkSaveArgs huge_file None None None) 5000
           stored_db Hk Hn).
Defined.

Lemma find_image_loaded (l : list StoredImage) (r : StoredImage) :
  NoDup (Store.id <$> l) → r ∈ l →
  find_image (Store.id r) (map storedImageToImageFile l) = Some (storedImageToImageFile r).
Proof.
  unfold find_image. induction l as [|x l IH]; csimpl; [by intros _ ?%elem_of_nil|].
  intros [Hx Hl]%NoDup_cons [->|Hr]%elem_of_cons.
  - by rewrite filter_cons_True.
  - rewrite filter_cons_False; [by apply IH|]. simpl. intros Heq. apply Hx.
    rewrite Heq. by apply list_elem_of_fmap_2.
Qed.

(** Loading the list from the store and writing an entry back: for an
    entry read from a row, [onImageUpdate] leaves under the row's key a
    row with the same name, the same [createdAt] and the same bytes of
    the original and of the processed file; the preset and the format
    are those of [updates] where it gives them and the stored ones where
    it does not.  The number of rows and the rows under other keys are
    unchanged. *)
Theorem load_update_round_trip (db : DB) (r : StoredImage) (updates : Updates)
    (now : Z) :
  keys_wf db → names_unique db → r ∈ images db →
  let db' := onImageUpdate (Store.id r) updates (loadStoredImages db) now db in
  ∃ row,
    getImage (Store.id r) db' = Some row
    ∧ fileName row = fileName r
    ∧ createdAt row = createdAt r
    ∧ updatedAt row = now
    ∧ blob_of (originalFile row) = blob_of (originalFile r)
    ∧ blob_of <$> Store.processedFile row = blob_of <$> Store.processedFile r
    ∧ Store.lastPreset row = or_string (upd_lastPreset updates) (Store.lastPreset r)
    ∧ Store.lastFormat row = or_format (upd_lastFormat updates) (Store.lastFormat r)
    ∧ length (images db') = length (images db)
    ∧ ∀ key, key ≠ Store.id r → getImage key db' = getImage key db.
Proof.
  intros Hk Hn Hr db'. subst db'. unfold onImageUpdate, loadStoredImages, getImages, toArray.
  rewrite (find_image_loaded (images db) r) by (by apply keys_wf_NoDup || done).
  unfold saveImage. cbn [arg_originalFile file storedImageToImageFile rewrap File.name].
  rewrite (where_own_name db r Hk Hn Hr). cbn [snd].
  unfold getImage. eexists. split.
  { apply get_update_same; [done|]. by apply list_elem_of_fmap_2. }
  cbn. split; [done|]. split; [done|]. split; [done|]. split; [done|].
  split; [by destruct (Store.processedFile r)|]. split; [done|]. split; [done|].
  split; [by rewrite length_map|].
  intros key Hkey. by apply get_update_other.
Qed.

Lemma load_update_round_trip_witness :
  keys_wf stored_db ∧ names_unique stored_db ∧ stored_row ∈ images stored_db
  ∧ ∃ row,
      getImage 1 (onImageUpdate 1 (mkUpdates (Some "us-passport") None)
                    (loadStoredImages stored_db) 7000 stored_db) = Some row
      ∧ createdAt row = 1000%Z
      ∧ Store.lastPreset row = Some "us-passport"
      ∧ Store.lastFormat row = Some jpeg.
Proof.
  assert (Hk : keys_wf stored_db) by (split; vm_compute; repeat constructor).
  assert (Hn : names_unique stored_db).
  { unfold names_unique. vm_compute. repeat constructor. by intros ?%elem_of_nil. }
  assert (Hr : stored_row ∈ images stored_db) by (vm_compute; left).
  split; [exact Hk|]. split; [exact Hn|]. split; [exact Hr|].
  destruct (load_update_round_trip stored_db stored_row
              (mkUpdates (Some "us-passport") None) 7000 Hk Hn Hr)
    as (row & Hget & _ & Hc & _ & _ & _ & Hp & Hf & _).
  exists row. split; [exact Hget|]. split; [exact Hc|]. split; [exact Hp|exact Hf].
Defined.

(** A row of the table is among the rows found under its name. *)
Lemma where_elem (db : DB) (r : StoredImage) :
  r ∈ images db ↔ r ∈ where_fileName_equals (fileName r) db.
Proof.
  unfold where_fileName_equals. rewrite list_elem_of_filter. by split; [|intros []].
Qed.

(** The row a save leaves under the name of the file holds the files of
    the call. *)
Lemma saveImage_saved_row (a : SaveArgs) (now : Z) (db : DB) :
  keys_wf db → names_unique db →
  keys_wf (saveImage a now db).2 ∧ names_unique (saveImage a now db).2
  ∧ ∃ row, where_fileName_equals (File.name (arg_originalFile a)) (saveImage a now db).2
           = [row]
      ∧ originalFile row = arg_originalFile a
      ∧ Store.processedFile row = arg_processedFile a.
Proof.
  intros Hk Hn.
  destruct (saveImage_step a now db Hk Hn) as (Hk' & Hn' & row & Hrow & _ & _).
  split; [done|]. split; [done|].
  pose proof (saveImage_images a now db Hk Hn) as Himg.
  assert (∃ x, x ∈ images (saveImage a now db).2
               ∧ fileName x = File.name (arg_originalFile a)
               ∧ originalFile x = arg_originalFile a
               ∧ Store.processedFile x = arg_processedFile a) as (x & Hx & Hname & Ho & Hp).
  { destruct (where_fileName_equals _ db) as [|r rest].
    - eexists. split; [rewrite Himg; apply elem_of_app; right; left|]. done.
    - destruct Himg as (_ & l1 & l2 & _ & ->).
      eexists. split; [apply elem_of_app; right; left|]. done. }
  exists x. split; [|done]. rewrite <- Hname. by apply where_own_name.
Qed.

(** A sequence of saves keeps the invariants; a name that had one row, or
    is the name of one of the saves, has one row afterwards; any other
    name has the rows it had. *)
Lemma run_saves_where (n : string) (calls : list (SaveArgs * Z)) :
  ∀ db, keys_wf db → names_unique db →
  keys_wf (run_saves calls db) ∧ names_unique (run_saves calls db)
  ∧ (((∃ row, where_fileName_equals n db = [row])
      ∨ Exists (λ c, File.name (arg_originalFile c.1) = n) calls) →
     ∃ row, where_fileName_equals n (run_saves calls db) = [row])
  ∧ (Forall (λ c, File.name (arg_originalFile c.1) ≠ n) calls →
     where_fileName_equals n (run_saves calls db) = where_fileName_equals n db).
Proof.
  induction calls as [|[a now] calls IH]; intros db Hk Hn.
  - split; [done|]. split; [done|]. split; [|done].
    intros [?|?%Exists_nil]; done.
  - destruct (saveImage_step a now db Hk Hn) as (Hk' & Hn' & row & Hrow & _ & _).
    destruct (IH _ Hk' Hn') as (Hk'' & Hn'' & Hone & Hsame).
    unfold run_saves in *. cbn [foldl fst snd].
    split; [done|]. split; [done|]. split.
    + intros Hcase. apply Hone.
      destruct (decide (File.name (arg_originalFile a) = n)) as [<-|Hne].
      { left. by exists row. }
      rewrite (saveImage_other_names a now db n) by done.
      destruct Hcase as [?|[?|?]%Exists_cons]; [by left|done|by right].
    + intros [Ha Hall]%Forall_cons. cbn in Ha.
      rewrite Hsame by done. by apply saveImage_other_names.
Qed.

(** After saves run in turn, the row under a name that one of them used
    holds the original file of one of the saves under that name. *)
Lemma run_saves_row_from (n : string) (saves : list (SaveArgs * Z)) (db : DB) :
  keys_wf db → names_unique db →
  Exists (λ c, File.name (arg_originalFile c.1) = n) saves →
  ∃ row c, where_fileName_equals n (run_saves saves db) = [row]
    ∧ c ∈ saves ∧ File.name (arg_originalFile c.1) = n
    ∧ originalFile row = arg_originalFile c.1.
Proof.
  intros Hk Hn. induction saves as [|[a now] saves IH] using rev_ind.
  { by intros ?%Exists_nil. }
  intros Hex. unfold run_saves in *. rewrite foldl_app. cbn [foldl fst snd].
  destruct (run_saves_where n saves db Hk Hn) as (Hk' & Hn' & _).
  unfold run_saves in Hk', Hn'.
  destruct (decide (File.name (arg_originalFile a) = n)) as [Ha|Ha].
  - destruct (saveImage_saved_row a now _ Hk' Hn') as (_ & _ & row & Hrow & Ho & _).
    exists row, (a, now). rewrite <- Ha. split; [done|].
    split; [apply elem_of_app; right; by left|]. by split.
  - apply Exists_app in Hex as [Hex|Hex].
    2:{ apply Exists_cons in Hex as [?|?%Exists_nil]; done. }
    destruct (IH Hex) as (row & c & Hrow & Hc & Hname & Ho).
    exists row, c. rewrite saveImage_other_names by done.
    split; [done|]. split; [apply elem_of_app; by left|]. by split.
Qed.

(** The last save of a sequence decides the files of its row. *)
Lemma run_saves_last (calls : list (SaveArgs * Z)) (a : SaveArgs) (now : Z) (db : DB) :
  keys_wf db → names_unique db →
  ∃ row, where_fileName_equals (File.name (arg_originalFile a))
           (run_saves (calls ++ [(a, now)]) db) = [row]
    ∧ originalFile row = arg_originalFile a
    ∧ Store.processedFile row = arg_processedFile a.
Proof.
  intros Hk Hn. unfold run_saves. rewrite foldl_app. cbn [foldl fst snd].
  destruct (run_saves_where "" calls db Hk Hn) as (Hk' & Hn' & _).
  by destruct (saveImage_saved_row a now _ Hk' Hn') as (_ & _ & ?).
Qed.

Section uploads.
Context {A : Type} `{Number A}.

(** Resizing keeps the name, the type and the time stamp of the file. *)
Lemma resize_keeps_name (env : Browser) (file : File.t) (maxHeight : Z) :
  File.name (resizeImageForProcessing env file maxHeight) = File.name file
  ∧ File.type (resizeImageForProcessing env file maxHeight) = File.type file
  ∧ File.lastModified (resizeImageForProcessing env file maxHeight)
    = File.lastModified file.
Proof.
  unfold resizeImageForProcessing.
  destruct (decode file) as [[w h]|]; [|done].
  destruct (h >? maxHeight)%Z; cbv zeta beta iota;
    destruct (context2d env); cbn [negb]; try done;
    destruct (toBlob _ _ _ _ _ _) as [[? ?]|]; done.
Qed.

(** With the model loaded, [onDrop] saves every file it was given. *)
Lemma onDrop_saves_each (env : Browser) (first : bool) (files : list File.t)
    (f : File.t) :
  first && negb (modelReady env) = false → f ∈ files →
  mkSaveArgs (resizeImageForProcessing env f 512) None None None
    ∈ onDrop env first files.
Proof.
  intros Hready Hf. unfold onDrop. rewrite Hready.
  apply list_elem_of_In, in_flat_map.
  exists (resizeImageForProcessing env f 512). split.
  - apply list_elem_of_In. by apply (list_elem_of_fmap_2 (λ file, resizeImageForProcessing env file 512)).
  - by left.
Qed.

(** Every save of [onDrop] is a save of one of the files given. *)
Lemma onDrop_names (env : Browser) (first : bool) (files : list File.t)
    (a : SaveArgs) :
  a ∈ onDrop env first files →
  ∃ f, f ∈ files ∧ arg_originalFile a = resizeImageForProcessing env f 512.
Proof.
  unfold onDrop. destruct (first && negb (modelReady env)); [by intros ?%elem_of_nil|].
  intros (x & Hx & Ha)%list_elem_of_In%in_flat_map.
  apply list_elem_of_In, list_elem_of_fmap in Hx as (f & -> & Hf).
  exists f. split; [done|].
  destruct Ha as [<-|Ha]; [done|].
  destruct (processImages env _) as [[result|]|]; try done.
  by destruct Ha as [<-|[]].
Qed.

(** Deleting a fresh upload.  The entry that [onDrop] puts in the list
    carries [Date.now() + index] as its id, and that is the key [onDelete]
    hands to the store.  When those clock values are not below the next
    key of the store (they are milliseconds since 1970, the keys count the
    rows ever added), deleting the entry takes it out of the list and
    leaves the store exactly as it was: the row that [onDrop] saved under
    the name of the file is still there. *)
Theorem onDelete_fresh_upload_keeps_row (env : Browser) (first : bool)
    (files : list File.t) (now : nat → N) (timed : list (SaveArgs * Z))
    (db0 : DB) (img : ImageFile) :
  keys_wf db0 → names_unique db0 →
  first && negb (modelReady env) = false →
  timed.*1 = onDrop env first files →
  let db := run_saves timed db0 in
  (∀ index, nextId db ≤ now index)%N →
  img ∈ newImages env now files →
  let '(images', db') := onDelete (AppState.id img) (newImages env now files) db in
  (img ∉ images')
  ∧ db' = db
  ∧ ∃ row, where_fileName_equals (File.name (file img)) db' = [row].
Proof.
  intros Hk Hn Hready Htimed db Hclock Himg. unfold onDelete.
  destruct (run_saves_where (File.name (file img)) timed db0 Hk Hn)
    as (Hk' & _ & Hone & _). fold db in Hk', Hone.
  unfold newImages in Himg.
  apply elem_of_lookup_imap in Himg as (index & f' & -> & Hf').
  cbn [AppState.id file] in *.
  split; [|split].
  - intros [Hne _]%list_elem_of_filter. cbn in Hne. done.
  - apply delete_absent. destruct Hk' as [_ Hb].
    eapply Forall_impl; [exact Hb|]. cbn. intros r Hr. specialize (Hclock index). lia.
  - rewrite delete_absent.
    2:{ destruct Hk' as [_ Hb].
        eapply Forall_impl; [exact Hb|]. cbn. intros r Hr. specialize (Hclock index). lia. }
    apply Hone. right.
    apply list_elem_of_lookup_2, list_elem_of_fmap in Hf' as (f & -> & Hf).
    pose proof (onDrop_saves_each env first files f Hready Hf) as Hcall.
    rewrite <- Htimed in Hcall. apply list_elem_of_fmap in Hcall as (c & Hc & Hin).
    apply Exists_exists. exists c. split; [done|]. by rewrite <- Hc.
Qed.

End uploads.

Lemma onDelete_fresh_upload_keeps_row_witness :
  let env := browser in
  let now := λ _ : nat, 1700000000000%N in
  let timed := [(mkSaveArgs (resizeImageForProcessing (A:=Q) env tall_upload 512)
                   None None None, 5000%Z)] in
  let img := mkImageFile 1700000000000
               (resizeImageForProcessing (A:=Q) env tall_upload 512) None None None in
  keys_wf stored_db ∧ names_unique stored_db
  ∧ timed.*1 = onDrop (A:=Q) env false [tall_upload]
  ∧ img ∈ newImages (A:=Q) env now [tall_upload]
  ∧ let '(images', db') :=
        onDelete (AppState.id img) (newImages (A:=Q) env now [tall_upload])
          (run_saves timed stored_db) in
    (img ∉ images')
    ∧ db' = run_saves timed stored_db
    ∧ ∃ row, where_fileName_equals (File.name (file img)) db' = [row].
Proof.
  intros env now timed img.
  assert (Hk : keys_wf stored_db) by (split; vm_compute; repeat constructor).
  assert (Hn : names_unique stored_db).
  { unfold names_unique. vm_compute. repeat constructor. by intros ?%elem_of_nil. }
  assert (Ht : timed.*1 = onDrop (A:=Q) env false [tall_upload]) by (vm_compute; reflexivity).
  assert (Hi : img ∈ newImages (A:=Q) env now [tall_upload]) by (vm_compute; left).
  split; [exact Hk|]. split; [exact Hn|]. split; [exact Ht|]. split; [exact Hi|].
  apply (onDelete_fresh_upload_keeps_row env false [tall_upload] now timed stored_db img
           Hk Hn eq_refl Ht); [|exact Hi].
  intros index. vm_compute. discriminate.
Defined.

Lemma sample_images_in_turn (env : Browser) (first1 first2 : bool)
    (blob1 blob2 : File.t) (lm1 lm2 : Z) (timed : list (SaveArgs * Z)) (db : DB) :
  keys_wf db → names_unique db → modelReady env = true →
  timed.*1 = onDrop (A:=Q) env first1 [sampleFile blob1 lm1]
             ++ onDrop (A:=Q) env first2 [sampleFile blob2 lm2] →
  let db' := run_saves timed db in
  ∃ row,
    where_fileName_equals "sample-image.jpg" db' = [row]
    ∧ originalFile row = resizeImageForProcessing (A:=Q) env (sampleFile blob2 lm2) 512
    ∧ length (images db')
      = (if decide (where_fileName_equals "sample-image.jpg" db = [])
         then S (length (images db)) else length (images db))
    ∧ ∀ r, fileName r ≠ "sample-image.jpg" → (r ∈ images db' ↔ r ∈ images db).
Proof.
  intros Hk Hn Hready Htimed db'.
  set (f1 := resizeImageForProcessing (A:=Q) env (sampleFile blob1 lm1) 512) in *.
  set (f2 := resizeImageForProcessing (A:=Q) env (sampleFile blob2 lm2) 512) in *.
  assert (Hn1 : File.name f1 = "sample-image.jpg") by apply (resize_keeps_name (A:=Q)).
  assert (Hn2 : File.name f2 = "sample-image.jpg") by apply (resize_keeps_name (A:=Q)).
  (* the calls: one or two per sample, all under the one name *)
  assert (∃ a0 t0 mid a t,
            timed = (a0, t0) :: mid ++ [(a, t)]
            ∧ File.name (arg_originalFile a0) = "sample-image.jpg"
            ∧ Forall (λ c, File.name (arg_originalFile c.1) = "sample-image.jpg")
                (mid ++ [(a, t)])
            ∧ arg_originalFile a = f2) as (a0 & t0 & mid & a & t & -> & Ha0 & Hall & Ha).
  { unfold onDrop in Htimed. rewrite Hready, !andb_false_r in Htimed.
    cbn [map flat_map] in Htimed. fold f1 f2 in Htimed. rewrite !app_nil_r in Htimed.
    assert (Forall (λ c, File.name (arg_originalFile c.1) = "sample-image.jpg") timed)
      as Hnames.
    { apply Forall_forall. intros c Hc.
      apply (list_elem_of_fmap_2 fst) in Hc. rewrite Htimed in Hc.
      destruct (processImages env f1) as [[?|]|], (processImages env f2) as [[?|]|];
        cbn in Hc; repeat (apply elem_of_cons in Hc as [->|Hc]; [done|]);
        by apply elem_of_nil in Hc. }
    destruct timed as [|[a0 t0] rest]; [by destruct (processImages env f1) as [[?|]|]|].
    induction rest as [|[a t] mid _] using rev_ind.
    { exfalso. cbn in Htimed.
      by destruct (processImages env f1) as [[?|]|], (processImages env f2) as [[?|]|]. }
    apply Forall_cons in Hnames as [? ?].
    exists a0, t0, mid, a, t. split; [done|]. split; [done|]. split; [done|].
    change ((a0, t0) :: mid ++ [(a, t)]) with (((a0, t0) :: mid) ++ [(a, t)]) in Htimed.
    rewrite fmap_app in Htimed. cbn [fmap list_fmap fst] in Htimed.
    assert (last ((a0 :: mid.*1) ++ [a]) = Some a) as Hlast by apply last_snoc.
    rewrite Htimed in Hlast.
    destruct (processImages env f1) as [[?|]|], (processImages env f2) as [[?|]|];
      cbn in Hlast; by injection Hlast as <-. }
  subst db'.
  destruct (saveImage_step a0 t0 db Hk Hn) as (Hk1 & Hn1' & row1 & Hrow1 & _ & Hcase).
  rewrite Ha0 in Hrow1, Hcase.
  destruct (run_saves_keeps "sample-image.jpg" (mid ++ [(a, t)]) _ row1 Hk1 Hn1' Hall Hrow1)
    as (_ & _ & Hlen & _).
  destruct (run_saves_last ((a0, t0) :: mid) a t db Hk Hn) as (row & Hrow & Ho & _).
  rewrite Ha, Hn2 in Hrow. cbn [app] in Hrow.
  exists row. split; [done|]. split; [by rewrite Ho|]. split.
  - unfold run_saves in *. cbn [foldl fst snd]. rewrite Hlen.
    destruct (where_fileName_equals "sample-image.jpg" db) as [|r rest].
    + rewrite decide_True by done. by destruct Hcase as (_ & _ & ->).
    + rewrite decide_False by done. by destruct Hcase as (_ & ->).
  - intros r Hr.
    destruct (run_saves_where (fileName r) ((a0, t0) :: mid ++ [(a, t)]) db Hk Hn)
      as (_ & _ & _ & Hsame).
    rewrite (where_elem (run_saves _ db)), (where_elem db), Hsame; [done|].
    apply Forall_cons. split; [cbn; congruence|].
    eapply Forall_impl; [exact Hall|]. cbn. congruence.
Qed.

(** Sample pictures share one row, or not.  [handleSampleImageClick]
    gives every sample the name [sample-image.jpg].  When the second
    sample is loaded after the saves of the first have finished, the
    store has one row of that name, it holds the second sample, the
    table has grown by one row if the name was new and by none
    otherwise, and the rows under other names are as before.  When the
    name is new and the second sample's first save is called before the
    first sample's has written (the handler does not await [onDrop]),
    both calls add and the store has two rows of that name. *)
Theorem sample_images_share_one_row (env : Browser) (first1 first2 : bool)
    (blob1 blob2 : File.t) (lm1 lm2 t1 t2 : Z) (timed : list (SaveArgs * Z)) (db : DB) :
  keys_wf db → names_unique db → modelReady env = true →
  timed.*1 = onDrop (A:=Q) env first1 [sampleFile blob1 lm1]
             ++ onDrop (A:=Q) env first2 [sampleFile blob2 lm2] →
  let sample1 := resizeImageForProcessing (A:=Q) env (sampleFile blob1 lm1) 512 in
  let sample2 := resizeImageForProcessing (A:=Q) env (sampleFile blob2 lm2) 512 in
  let db' := store (run (one_after_the_other 0 timed) (fresh db)) in
  let overlapped :=
    store (run [Call (mkSaveArgs sample1 None None None) t1;
                Call (mkSaveArgs sample2 None None None) t2;
                Resume 0; Resume 1] (fresh db)) in
  (∃ row,
     where_fileName_equals "sample-image.jpg" db' = [row]
     ∧ originalFile row = sample2
     ∧ length (images db')
       = (if decide (where_fileName_equals "sample-image.jpg" db = [])
          then S (length (images db)) else length (images db))
     ∧ ∀ r, fileName r ≠ "sample-image.jpg" → (r ∈ images db' ↔ r ∈ images db))
  ∧ (where_fileName_equals "sample-image.jpg" db = [] →
     originalFile <$> where_fileName_equals "sample-image.jpg" overlapped
     = [sample1; sample2]).
Proof.
  intros Hk Hn Hready Htimed sample1 sample2 db' overlapped. split.
  - subst db'. rewrite (run_one_after_the_other _ (fresh db)). cbn [store fresh].
    by apply (sample_images_in_turn env first1 first2 blob1 blob2 lm1 lm2).
  - intros Hnew. subst overlapped.
    assert (Hn1 : File.name sample1 = "sample-image.jpg") by apply (resize_keeps_name (A:=Q)).
    assert (Hn2 : File.name sample2 = "sample-image.jpg") by apply (resize_keeps_name (A:=Q)).
    cbn [run foldl Async.step store calls fresh app arg_originalFile
         lookup list_lookup insert list_insert].
    rewrite Hn1, Hn2, Hnew.
    cbn [lookup list_lookup insert list_insert store calls saveImage_write add snd
         images nextId].
    unfold where_fileName_equals in *. cbn [images].
    rewrite !filter_app, Hnew.
    rewrite !(filter_cons_True _ _ []) by (cbn; done).
    done.
Qed.

Lemma sample_images_share_one_row_witness :
  let f1 := resizeImageForProcessing (A:=Q) browser (sampleFile photo 10) 512 in
  let f2 := resizeImageForProcessing (A:=Q) browser (sampleFile tall_upload 20) 512 in
  let timed := [(mkSaveArgs f1 None None None, 5000%Z);
                (mkSaveArgs f2 None None None, 6000%Z)] in
  keys_wf stored_db ∧ names_unique stored_db ∧ modelReady browser = true
  ∧ timed.*1 = onDrop (A:=Q) browser false [sampleFile photo 10]
               ++ onDrop (A:=Q) browser false [sampleFile tall_upload 20]
  ∧ ∃ row,
      where_fileName_equals "sample-image.jpg"
        (store (run (one_after_the_other 0 timed) (fresh stored_db))) = [row]
      ∧ originalFile row = f2
      ∧ length (images (store (run (one_after_the_other 0 timed) (fresh stored_db)))) = 2.
Proof.
  intros f1 f2 timed.
  assert (Hk : keys_wf stored_db) by (split; vm_compute; repeat constructor).
  assert (Hn : names_unique stored_db).
  { unfold names_unique. vm_compute. repeat constructor. by intros ?%elem_of_nil. }
  assert (Ht : timed.*1 = onDrop (A:=Q) browser false [sampleFile photo 10]
               ++ onDrop (A:=Q) browser false [sampleFile tall_upload 20])
    by (vm_compute; reflexivity).
  split; [exact Hk|]. split; [exact Hn|]. split; [reflexivity|]. split; [exact Ht|].
  destruct (sample_images_share_one_row browser false false photo tall_upload 10 20
              5000 6000 timed stored_db Hk Hn eq_refl Ht)
    as ((row & Hrow & Ho & Hlen & _) & _).
  exists row. split; [exact Hrow|]. split; [exact Ho|]. exact Hlen.
Defined.

End AppFacts.

Module CameraFacts.
Import JS Store StoreFacts StoreMoreFacts App AppState AppFacts Camera Examples.

Lemma string_of_N_inj (n m : N) : string_of_N n = string_of_N m → n = m.
Proof.
  unfold string_of_N. intros Heq.
  assert (Hnn : ∀ k, N.to_uint k ≠ Decimal.Nil).
  { intros [|p]; [done|]. apply DecimalPos.Unsigned.to_uint_nonnil. }
  apply (f_equal NilZero.uint_of_string) in Heq.
  rewrite !NilZero.usu in Heq by apply Hnn.
  injection Heq as Heq. by apply DecimalN.Unsigned.to_uint_inj.
Qed.

Lemma length_append (s1 s2 : string) :
  String.length (s1 +:+ s2) = String.length s1 + String.length s2.
Proof. induction s1 as [|c s1 IH]; [done|]. simpl. by rewrite IH. Qed.

Lemma append_inj_r (t s1 s2 : string) : s1 +:+ t = s2 +:+ t → s1 = s2.
Proof.
  intros Heq.
  assert (String.length s1 = String.length s2) as Hlen.
  { apply (f_equal String.length) in Heq. rewrite !length_append in Heq. lia. }
  revert s2 Heq Hlen. induction s1 as [|c s1 IH]; intros [|c' s2] Heq Hlen; try done.
  simpl in *. injection Heq as -> Heq. f_equal. apply IH; [done|lia].
Qed.

Section captures.
Context {A : Type} `{Number A}.

(** Camera pictures get rows of their own.  A capture that succeeds gives
    a JPEG file of the size of the video frame, which is not empty; the
    names of two captures differ when the clock values differ (and only
    then); and once [onDrop] has saved both, each has the one row under
    its name and the two rows are different. *)
Theorem camera_captures_get_own_rows (env : Browser) (ready1 ready2 first1 first2 : bool)
    (frame1 frame2 : File.t) (vw1 vh1 vw2 vh2 : Z) (now1 now2 : N) (lm1 lm2 : Z)
    (f1 f2 : File.t) (timed : list (SaveArgs * Z)) (db : DB) :
  keys_wf db → names_unique db → modelReady env = true →
  handleCapture env ready1 frame1 vw1 vh1 now1 lm1 = Captured f1 →
  handleCapture env ready2 frame2 vw2 vh2 now2 lm2 = Captured f2 →
  timed.*1 = onDrop env first1 [f1] ++ onDrop env first2 [f2] →
  let db' := run_saves timed db in
  File.type f1 = "image/jpeg"
  ∧ decode f1 = Some (vw1, vh1) ∧ (0 < vw1)%Z ∧ (0 < vh1)%Z
  ∧ (File.name f1 = File.name f2 ↔ now1 = now2)
  ∧ (now1 ≠ now2 →
     ∃ row1 row2, where_fileName_equals (File.name f1) db' = [row1]
                  ∧ where_fileName_equals (File.name f2) db' = [row2]
                  ∧ row1 ≠ row2).
Proof.
  intros Hk Hn Hready Hc1 Hc2 Htimed db'.
  assert (Hshape : ∀ ready frame vw vh now lm f,
            handleCapture env ready frame vw vh now lm = Captured f →
            File.name f = "camera-capture-" +:+ string_of_N now +:+ ".jpg"
            ∧ File.type f = "image/jpeg"
            ∧ decode f = Some (vw, vh) ∧ (0 < vw)%Z ∧ (0 < vh)%Z).
  { intros ready frame vw vh now lm f. unfold handleCapture, toBlob.
    destruct ready; cbn [negb]; [|done].
    destruct (decide (vw ≤ 0 ∨ vh ≤ 0)%Z) as [|Hpos]; [done|].
    cbv zeta. destruct (encode env frame vw vh _ _) as [size|]; [|done].
    cbn. intros [= <-]. cbn. repeat split; lia. }
  destruct (Hshape _ _ _ _ _ _ _ Hc1) as (Hname1 & Ht1 & Hd1 & Hw1 & Hh1).
  destruct (Hshape _ _ _ _ _ _ _ Hc2) as (Hname2 & _).
  assert (Hiff : File.name f1 = File.name f2 ↔ now1 = now2).
  { rewrite Hname1, Hname2. split; [|by intros ->].
    intros Heq%String.app_inj. apply append_inj_r in Heq. by apply string_of_N_inj. }
  split; [done|]. split; [done|]. split; [done|]. split; [done|]. split; [done|].
  intros Hne.
  assert (∀ f, f ∈ [f1; f2] →
            Exists (λ c, File.name (arg_originalFile c.1) = File.name f) timed) as Hex.
  { intros f Hf.
    assert (∃ a, a ∈ timed.*1 ∧ File.name (arg_originalFile a) = File.name f)
      as (a & Ha & Hna).
    { rewrite Htimed. exists (mkSaveArgs (resizeImageForProcessing env f 512) None None None).
      split; [|apply resize_keeps_name].
      apply elem_of_app.
      apply elem_of_cons in Hf as [->|Hf]; [left|right].
      - apply onDrop_saves_each; [by rewrite Hready, andb_false_r|by left].
      - apply list_elem_of_singleton in Hf as ->.
        apply onDrop_saves_each; [by rewrite Hready, andb_false_r|by left]. }
    apply list_elem_of_fmap in Ha as (c & -> & Hc).
    apply Exists_exists. by exists c. }
  destruct (run_saves_where (File.name f1) timed db Hk Hn) as (_ & _ & Hone1 & _).
  destruct (run_saves_where (File.name f2) timed db Hk Hn) as (_ & _ & Hone2 & _).
  destruct Hone1 as (row1 & Hrow1); [right; apply (Hex f1); left|].
  destruct Hone2 as (row2 & Hrow2); [right; apply (Hex f2); right; left|].
  exists row1, row2. split; [done|]. split; [done|].
  intros Heq. apply Hne, Hiff. subst db'.
  assert (row1 ∈ where_fileName_equals (File.name f1) (run_saves timed db)) as Hin1
    by (rewrite Hrow1; left).
  assert (row2 ∈ where_fileName_equals (File.name f2) (run_saves timed db)) as Hin2
    by (rewrite Hrow2; left).
  apply list_elem_of_filter in Hin1 as [Hx1 _], Hin2 as [Hx2 _]. congruence.
Qed.

End captures.

Lemma camera_captures_get_own_rows_witness :
  let shot := λ now : N,
    File.mk ("camera-capture-" +:+ string_of_N now +:+ ".jpg") "image/jpeg" 0
      (640 * 480) (Canvas 640 480 "image/jpeg" (Some (9 # 10))) in
  let timed := [(mkSaveArgs (shot 1700000000000%N) None None None, 5000%Z);
                (mkSaveArgs (shot 1700000000001%N) None None None, 6000%Z)] in
  keys_wf empty ∧ names_unique empty ∧ modelReady browser = true
  ∧ handleCapture browser true photo 640 480 1700000000000 0 = Captured (shot 1700000000000%N)
  ∧ handleCapture browser true photo 640 480 1700000000001 0 = Captured (shot 1700000000001%N)
  ∧ timed.*1 = onDrop (A:=Q) browser false [shot 1700000000000%N]
               ++ onDrop (A:=Q) browser false [shot 1700000000001%N]
  ∧ ∃ row1 row2,
      where_fileName_equals "camera-capture-1700000000000.jpg" (run_saves timed empty)
      = [row1]
      ∧ where_fileName_equals "camera-capture-1700000000001.jpg" (run_saves timed empty)
        = [row2]
      ∧ row1 ≠ row2.
Proof.
  intros shot timed.
  assert (H1 : handleCapture browser true photo 640 480 1700000000000 0
               = Captured (shot 1700000000000%N)) by (vm_compute; reflexivity).
  assert (H2 : handleCapture browser true photo 640 480 1700000000001 0
               = Captured (shot 1700000000001%N)) by (vm_compute; reflexivity).
  assert (Ht : timed.*1 = onDrop (A:=Q) browser false [shot 1700000000000%N]
               ++ onDrop (A:=Q) browser false [shot 1700000000001%N])
    by (vm_compute; reflexivity).
  split; [exact keys_wf_empty|]. split; [exact names_unique_empty|].
  split; [reflexivity|]. split; [exact H1|]. split; [exact H2|]. split; [exact Ht|].
  destruct (camera_captures_get_own_rows (A:=Q) browser true true false false photo photo
              640 480 640 480 1700000000000 1700000000001 0 0 _ _ timed empty
              keys_wf_empty names_unique_empty eq_refl H1 H2 Ht)
    as (_ & _ & _ & _ & _ & Hrows).
  apply Hrows. discriminate.
Defined.

End CameraFacts.

Module UploadMoreFacts.
Import JS Store Async App UploadSpec StoreFacts UploadFacts AppFacts Examples.

(** C10 (as amended): what [onDrop] persists.  Every [saveImage] call it
    makes passes as original the result of [resizeImageForProcessing] on
    an accepted file, nothing else.  With the model ready and the saves
    made one after the other on a table with distinct keys and names,
    the store holds afterwards exactly one row under the name of each
    accepted file, and its original is the resized form of an accepted
    file of that name (of the file itself when no other accepted file
    has its name).  The resized form keeps the name and the declared
    type of the file.  It is the file itself when the file does not
    decode, when no 2d context is available or when [toBlob] yields
    nothing; otherwise it is the output of a canvas of height 512 and
    width [round(512 * w / h)] when the picture is higher than 512, and
    of the picture's own size when it is not, encoded in the file's
    format when the canvas encoder supports it and in PNG when it does
    not, at quality 0.9 when the format encoded in takes a quality and
    without one otherwise. *)
Theorem upload_is_downscaled (env : Browser) (first : bool)
    (acceptedFiles : list File.t) (timed : list (SaveArgs * Z)) (db : DB)
    (file : File.t) :
  keys_wf db → names_unique db →
  first && negb (modelReady env) = false →
  timed.*1 = onDrop (A:=Q) env first acceptedFiles →
  file ∈ acceptedFiles →
  let db' := store (run (one_after_the_other 0 timed) (fresh db)) in
  let saved := resizeImageForProcessing (A:=Q) env file 512 in
  let type := File.type file in
  (∀ a, a ∈ onDrop (A:=Q) env first acceptedFiles →
     ∃ f, f ∈ acceptedFiles
          ∧ arg_originalFile a = resizeImageForProcessing (A:=Q) env f 512)
  ∧ (∃ row f,
       where_fileName_equals (File.name file) db' = [row]
       ∧ f ∈ acceptedFiles ∧ File.name f = File.name file
       ∧ originalFile row = resizeImageForProcessing (A:=Q) env f 512
       ∧ ((∀ f', f' ∈ acceptedFiles → File.name f' = File.name file → f' = file) →
          originalFile row = saved))
  ∧ File.name saved = File.name file
  ∧ File.type saved = type
  ∧ (decode file = None → saved = file)
  ∧ (∀ w h, decode file = Some (w, h) →
       let w' := (target_size w h).1 in
       let h' := (target_size w h).2 in
       ((512 < h)%Z → h' = 512%Z
                      ∧ w' = Qfloor (512 * (inject_Z w / inject_Z h) + (1 # 2))%Q)
       ∧ ((h ≤ 512)%Z → w' = w ∧ h' = h)
       ∧ (context2d env = false
          ∨ toBlob env file w' h' type (9 # 10) = None →
          saved = file)
       ∧ (∀ size payload,
            context2d env = true →
            toBlob env file w' h' type (9 # 10) = Some (size, payload) →
            File.payload saved
            = Canvas w' h' (if canEncode env type then type else "image/png")
                (if hasQuality env (if canEncode env type then type else "image/png")
                 then Some (9 # 10) else None)
            ∧ decode saved = Some (w', h')
            ∧ File.size saved = size)).
Proof.
  intros Hk Hn Hready Htimed Hfile db' saved type.
  split; [intros a; apply onDrop_names|]. split.
  - subst db'. rewrite (run_one_after_the_other _ (fresh db)). cbn [store fresh].
    destruct (run_saves_row_from (File.name file) timed db Hk Hn)
      as (row & c & Hrow & Hc & Hname & Ho).
    { pose proof (onDrop_saves_each (A:=Q) env first acceptedFiles file Hready Hfile)
        as Hcall.
      rewrite <- Htimed in Hcall. apply list_elem_of_fmap in Hcall as (c & Hc & Hin).
      apply Exists_exists. exists c. split; [done|]. rewrite <- Hc.
      apply (resize_keeps_name (A:=Q)). }
    apply (list_elem_of_fmap_2 fst) in Hc. rewrite Htimed in Hc.
    apply onDrop_names in Hc as (f & Hf & Hfrom).
    assert (File.name f = File.name file) as Hsame.
    { rewrite <- Hname, Hfrom. symmetry. apply (resize_keeps_name (A:=Q)). }
    exists row, f. split; [done|]. split; [done|]. split; [done|].
    split; [congruence|]. intros Honly. rewrite Ho, Hfrom. unfold saved.
    by rewrite (Honly f Hf Hsame).
  - exact (resize_cases env file).
Qed.

Lemma upload_is_downscaled_witness :
  let resized := resizeImageForProcessing (A:=Q) browser tall_upload 512 in
  let timed := [(mkSaveArgs resized None None None, 5000%Z)] in
  keys_wf stored_db ∧ names_unique stored_db
  ∧ true && negb (modelReady browser) = false
  ∧ timed.*1 = onDrop (A:=Q) browser true [tall_upload]
  ∧ tall_upload ∈ [tall_upload]
  ∧ decode resized = Some (400, 512)%Z
  ∧ ∃ row,
      where_fileName_equals "tall.png"
        (store (run (one_after_the_other 0 timed) (fresh stored_db))) = [row]
      ∧ originalFile row = resized.
Proof.
  intros resized timed.
  assert (Hk : keys_wf stored_db) by (split; vm_compute; repeat constructor).
  assert (Hn : names_unique stored_db).
  { unfold names_unique. vm_compute. repeat constructor. by intros ?%elem_of_nil. }
  assert (Ht : timed.*1 = onDrop (A:=Q) browser true [tall_upload])
    by (vm_compute; reflexivity).
  assert (Hin : tall_upload ∈ [tall_upload]) by left.
  split; [exact Hk|]. split; [exact Hn|]. split; [reflexivity|]. split; [exact Ht|].
  split; [exact Hin|]. split; [reflexivity|].
  destruct (upload_is_downscaled browser true [tall_upload] timed stored_db tall_upload
              Hk Hn eq_refl Ht Hin) as (_ & (row & f & Hrow & _ & _ & _ & Honly) & _).
  exists row. split; [exact Hrow|]. apply Honly.
  intros f' Hf' _. by apply list_elem_of_singleton in Hf'.
Defined.

(** The claim of C10 fails on the format and the quality.  A GIF picture
    of 800 by 1024 pixels, in a browser whose canvas encodes PNG, JPEG
    and WebP: the file handed to [saveImage] has the name and the
    declared type of the upload, and its bytes are PNG, encoded without
    a quality.  A PNG upload is encoded in PNG, without a quality
    either. *)
Lemma upload_of_gif_is_saved_as_png :
  let saved := resizeImageForProcessing (A:=Q) browser animation 512 in
  File.type animation = "image/gif"
  ∧ decode animation = Some (800, 1024)%Z
  ∧ canEncode browser "image/gif" = false
  ∧ arg_originalFile <$> onDrop (A:=Q) browser false [animation] = [saved]
  ∧ File.name saved = "anim.gif"
  ∧ File.type saved = "image/gif"
  ∧ File.payload saved = Canvas 400 512 "image/png" None
  ∧ File.payload (resizeImageForProcessing (A:=Q) browser tall_upload 512)
    = Canvas 400 512 "image/png" None.
Proof. vm_compute. repeat split. Qed.

Section settle.
Context {A : Type} `{Number A}.

(** Resizing settles after one pass: a file that went through
    [resizeImageForProcessing] comes out of a second pass with the same
    name, type, time stamp, pixel size and encoding; the byte size alone
    can differ, when the encoder runs again. *)
Theorem resize_settles (env : Browser) (file : File.t) (maxHeight : Z) :
  let once := resizeImageForProcessing env file maxHeight in
  let twice := resizeImageForProcessing env once maxHeight in
  File.name twice = File.name once
  ∧ File.type twice = File.type once
  ∧ File.lastModified twice = File.lastModified once
  ∧ File.payload twice = File.payload once
  ∧ decode twice = decode once.
Proof.
  intros once twice.
  destruct (resize_keeps_name env once maxHeight) as (Hn & Ht & Hl). fold twice in Hn, Ht, Hl.
  split; [done|]. split; [done|]. split; [done|].
  assert (File.payload twice = File.payload once) as Hp; [|by unfold decode; rewrite Hp].
  assert (once = file ∨ ∃ w' h' size,
            (h' ≤ maxHeight)%Z
            ∧ once = File.mk (File.name file) (File.type file) (File.lastModified file) size
                       (Canvas w' h' (encoded_type env (File.type file))
                          (encoded_quality env (File.type file) (9 # 10))))
    as [Hsame|Hcanvas].
  { unfold once, resizeImageForProcessing.
    destruct (decode file) as [[w h]|]; [|by left].
    destruct (h >? maxHeight)%Z eqn:Hcmp; cbv zeta beta iota;
      (destruct (context2d env); cbn [negb]; [|by left]);
      (destruct (toBlob _ _ _ _ _ _) as [[size payload]|] eqn:Hblob; [|by left]);
      apply toBlob_payload in Hblob as [-> _]; right; do 3 eexists; (split; [|done]).
    - lia.
    - destruct (Z.gtb_spec h maxHeight); [done|lia]. }
  - unfold twice. rewrite Hsame. fold once. by rewrite Hsame.
  - destruct Hcanvas as (w' & h' & size & Hh & Honce).
    unfold twice, resizeImageForProcessing. rewrite Honce. cbn [decode File.payload].
    destruct (Z.gtb_spec h' maxHeight) as [|_]; [lia|]. cbv zeta beta iota.
    destruct (context2d env); cbn [negb]; [|done].
    destruct (toBlob _ _ _ _ _ _) as [[size2 payload]|] eqn:Hblob; [|done].
    apply toBlob_payload in Hblob as [-> _]. done.
Qed.

End settle.

(** Resizing never enlarges: a picture of [w] by [h] pixels comes out with
    a width of at most [w] and a height of at most [h].  When the file was
    encoded again, the picture has at least one pixel each way and is at
    most 512 high; a picture so narrow that the new width rounds to zero
    is kept as it was. *)
Theorem resize_never_enlarges (env : Browser) (file : File.t) (w h : Z) :
  decode file = Some (w, h) → (1 ≤ w)%Z → (1 ≤ h)%Z →
  let resized := resizeImageForProcessing (A:=Q) env file 512 in
  ∃ w' h', decode resized = Some (w', h')
    ∧ (w' ≤ w)%Z ∧ (h' ≤ h)%Z
    ∧ (resized = file ∨ (1 ≤ w' ∧ 1 ≤ h' ≤ 512)%Z)
    ∧ ((target_size w h).1 = 0%Z → resized = file).
Proof.
  intros Hd Hw Hh resized. subst resized. rewrite resize_unfold, Hd.
  assert (Hbound : ((target_size w h).1 ≤ w ∧ (target_size w h).2 ≤ h
                    ∧ (target_size w h).2 ≤ 512)%Z).
  { unfold target_size. destruct (Z.gtb_spec h 512) as [Hgt|Hle]; cbn [fst snd]; [|lia].
    split; [|lia].
    assert (Qfloor (512 * (inject_Z w / inject_Z h) + (1 # 2)) < w + 1)%Z; [|lia].
    rewrite Zlt_Qlt. eapply Qle_lt_trans; [apply Qfloor_le|].
    assert (0 < inject_Z h)%Q as Hhq by (rewrite <- (Zlt_Qlt 0); lia).
    assert (inject_Z 512 < inject_Z h)%Q as Hhq' by (rewrite <- Zlt_Qlt; lia).
    assert (1 <= inject_Z w)%Q as Hwq by (rewrite <- (Zle_Qle 1); lia).
    rewrite inject_Z_plus.
    assert (512 * (inject_Z w / inject_Z h) * inject_Z h == 512 * inject_Z w)%Q as Hmul
      by (field; lra).
    change (inject_Z 512) with 512%Q in Hhq'. change (inject_Z 1) with 1%Q.
    set (x := (512 * (inject_Z w / inject_Z h))%Q) in *. 
    set (a := inject_Z w) in *. set (b := inject_Z h) in *. clearbody x a b.
    assert (x < a)%Q; [|lra].
    apply Qnot_le_lt. intros Hge.
    assert (a * b <= x * b)%Q by (apply Qmult_le_compat_r; lra).
    assert (512 * a < a * b)%Q; [|lra].
    rewrite (Qmult_comm a b). apply Qmult_lt_compat_r; lra. }
  destruct Hbound as (Hbw & Hbh & Hb512).
  destruct (context2d env).
  2:{ exists w, h. rewrite Hd. repeat split; try lia; by left || done. }
  destruct (toBlob _ _ _ _ _ _) as [[size payload]|] eqn:Hblob.
  - apply toBlob_payload in Hblob as [-> [Hpw Hph]].
    exists (target_size w h).1, (target_size w h).2. cbn [decode File.payload].
    split; [done|]. split; [done|]. split; [done|]. split; [right; lia|].
    intros H0. lia.
  - exists w, h. rewrite Hd. repeat split; try lia; by left || done.
Qed.

Lemma resize_never_enlarges_witness :
  decode tall_upload = Some (800, 1024)%Z ∧ (1 ≤ 800)%Z ∧ (1 ≤ 1024)%Z
  ∧ ∃ w' h', decode (resizeImageForProcessing (A:=Q) browser tall_upload 512)
             = Some (w', h')
      ∧ (w' ≤ 800)%Z ∧ (h' ≤ 1024)%Z.
Proof.
  split; [reflexivity|]. split; [lia|]. split; [lia|].
  destruct (resize_never_enlarges browser tall_upload 800 1024 eq_refl
              ltac:(lia) ltac:(lia)) as (w' & h' & Hd & Hw & Hh & _).
  exists w', h'. split; [exact Hd|]. split; [exact Hw|exact Hh].
Defined.

End UploadMoreFacts.

Module EditorFacts.
Import JS Store Editor EditorUI EncoderSpec EditorSpec CropSpec EffectSpec.
Import CropFacts EncoderFacts EffectFacts CameraFacts Examples.

Lemma find_preset_spec (presetId : string) :
  match find_preset presetId with
  | Some p => p ∈ photoPresets ∧ PhotoPreset.id p = presetId
  | None => True
  end.
Proof.
  unfold find_preset.
  destruct (filter _ photoPresets) as [|p rest] eqn:Hf; [done|]. cbn.
  assert (p ∈ filter (λ p, PhotoPreset.id p = presetId) photoPresets) as Hin
    by (rewrite Hf; left).
  by apply list_elem_of_filter in Hin as [? ?].
Qed.

Lemma append_assoc (a b c : string) : (a +:+ b) +:+ c = a +:+ b +:+ c.
Proof.
  induction a as [|x a IH]; [done|].
  change (String x ((a +:+ b) +:+ c) = String x (a +:+ b +:+ c)). by rewrite IH.
Qed.

Section export.
Context {A : Type} `{Number A}.
Variable toDataURL : string → option A → string.

(** The quality loop stops within ten passes, whatever the encoder
    returns and whatever arithmetic is used: the pass counter sees to
    it. *)
Lemma encode_jpeg_total (fuel : nat) (maxFileSize : option Z) :
  10 ≤ fuel →
  ∃ n, n ≤ 10 ∧ encode_jpeg toDataURL fuel maxFileSize = Some (state_at toDataURL n).
Proof using Type.
  intros Hfuel. unfold encode_jpeg.
  change (mkEncodeState (lit 9 10) (toDataURL "image/jpeg" (Some (lit 9 10))) 0 [lit 9 10])
    with (state_at toDataURL 0).
  destruct maxFileSize as [kb|]; [|exists 0; split; [lia|done]].
  destruct (kb =? 0)%Z; [exists 0; split; [lia|done]|].
  assert (Hlast : encode_cond (kb * 1024) (state_at toDataURL 10) = false).
  { unfold encode_cond. cbn [attempts state_at]. by rewrite andb_false_r. }
  destruct (while_state_at toDataURL (kb * 1024) 10 Hlast 10 0 fuel eq_refl Hfuel)
    as (n & Hn & Hw & _).
  exists n. split; [lia|done].
Qed.

(** The export, the download and the save agree on the format.  With the
    same selected preset, [applyChanges] encodes the canvas in the MIME
    type of the format that [handleSave] reports, [handleDownload] names
    the file with the extension of that format ([jpg] for JPEG, [png]
    otherwise), and the PNG export passes no quality. *)
Theorem download_agrees_with_export (selectedPreset : string) (image_id : N)
    (fuel : nat) :
  10 ≤ fuel →
  ∃ mime quality stem,
    export toDataURL fuel (find_preset selectedPreset) = Some (toDataURL mime quality)
    ∧ mime = mime_of (handleSave selectedPreset).2
    ∧ download_filename selectedPreset image_id
      = stem +:+ "." +:+ fileExtension selectedPreset
    ∧ fileExtension selectedPreset
      = match (handleSave selectedPreset).2 with jpeg => "jpg" | png => "png" end
    ∧ ((handleSave selectedPreset).2 = png → quality = None).
Proof using Type.
  intros Hfuel.
  assert (∃ stem, download_filename selectedPreset image_id
                  = stem +:+ "." +:+ fileExtension selectedPreset) as (stem & Hstem).
  { unfold download_filename. destruct (find_preset selectedPreset) as [p|].
    - destruct (decide _).
      + exists (replace_spaces false (toLowerCase (PhotoPreset.label p))
                +:+ "-" +:+ string_of_N image_id).
        by rewrite !append_assoc.
      + exists ("processed-" +:+ string_of_N image_id). by rewrite !append_assoc.
    - exists ("processed-" +:+ string_of_N image_id). by rewrite !append_assoc. }
  unfold export, handleSave, fileExtension in *. cbn [snd].
  destruct (find_preset selectedPreset) as [p|].
  - destruct (PhotoPreset.format p).
    + exists "image/png", None, stem. done.
    + destruct (encode_jpeg_total fuel (PhotoPreset.maxFileSize p) Hfuel) as (n & _ & ->).
      exists "image/jpeg", (Some (quality_at n)), stem. done.
  - exists "image/png", None, stem. done.
Qed.

End export.

Lemma download_agrees_with_export_witness :
  10 ≤ 10
  ∧ ∃ mime quality stem,
      export (A:=float) bulky_encoder 10 (find_preset "china-visa")
      = Some (bulky_encoder mime quality)
      ∧ mime = "image/jpeg"
      ∧ download_filename "china-visa" 17 = stem +:+ "." +:+ "jpg".
Proof.
  split; [lia|].
  destruct (download_agrees_with_export (A:=float) bulky_encoder "china-visa" 17 10
              ltac:(lia)) as (mime & quality & stem & He & Hm & Hd & _).
  exists mime, quality, stem. split; [exact He|]. split; [exact Hm|exact Hd].
Defined.

Lemma has_space_app (s t : string) :
  has_space (s +:+ t) = has_space s || has_space t.
Proof.
  induction s as [|c s IH]; [done|].
  change (is_space c || has_space (s +:+ t) = is_space c || has_space s || has_space t).
  by rewrite IH, orb_assoc.
Qed.

(** [replace(/\s+/g, '-')] leaves no whitespace. *)
Lemma replace_spaces_clean (s : string) :
  ∀ in_run, has_space (replace_spaces in_run s) = false.
Proof.
  induction s as [|c s IH]; intros in_run; [done|]. cbn [replace_spaces].
  destruct (is_space c) eqn:Hc.
  - destruct in_run; [apply IH|]. rewrite has_space_app, IH. done.
  - cbn [has_space]. by rewrite Hc, IH.
Qed.

Lemma uint_clean (d : Decimal.uint) :
  has_space (NilZero.string_of_uint d) = false.
Proof.
  assert (∀ d, has_space (NilEmpty.string_of_uint d) = false) as Hne.
  { clear d. induction d as [|d IH|d IH|d IH|d IH|d IH|d IH|d IH|d IH|d IH|d IH];
      [done|..]; cbn [NilEmpty.string_of_uint has_space]; rewrite IH; done. }
  destruct d; [done|..]; apply Hne.
Qed.

(** The name of the download.  It holds no whitespace, whatever the label
    of the preset, and for one preset the names of two images are the
    same only when the ids are. *)
Theorem download_filename_wellformed (selectedPreset : string) (id1 id2 : N) :
  has_space (download_filename selectedPreset id1) = false
  ∧ (download_filename selectedPreset id1 = download_filename selectedPreset id2
     ↔ id1 = id2).
Proof.
  split.
  - unfold download_filename. cbv zeta.
    assert (has_space (fileExtension selectedPreset) = false) as Hext.
    { unfold fileExtension. destruct (find_preset _) as [p|]; [|done].
      by destruct (PhotoPreset.format p). }
    assert (Hid : has_space (string_of_N id1) = false) by apply uint_clean.
    destruct (find_preset selectedPreset) as [p|]; [destruct (decide _)|];
      rewrite !has_space_app, ?replace_spaces_clean, Hid, Hext; done.
  - split; [|by intros ->]. unfold download_filename. cbv zeta.
    set (ext := "." +:+ fileExtension selectedPreset).
    intros Heq. apply string_of_N_inj, (append_inj_r ext).
    destruct (find_preset selectedPreset) as [p|]; [destruct (decide _)|].
    + by apply String.app_inj, String.app_inj in Heq.
    + by apply String.app_inj in Heq.
    + by apply String.app_inj in Heq.
Qed.

(** The crop area of a catalog preset lies in the picture, has positive
    size and the ratio of the preset. *)
Lemma catalog_crop (W H : Z) (preset : PhotoPreset.t) (face : option (Rect.t Q)) :
  (1 ≤ W)%Z → (1 ≤ H)%Z → preset ∈ photoPresets → PhotoPreset.id preset ≠ "none" →
  ∃ crop, calculateCropArea W H preset face = Some crop
    ∧ inside_source W H crop
    ∧ (0 < Rect.width crop)%Q ∧ (0 < Rect.height crop)%Q
    ∧ (0 < inject_Z (PhotoPreset.width preset))%Q
    ∧ (0 < inject_Z (PhotoPreset.height preset))%Q
    ∧ (Rect.width crop * inject_Z (PhotoPreset.height preset)
       == inject_Z (PhotoPreset.width preset) * Rect.height crop)%Q.
Proof.
  intros HW HH Hcat Hsome.
  destruct (catalog_preset_positive preset Hcat Hsome) as [Hpw Hph].
  destruct (crop_inside_general W H preset face HW HH Hsome Hpw Hph)
    as (crop & Hcrop & Hin & Hratio).
  pose proof Hcrop as Hcases. rewrite calculateCropArea_cases in Hcases by done.
  exists crop. split; [done|]. split; [done|].
  pose proof (w_pos W HW) as Hw. pose proof (h_pos H HH) as Hh.
  pose proof (ratio_pos preset Hpw Hph) as Hr.
  assert (0 < inject_Z (PhotoPreset.width preset))%Q as Hqw
    by (rewrite <- (Zlt_Qlt 0); lia).
  assert (0 < inject_Z (PhotoPreset.height preset))%Q as Hqh
    by (rewrite <- (Zlt_Qlt 0); lia).
  assert (0 < Rect.width crop ∧ 0 < Rect.height crop)%Q as [Hcw Hch].
  { injection Hcases as Hc. rewrite <- Hc. clear Hc.
    match goal with |- context [if ?b then _ else _] => destruct b end;
      cbn [Rect.width Rect.height]; (split; [|try done]); try done.
    - by apply Qmult_lt_0_compat.
    - apply Qlt_shift_div_l; [done|]. by rewrite Qmult_0_l. }
  split; [done|]. split; [done|]. split; [done|]. split; [done|].
  set (cw := Rect.width crop) in *. set (ch := Rect.height crop) in *.
  set (pw := inject_Z (PhotoPreset.width preset)) in *.
  set (ph := inject_Z (PhotoPreset.height preset)) in *.
  clearbody cw ch pw ph.
  assert (cw / ch * (ch * ph) == cw * ph)%Q as <- by (field; lra).
  rewrite Hratio. field. lra.
Qed.

(** Drawing a [cw] by [ch] rectangle of the ratio [a : b] onto a [pw] by
    [ph] canvas scales alike in both directions exactly when the canvas
    has that ratio. *)
Lemma uniform_iff (cw ch pw ph a b : Q) :
  (0 < cw → 0 < ch → 0 < b → cw * b == a * ch →
   (pw / cw == ph / ch ↔ pw * b == ph * a))%Q.
Proof.
  intros Hcw Hch Hb Hcross.
  assert (pw / cw * (cw * ch) == pw * ch)%Q as H1 by (field; lra).
  assert (ph / ch * (cw * ch) == ph * cw)%Q as H2 by (field; lra).
  assert (0 < cw * ch)%Q as Hpos by (by apply Qmult_lt_0_compat).
  split.
  - intros Heq. rewrite Heq, H2 in H1.
    apply (Qmult_inj_r _ _ ch); [lra|].
    assert (pw * b * ch == pw * ch * b)%Q as -> by ring.
    rewrite <- H1.
    assert (ph * cw * b == ph * (cw * b))%Q as -> by ring.
    rewrite Hcross. ring.
  - intros Heq. apply (Qmult_inj_r _ _ (cw * ch)); [lra|]. rewrite H1, H2.
    apply (Qmult_inj_r _ _ b); [lra|].
    assert (pw * ch * b == pw * b * ch)%Q as -> by ring.
    rewrite Heq.
    assert (ph * cw * b == ph * (cw * b))%Q as -> by ring.
    rewrite Hcross. ring.
Qed.

(** The picture is stretched only between the two writes of
    [handlePresetChange].  The handler sets the selected preset at once
    and the crop area after its awaits, and [applyChanges] runs in
    between.  When the call has come to its end with no other change of
    preset in between: for a preset of the catalog other than [none] and
    an image that has a processed file, the crop area lies within the
    picture, has positive size, and is drawn onto a canvas of the
    preset's size with the same scale factor in both directions; in
    every other case there is no crop area and the canvas has the size
    of the picture.  In between, when the crop area of another preset
    is still in place, the canvas has the size of the new preset and
    the old crop area is drawn onto it: with the same scale factor in
    both directions exactly when the two presets have the same aspect
    ratio. *)
Theorem preset_crop_scales_uniformly (presetId : string) (hasProcessed : bool)
    (W H : Z) (face : option (Rect.t Q)) (before : PresetState Q) :
  (1 ≤ W)%Z → (1 ≤ H)%Z →
  let between := handlePresetChange_begin presetId hasProcessed before in
  let settled := handlePresetChange_resume presetId hasProcessed W H face between in
  (selectedPreset settled = presetId
   ∧ match cropArea settled with
     | Some crop =>
         hasProcessed = true ∧ presetId ≠ "none"
         ∧ (∃ preset, find_preset presetId = Some preset
                      ∧ canvas_size settled W H
                        = (PhotoPreset.width preset, PhotoPreset.height preset))
         ∧ inside_source W H crop
         ∧ (0 < Rect.width crop)%Q ∧ (0 < Rect.height crop)%Q
         ∧ (inject_Z (canvas_size settled W H).1 / Rect.width crop
            == inject_Z (canvas_size settled W H).2 / Rect.height crop)%Q
     | None =>
         (hasProcessed = false ∨ presetId = "none" ∨ find_preset presetId = None)
         ∧ canvas_size settled W H = (W, H)
     end)
  ∧ selectedPreset between = presetId
  ∧ ∀ preset old face' stale,
      find_preset presetId = Some preset → PhotoPreset.id preset ≠ "none" →
      hasProcessed = true →
      old ∈ photoPresets → PhotoPreset.id old ≠ "none" →
      calculateCropArea W H old face' = Some stale → cropArea before = Some stale →
      cropArea between = Some stale
      ∧ canvas_size between W H = (PhotoPreset.width preset, PhotoPreset.height preset)
      ∧ ((inject_Z (PhotoPreset.width preset) / Rect.width stale
          == inject_Z (PhotoPreset.height preset) / Rect.height stale)%Q
         ↔ (PhotoPreset.width preset * PhotoPreset.height old
            = PhotoPreset.height preset * PhotoPreset.width old)%Z).
Proof.
  intros HW HH between settled. subst settled between.
  unfold handlePresetChange_begin, handlePresetChange_resume, crop_branch, canvas_size.
  pose proof (find_preset_spec presetId) as Hfind.
  destruct (find_preset presetId) as [preset|] eqn:Hp.
  2:{ cbn [selectedPreset cropArea]. rewrite Hp.
      split; [split; [done|]; split; [by right; right|done]|]. by split. }
  destruct Hfind as [Hcat Hid].
  destruct (decide (PhotoPreset.id preset = "none")) as [Hnone|Hsome].
  { rewrite bool_decide_eq_false_2 by (by intros ?). cbn [andb selectedPreset cropArea].
    rewrite Hp. split; [split; [done|]; split; [right; left; congruence|done]|].
    split; [done|]. intros p ? ? ? [= <-]. done. }
  rewrite bool_decide_eq_true_2 by done. cbn [andb].
  destruct hasProcessed.
  2:{ cbn [selectedPreset cropArea]. rewrite Hp.
      split; [split; [done|]; split; [by left|done]|]. by split. }
  cbn [selectedPreset cropArea]. rewrite Hp, decide_True by done.
  destruct (catalog_crop W H preset face HW HH Hcat Hsome)
    as (crop & Hcrop & Hin & Hcw & Hch & Hqw & Hqh & Hcross).
  rewrite Hcrop. cbn [fst snd]. split; [|split; [done|]].
  - split; [done|]. split; [done|]. split; [congruence|].
    split; [by exists preset|]. split; [done|]. split; [done|]. split; [done|].
    apply (proj2 (uniform_iff _ _ (inject_Z (PhotoPreset.width preset))
                    (inject_Z (PhotoPreset.height preset)) _ _ Hcw Hch Hqh Hcross)).
    ring.
  - intros p old face' stale [= <-] _ _ Hold Holdsome Hstale ->.
    split; [done|]. split; [done|].
    destruct (catalog_crop W H old face' HW HH Hold Holdsome)
      as (crop' & Hcrop' & _ & Hsw & Hsh & Hqow & Hqoh & Hcross').
    rewrite Hstale in Hcrop'. injection Hcrop' as <-.
    pose proof (uniform_iff _ _ (inject_Z (PhotoPreset.width preset))
                  (inject_Z (PhotoPreset.height preset)) _ _ Hsw Hsh Hqoh Hcross')
      as Hiff.
    rewrite <- !inject_Z_mult, inject_Z_injective in Hiff. exact Hiff.
Qed.

Lemma preset_crop_scales_uniformly_witness :
  let china :=
    mkPresetState "china-visa" (calculateCropArea (A:=Q) 800 600 china_visa None) in
  let between := handlePresetChange_begin "us-passport" true china in
  (1 ≤ 800)%Z ∧ (1 ≤ 600)%Z
  ∧ selectedPreset between = "us-passport"
  ∧ ∃ stale,
      cropArea china = Some stale
      ∧ cropArea between = Some stale
      ∧ canvas_size between 800 600 = (600, 600)%Z
      ∧ ((inject_Z 600 / Rect.width stale == inject_Z 600 / Rect.height stale)%Q
         ↔ (600 * 560 = 600 * 420)%Z).
Proof.
  intros china between.
  split; [lia|]. split; [lia|].
  destruct (preset_crop_scales_uniformly "us-passport" true 800 600 None china
              ltac:(lia) ltac:(lia)) as (_ & Hsel & Hstale).
  split; [exact Hsel|].
  assert (∃ stale, calculateCropArea (A:=Q) 800 600 china_visa None = Some stale)
    as [stale Hc] by (eexists; vm_compute; reflexivity).
  assert (Hcat : china_visa ∈ photoPresets) by (right; left).
  exists stale. split; [exact Hc|].
  exact (Hstale (PhotoPreset.mk "us-passport" "US Passport" 600 600 330 420 Store.jpeg
                   (Some 240%Z) "600×600px, JPEG, head 330-420px wide")
           china_visa None stale eq_refl ltac:(discriminate) eq_refl Hcat
           ltac:(discriminate) Hc Hc).
Defined.


(** The effect sliders: a value set is the value read back, for the three
    effects that have a slider; with any other effect selected the state
    is left alone and the value read is 50.  Setting a value changes
    neither the selected effect nor the other two sliders. *)
Theorem effect_slider_round_trip (value : Z) (s : EffectState) :
  let s' := handleEffectValueChange value s in
  let sliders := ["blur"; "brightness"; "contrast"] in
  selectedEffect s' = selectedEffect s
  ∧ (selectedEffect s ∈ sliders → getCurrentEffectValue s' = value)
  ∧ (selectedEffect s ∉ sliders → s' = s ∧ getCurrentEffectValue s' = 50%Z)
  ∧ (selectedEffect s ≠ "blur" → blurValue s' = blurValue s)
  ∧ (selectedEffect s ≠ "brightness" → brightnessValue s' = brightnessValue s)
  ∧ (selectedEffect s ≠ "contrast" → contrastValue s' = contrastValue s)
  ∧ handleEffectValueChange value s' = s'.
Proof.
  intros s' sliders. subst s' sliders.
  unfold handleEffectValueChange, getCurrentEffectValue.
  rewrite !elem_of_cons, elem_of_nil.
  destruct s as [e bl br co]. cbn [selectedEffect blurValue brightnessValue contrastValue].
  destruct (decide (e = "blur")) as [->|Hbl].
  { cbn. repeat split; intros; try done; exfalso;
    match goal with Hn : ¬ _ |- _ => apply Hn; auto end. }
  destruct (decide (e = "brightness")) as [->|Hbr].
  { cbn. repeat split; intros; try done; exfalso;
    match goal with Hn : ¬ _ |- _ => apply Hn; auto end. }
  destruct (decide (e = "contrast")) as [->|Hco].
  { cbn. repeat split; intros; try done; exfalso;
    match goal with Hn : ¬ _ |- _ => apply Hn; auto end. }
  cbn [selectedEffect blurValue brightnessValue contrastValue].
  rewrite !decide_False by done.
  repeat split; intros; try done.
  match goal with H : _ ∨ _ |- _ => destruct H as [?|[?|[?|[]]]]; done end.
Qed.

Lemma monotone_steps (f : Z → Z) (lo hi : Z) :
  (∀ c, lo ≤ c < hi → f c ≤ f (c + 1))%Z →
  ∀ c1 c2, (lo ≤ c1 ≤ c2 ∧ c2 ≤ hi)%Z → (f c1 ≤ f c2)%Z.
Proof.
  intros Hstep c1 c2 Hc. remember (Z.to_nat (c2 - c1)) as d eqn:Hd.
  revert c2 Hc Hd. induction d as [|d IH]; intros c2 Hc Hd.
  - assert (c2 = c1) as -> by lia. lia.
  - specialize (IH (c2 - 1)%Z ltac:(lia) ltac:(lia)).
    specialize (Hstep (c2 - 1)%Z ltac:(lia)).
    replace (c2 - 1 + 1)%Z with c2 in Hstep by lia. lia.
Qed.

Lemma nondecreasing_map (g : Z → Z) (n : nat) :
  ∀ s, nondecreasing (map g (map Z.of_nat (seq s n))) = true →
  ∀ k, s ≤ k → S k < s + n → (g (Z.of_nat k) ≤ g (Z.of_nat (S k)))%Z.
Proof.
  induction n as [|n IH]; intros s Hnd k Hk Hlt; [lia|].
  cbn [seq map nondecreasing] in Hnd. apply andb_prop in Hnd as [Hhead Htail].
  destruct (decide (k = s)) as [->|Hne].
  - destruct n as [|n]; [lia|]. cbn [seq map] in Hhead. by apply Z.leb_le.
  - apply (IH (S s)); [done|lia|lia].
Qed.

Lemma columns_ok_map (p : Z → Z → Z → bool) (g1 g2 : Z → Z) (n : nat) :
  ∀ s, columns_ok p (map Z.of_nat (seq s n)) (map g1 (map Z.of_nat (seq s n)))
         (map g2 (map Z.of_nat (seq s n))) = true →
  ∀ k, s ≤ k < s + n → p (Z.of_nat k) (g1 (Z.of_nat k)) (g2 (Z.of_nat k)) = true.
Proof.
  induction n as [|n IH]; intros s Hok k Hk; [lia|].
  cbn [seq map columns_ok] in Hok. apply andb_prop in Hok as [Hhead Htail].
  destruct (decide (k = s)) as [->|Hne]; [done|].
  apply (IH (S s)); [done|lia].
Qed.

Lemma rows_ok_map (p : Z → Z → Z → Z → bool) (f : Z → Z → Z) (cs : list Z) (n : nat) :
  ∀ s, rows_ok p cs (map (λ i, (i, map (f i) cs)) (map Z.of_nat (seq s n))) = true →
  ∀ k, s ≤ k < s + n →
    nondecreasing (map (f (Z.of_nat k)) cs) = true
    ∧ columns_ok (p (Z.of_nat k)) cs (map (f (Z.of_nat k)) cs)
        (map (f (Z.of_nat (if decide (S k < s + n) then S k else k))) cs) = true.
Proof.
  induction n as [|n IH]; intros s Hok k Hk; [lia|].
  cbn [seq map rows_ok] in Hok.
  apply andb_prop in Hok as [[Hnd Hcols]%andb_prop Hrest].
  destruct (decide (k = s)) as [->|Hne].
  - split; [done|]. destruct n as [|n].
    + rewrite decide_False by lia. exact Hcols.
    + rewrite decide_True by lia. exact Hcols.
  - destruct (IH (S s) Hrest k ltac:(lia)) as [? Hc]. split; [done|].
    destruct (decide (S k < S s + n)), (decide (S k < s + S n)); try lia; exact Hc.
Qed.

(** The table of the brightness effect for the slider values from 0 to
    100 and the channel values from 0 to 255, in IEEE arithmetic. *)
Lemma brightness_table_ok :
  rows_ok brightness_rule (map Z.of_nat (seq 0 256))
    (map (λ i, (i, map (brightness_channel (A:=float) i) (map Z.of_nat (seq 0 256))))
         (map Z.of_nat (seq 0 101))) = true.
Proof. vm_compute. reflexivity. Qed.

Lemma contrast_table_ok :
  rows_ok contrast_rule (map Z.of_nat (seq 0 256))
    (map (λ i, (i, map (contrast_channel (A:=float) i) (map Z.of_nat (seq 0 256))))
         (map Z.of_nat (seq 0 101))) = true.
Proof. vm_compute. reflexivity. Qed.

Lemma order_check_holds (intensity c : Z) :
  (0 ≤ intensity ≤ 100)%Z → (0 ≤ c ≤ 255)%Z →
  let b := brightness_channel (A:=float) in
  let k := contrast_channel (A:=float) in
  ((c < 255 → b intensity c ≤ b intensity (c + 1) ∧ k intensity c ≤ k intensity (c + 1))
   ∧ (intensity < 100 → b intensity c ≤ b (intensity + 1) c)
   ∧ (intensity < 100 → 128 ≤ c → k intensity c ≤ k (intensity + 1) c)
   ∧ (intensity < 100 → c < 128 → k (intensity + 1) c ≤ k intensity c)
   ∧ (128 ≤ c → c ≤ k intensity c)
   ∧ (c < 128 → k intensity c ≤ c)
   ∧ (intensity ≤ 50 → b intensity c ≤ c)
   ∧ (50 ≤ intensity → c ≤ b intensity c)
   ∧ (intensity = 0 → b intensity c = 0 ∧ k intensity c = c)
   ∧ (c = 128 → k intensity c = 128))%Z.
Proof.
  intros Hi Hc b k.
  destruct (rows_ok_map brightness_rule (brightness_channel (A:=float)) _ 101 0
              brightness_table_ok (Z.to_nat intensity) ltac:(lia)) as [Hbn Hbc].
  destruct (rows_ok_map contrast_rule (contrast_channel (A:=float)) _ 101 0
              contrast_table_ok (Z.to_nat intensity) ltac:(lia)) as [Hkn Hkc].
  pose proof (columns_ok_map _ _ _ 256 0 Hbc (Z.to_nat c) ltac:(lia)) as Hbr.
  pose proof (columns_ok_map _ _ _ 256 0 Hkc (Z.to_nat c) ltac:(lia)) as Hkr.
  pose proof (nondecreasing_map _ 256 0 Hbn (Z.to_nat c) ltac:(lia)) as Hbs.
  pose proof (nondecreasing_map _ 256 0 Hkn (Z.to_nat c) ltac:(lia)) as Hks.
  clear Hbn Hbc Hkn Hkc.
  fold b in Hbr, Hbs. fold k in Hkr, Hks. clearbody b k.
  replace (Z.of_nat (S (Z.to_nat c))) with (c + 1)%Z in Hbs, Hks by lia.
  rewrite !Z2Nat.id in * by lia.
  unfold brightness_rule in Hbr. unfold contrast_rule in Hkr.
  destruct (decide (S (Z.to_nat intensity) < 0 + 101)) as [Hlt|Hge].
  - replace (Z.of_nat (S (Z.to_nat intensity))) with (intensity + 1)%Z in Hbr, Hkr by lia.
    revert Hbr Hkr.
    destruct (Z.leb_spec intensity 50), (Z.leb_spec 50 intensity), (Z.eqb_spec intensity 0),
      (Z.leb_spec 128 c), (Z.eqb_spec c 128); intros Hbr Hkr;
      repeat match goal with
             | H : (_ && _) = true |- _ => apply andb_prop in H as [? ?]
             end;
      repeat match goal with
             | H : (_ <=? _)%Z = true |- _ => apply Z.leb_le in H
             | H : (_ =? _)%Z = true |- _ => apply Z.eqb_eq in H
             end;
      repeat split; intros; try lia; try done.
  - assert (intensity = 100%Z) as -> by lia.
    revert Hbr Hkr.
    destruct (Z.leb_spec 128 c), (Z.eqb_spec c 128); intros Hbr Hkr;
      cbn [Z.leb Z.eqb Z.compare Pos.compare Pos.compare_cont] in Hbr, Hkr;
      repeat match goal with
             | H : (_ && _) = true |- _ => apply andb_prop in H as [? ?]
             end;
      repeat match goal with
             | H : (_ <=? _)%Z = true |- _ => apply Z.leb_le in H
             | H : (_ =? _)%Z = true |- _ => apply Z.eqb_eq in H
             end;
      repeat split; intros; try lia; try done.
Qed.

(** The effects keep the order of channel values.  For a slider value
    from 0 to 100 and two channel values from 0 to 255, the darker one
    is not brighter than the other after the brightness effect, nor
    after the contrast effect: neither effect inverts a gradient.
    Numbers are IEEE 754 binary64. *)
Theorem effects_keep_order (intensity c1 c2 : Z) :
  (0 ≤ intensity ≤ 100)%Z → (0 ≤ c1)%Z → (c1 ≤ c2)%Z → (c2 ≤ 255)%Z →
  (brightness_channel (A:=float) intensity c1
   ≤ brightness_channel (A:=float) intensity c2)%Z
  ∧ (contrast_channel (A:=float) intensity c1
     ≤ contrast_channel (A:=float) intensity c2)%Z.
Proof.
  intros Hi H1 H12 H2. split.
  - apply (monotone_steps (brightness_channel (A:=float) intensity) 0 255); [|lia].
    intros c Hc.
    destruct (order_check_holds intensity c Hi ltac:(lia)) as (Hstep & _).
    apply Hstep. lia.
  - apply (monotone_steps (contrast_channel (A:=float) intensity) 0 255); [|lia].
    intros c Hc.
    destruct (order_check_holds intensity c Hi ltac:(lia)) as (Hstep & _).
    apply Hstep. lia.
Qed.

Lemma effects_keep_order_witness :
  (0 ≤ 70 ≤ 100)%Z ∧ (0 ≤ 100)%Z ∧ (100 ≤ 200)%Z ∧ (200 ≤ 255)%Z
  ∧ (brightness_channel (A:=float) 70 100 ≤ brightness_channel (A:=float) 70 200)%Z
  ∧ (contrast_channel (A:=float) 70 100 ≤ contrast_channel (A:=float) 70 200)%Z.
Proof.
  split; [lia|]. split; [lia|]. split; [lia|]. split; [lia|].
  exact (effects_keep_order 70 100 200 ltac:(lia) ltac:(lia) ltac:(lia) ltac:(lia)).
Defined.

(** What the sliders do.  Moving the brightness slider up never darkens a
    channel; at 50 or below no channel gets brighter, at 50 or above none
    gets darker, and at 0 every colour channel is 0.  The contrast effect
    pushes channel values away from the middle value 128, further the
    higher the slider: a value of 128 or more does not fall, a value of
    128 or less does not rise, 128 itself stays, and at 0 nothing
    changes.  Numbers are IEEE 754 binary64. *)
Theorem effect_sliders_direction (i1 i2 c : Z) :
  (0 ≤ i1)%Z → (i1 ≤ i2)%Z → (i2 ≤ 100)%Z → (0 ≤ c ≤ 255)%Z →
  let b := brightness_channel (A:=float) in
  let k := contrast_channel (A:=float) in
  (b i1 c ≤ b i2 c
   ∧ (i2 ≤ 50 → b i2 c ≤ c)
   ∧ (50 ≤ i1 → c ≤ b i1 c)
   ∧ b 0 c = 0
   ∧ (128 ≤ c → c ≤ k i1 c ∧ k i1 c ≤ k i2 c)
   ∧ (c ≤ 128 → k i2 c ≤ k i1 c ∧ k i1 c ≤ c)
   ∧ k i1 128 = 128
   ∧ k 0 c = c)%Z.
Proof.
  intros H1 H12 H2 Hc b k.
  assert (Hi1 : (0 ≤ i1 ≤ 100)%Z) by lia. assert (Hi2 : (0 ≤ i2 ≤ 100)%Z) by lia.
  pose proof (order_check_holds i1 c Hi1 Hc)
    as (_ & _ & _ & _ & Hup1 & Hdown1 & _ & Hbr1 & _ & _).
  pose proof (order_check_holds i2 c Hi2 Hc) as (_ & _ & _ & _ & _ & _ & Hdk2 & _).
  pose proof (order_check_holds 0 c ltac:(lia) Hc)
    as (_ & _ & _ & _ & _ & _ & _ & _ & Hzero & _).
  destruct (Hzero eq_refl) as [Hb0 Hk0].
  pose proof (order_check_holds i1 128 Hi1 ltac:(lia))
    as (_ & _ & _ & _ & _ & _ & _ & _ & _ & Hfix).
  specialize (Hfix eq_refl).
  pose proof (order_check_holds i2 128 Hi2 ltac:(lia))
    as (_ & _ & _ & _ & _ & _ & _ & _ & _ & Hfix2).
  specialize (Hfix2 eq_refl).
  fold b k in Hup1, Hdown1, Hbr1, Hb0, Hk0, Hdk2, Hfix, Hfix2.
  split.
  { apply (monotone_steps (λ i, b i c) 0 100); [|lia].
    intros i Hi.
    destruct (order_check_holds i c ltac:(lia) Hc) as (_ & Hs & _). apply Hs. lia. }
  split; [exact Hdk2|]. split; [exact Hbr1|]. split; [exact Hb0|].
  split; [|split; [|split; [exact Hfix|exact Hk0]]].
  - intros Hge. split; [by apply Hup1|].
    apply (monotone_steps (λ i, k i c) 0 100); [|lia].
    intros i Hi.
    destruct (order_check_holds i c ltac:(lia) Hc) as (_ & _ & Hs & _). apply Hs; lia.
  - intros Hle. destruct (decide (c = 128%Z)) as [->|Hne].
    { rewrite Hfix, Hfix2. lia. }
    split; [|apply Hdown1; lia].
    assert (- k i1 c ≤ - k i2 c)%Z; [|lia].
    apply (monotone_steps (λ i, (- k i c)%Z) 0 100); [|lia].
    intros i Hi.
    destruct (order_check_holds i c ltac:(lia) Hc) as (_ & _ & _ & Hs & _).
    specialize (Hs ltac:(lia) ltac:(lia)). fold k in Hs. lia.
Qed.

Lemma effect_sliders_direction_witness :
  (0 ≤ 20)%Z ∧ (20 ≤ 80)%Z ∧ (80 ≤ 100)%Z ∧ (0 ≤ 200 ≤ 255)%Z
  ∧ (brightness_channel (A:=float) 20 200 ≤ brightness_channel (A:=float) 80 200)%Z
  ∧ (200 ≤ contrast_channel (A:=float) 20 200)%Z
  ∧ contrast_channel (A:=float) 0 200 = 200%Z.
Proof.
  split; [lia|]. split; [lia|]. split; [lia|]. split; [lia|].
  destruct (effect_sliders_direction 20 80 200 ltac:(lia) ltac:(lia) ltac:(lia)
              ltac:(lia)) as (Hb & _ & _ & _ & Hk & _ & _ & Hk0).
  split; [exact Hb|]. split; [exact (proj1 (Hk ltac:(lia)))|exact Hk0].
Defined.

End EditorFacts.
